(** * apksig: locating and decoding the APK Signing Block (scheme v2)

    A shallow embedding of [src/src/apksig.cpp] and
    [src/include/apksig/apksig.hpp] (the revision with [get_v2_block]) and
    of [hexstr] of [src/main.cpp], followed by the properties of the
    reverse byte scanner, of the length-prefixed sequence decoder, of the
    v2 block decoder and of [siginfo::parse].

    Conventions of the embedding:
    - a byte ([uint8_t], [char]) is a [Byte.byte]; an unsigned integer of
      [w] bytes is a [Z] in [[0, 2^(8w))], every operation that can leave
      that range is followed by its wrap-around;
    - [std::streampos] and [std::streamoff] are 64-bit signed: a [Z], with
      the two's complement wrap-around written where an unsigned 64-bit
      value read from the file enters the arithmetic;
    - a [std::istream] is its content, its get position and its failbit; the
      stream is used with [exceptions(failbit | badbit)], as the constructor
      of [siginfo] sets it, so that a failed operation throws;
    - a function that reads the stream is a state transformer that yields a
      value, a thrown exception or the exhaustion of the fuel given to its
      loops, together with the stream it leaves behind;
    - a request for memory whose size is read from the file, the buffer of
      [read_into_vector], is answered by the allocator of the run, which is
      a parameter of the decoders: a refused request throws
      [std::bad_alloc].  The other requests are taken as granted: the
      window of the scanner, whose size the program fixes, and the growth
      of a result vector, which follows the bytes that were read. *)

From Stdlib Require Import ZArith List Lia Bool.
From Stdlib Require Import Strings.Byte.
From Stdlib Require Strings.Ascii Strings.String.
Import ListNotations.
Local Open Scope Z_scope.

(** ** Bytes and fixed-width integers *)

Definition byte_val (b : byte) : Z := Z.of_N (Byte.to_N b).

Definition byte_of_Z (z : Z) : byte :=
  match Byte.of_N (Z.to_N (z mod 256)) with
  | Some b => b
  | None => x00
  end.

Definition bytes_eqb (a b : list byte) : bool :=
  if list_eq_dec Byte.byte_eq_dec a b then true else false.

(** [static_cast<T>] to an unsigned type of [w] bytes. *)
Definition wrap (w : nat) (z : Z) : Z := z mod 2 ^ (8 * Z.of_nat w).

(** [static_cast<std::streamoff>] of an unsigned 64-bit value, and the
    result of 64-bit signed arithmetic. *)
Definition to_streamoff (z : Z) : Z := (z + 2 ^ 63) mod 2 ^ 64 - 2 ^ 63.

(** ** Exceptions, outcomes and the state monad *)

(** The exceptions thrown: [std::ios_base::failure] on failbit or badbit;
    [std::bad_alloc] on a request for memory that is refused; the
    [std::runtime_error]s "Incomplete sequence", "pat_first comes after
    pat_last", "truncated sequence" and "truncated value in sequence"; the
    [parse_error]s "Not a zip file, could not find EOCD Magic" and "APK
    signing block magic not found where expected". *)
Inductive exn : Type :=
| ios_failure
| bad_alloc
| incomplete_sequence
| pat_first_after_last
| truncated_sequence
| truncated_value
| not_a_zip_file
| magic_not_found.

(** The two exceptions of class [parse_error]. *)
Definition is_parse_error (e : exn) : bool :=
  match e with
  | not_a_zip_file | magic_not_found => true
  | _ => false
  end.

Inductive outcome (A : Type) : Type :=
| Ok (a : A)
| Throw (e : exn)
| OutOfFuel.
Arguments Ok {A} a.
Arguments Throw {A} e.
Arguments OutOfFuel {A}.

Definition M (S A : Type) : Type := S -> outcome A * S.

Definition ret {S A} (a : A) : M S A := fun s => (Ok a, s).

Definition bind {S A B} (m : M S A) (k : A -> M S B) : M S B :=
  fun s =>
    match m s with
    | (Ok a, s') => k a s'
    | (Throw e, s') => (Throw e, s')
    | (OutOfFuel, s') => (OutOfFuel, s')
    end.

Definition throw {S A} (e : exn) : M S A := fun s => (Throw e, s).

Definition out_of_fuel {S A} : M S A := fun s => (OutOfFuel, s).

Notation "x <- m ;; k" := (bind m (fun x => k))
  (at level 61, m at next level, right associativity).
Notation "m ;; k" := (bind m (fun _ => k))
  (at level 61, right associativity).

(** ** The byte stream reader: [std::istream] *)

Record istream : Type := mk_istream {
  content : list byte;
  gpos : Z;
  failbit : bool
}.

Definition open (bytes : list byte) : istream := mk_istream bytes 0 false.

Definition size (s : istream) : Z := Z.of_nat (length (content s)).

Definition set_gpos (p : Z) (s : istream) : istream :=
  mk_istream (content s) p (failbit s).

(** [setstate(failbit)] under [exceptions(failbit | badbit)]. *)
Definition set_failbit {A} : M istream A :=
  fun s => (Throw ios_failure, mk_istream (content s) (gpos s) true).

(** Every operation builds a sentry first; on a stream that is not good
    this sets failbit again and throws. *)
Definition sentry {A} (m : M istream A) : M istream A :=
  fun s => if failbit s then (Throw ios_failure, s) else m s.

(** [is.seekg(pos)]: a negative position is refused by the file buffer; a
    position past the end is accepted. *)
Definition seekg (pos : Z) : M istream unit :=
  sentry (fun s => if pos <? 0 then set_failbit s else (Ok tt, set_gpos pos s)).

(** [is.seekg(0, std::ios_base::end)]. *)
Definition seekg_end : M istream unit :=
  sentry (fun s => (Ok tt, set_gpos (size s) s)).

Definition tellg : M istream Z :=
  sentry (fun s => (Ok (gpos s), s)).

(** [is.read(buf, n)]: [n] bytes from the get position, or failbit when
    fewer are left. *)
Definition read (n : Z) : M istream (list byte) :=
  sentry (fun s =>
    if n <=? Z.max 0 (size s - gpos s)
    then (Ok (firstn (Z.to_nat n) (skipn (Z.to_nat (gpos s)) (content s))),
          set_gpos (gpos s + n) s)
    else set_failbit s).

(** ** The little-endian codec *)

Definition read_into_array (N : nat) : M istream (list byte) :=
  read (Z.of_nat N).

(** [le_to_host<T>(p)] with [sizeof(T) = w]: [v |= T(p[i]) << (8 * i)]. *)
Definition le_to_host (w : nat) (p : list byte) : Z :=
  fold_left
    (fun v i =>
       Z.lor v (wrap w (Z.shiftl (byte_val (nth i p x00)) (8 * Z.of_nat i))))
    (seq 0 w) 0.

Definition read_le (w : nat) : M istream Z :=
  buf <- read_into_array w ;;
  ret (le_to_host w buf).

(** The allocator of a run: whether it grants a request of [n] bytes. *)
Definition allocator : Type := Z -> bool.

(** An allocator that grants every request. *)
Definition ample : allocator := fun _ => true.

(** [read_into_vector(is, n)]: [std::vector<uint8_t> out(n)] is built before
    the stream is read, and throws [std::bad_alloc] when the allocator
    refuses its [n] bytes; a vector of no bytes asks for nothing. *)
Definition read_into_vector (heap : allocator) (n : Z)
    : M istream (list byte) :=
  if (0 <? n) && negb (heap n) then throw bad_alloc else read n.

(** ** The reverse byte scanner *)

Definition default_window_size : Z := 4 * 1024.

(** [std::equal(pat_first, pat_last, window_buffer.cbegin() + j)]. *)
Definition equal_at (pat buf : list byte) (j : nat) : bool :=
  bytes_eqb pat (firstn (length pat) (skipn j buf)).

(** The inner [for] loop: the reverse iterator [it] with
    [it.base() = cbegin() + k] tests the index [k - 1]; the loop ends at
    [crend()], whose base is [cbegin()]. *)
Fixpoint scan_window (pat buf : list byte) (k : nat) : option nat :=
  match k with
  | O => None
  | S j => if equal_at pat buf j then Some j else scan_window pat buf j
  end.

Fixpoint reverse_find_loop (fuel : nat) (pat : list byte) (window_size : Z)
    (carry_buffer : list byte) (current_pos : Z) : M istream Z :=
  if 0 <? current_pos then
    match fuel with
    | O => out_of_fuel
    | S fuel' =>
        let pos := Z.max 0 (current_pos - window_size) in
        seekg pos ;;
        window <- read (current_pos - pos) ;;
        let window_buffer := window ++ carry_buffer in
        (* it = crbegin() + pat_size, that is it.base() = cend() - pat_size *)
        match scan_window pat window_buffer
                (length window_buffer - length pat) with
        | Some j => ret (pos + Z.of_nat j)
        | None =>
            reverse_find_loop fuel' pat window_size
              (firstn (length pat - 1) window_buffer) pos
        end
    end
  else ret (-1).

(** [reverse_find_bytes(is, pat_first, pat_last, start)]; [start = -1] is
    the default argument.  A pattern is a list, so [pat_size < 0] cannot
    arise.  The loop moves [current_pos] down by at least one byte in each
    turn, so [current_pos] turns of fuel are enough. *)
Definition reverse_find_bytes (pat : list byte) (start : Z) : M istream Z :=
  (if start =? -1 then seekg_end else seekg start) ;;
  let pat_size := Z.of_nat (length pat) in
  if pat_size =? 0 then ret (-1)
  else
    let window_size := Z.max default_window_size pat_size in
    let carry_buffer := repeat x00 (length pat - 1) in
    current_pos <- tellg ;;
    reverse_find_loop (Z.to_nat current_pos) pat window_size carry_buffer
      current_pos.

(** ** The data model ([apksig.hpp]) *)

Record digest : Type := mk_digest {
  digest_sig_algo_id : Z;
  digest_data : list byte
}.

Definition certificate : Type := list byte.

Record add_attr : Type := mk_add_attr {
  add_attr_id : Z;
  add_attr_value : list byte
}.

Record v2_signed_data : Type := mk_v2_signed_data {
  digests : list digest;
  certificates : list certificate;
  add_attrs : list add_attr
}.

Record signature : Type := mk_signature {
  signature_sig_algo_id : Z;
  signature_data : list byte
}.

Definition public_key : Type := list byte.

Record v2_signer : Type := mk_v2_signer {
  signed_data : v2_signed_data;
  signatures : list signature;
  signer_public_key : public_key
}.

Record v2_block : Type := mk_v2_block {
  signers : list v2_signer
}.

(** ** The length-prefixed sequence decoder *)

(** The [while] loop of [parse_len_prefixed_seq]; [parsed_len] is a
    [uint32_t] and [sizeof(len) + len] is added to it with wrap-around.
    The check against [seq_len] comes after [f] has run. *)
Fixpoint parse_len_prefixed_seq_loop {T} (fuel : nat) (seq_len : Z)
    (f : Z -> M istream T) (parsed_len : Z) (out : list T)
    : M istream (list T) :=
  if parsed_len <? seq_len then
    match fuel with
    | O => out_of_fuel
    | S fuel' =>
        len <- read_le 4 ;;
        x <- f len ;;
        let parsed_len' := wrap 4 (parsed_len + (4 + len)) in
        if seq_len <? parsed_len' then throw incomplete_sequence
        else parse_len_prefixed_seq_loop fuel' seq_len f parsed_len'
               (out ++ [x])
    end
  else ret out.

Definition parse_len_prefixed_seq {T} (fuel : nat) (seq_len : Z)
    (f : Z -> M istream T) : M istream (list T) :=
  parse_len_prefixed_seq_loop fuel seq_len f 0 [].

(** ** The v2 block decoder *)

(** The decoders take the allocator of the run as their first argument. *)
Definition parse_digest (heap : allocator) (len : Z) : M istream digest :=
  sig_algo_id <- read_le 4 ;;
  digest_data_len <- read_le 4 ;;
  digest_data <- read_into_vector heap digest_data_len ;;
  ret (mk_digest sig_algo_id digest_data).

Definition parse_certificate (heap : allocator) (len : Z)
    : M istream certificate :=
  read_into_vector heap len.

Definition parse_add_attr (heap : allocator) (len : Z) : M istream add_attr :=
  id <- read_le 4 ;;
  value_len <- read_le 4 ;;
  value <- read_into_vector heap value_len ;;
  ret (mk_add_attr id value).

Definition parse_v2_signed_data (heap : allocator) (fuel : nat) (len : Z)
    : M istream v2_signed_data :=
  digests_seq_len <- read_le 4 ;;
  digests <-
    parse_len_prefixed_seq fuel digests_seq_len (parse_digest heap) ;;
  certificates_seq_len <- read_le 4 ;;
  certificates <-
    parse_len_prefixed_seq fuel certificates_seq_len
      (parse_certificate heap) ;;
  add_attrs_seq_len <- read_le 4 ;;
  add_attrs <-
    parse_len_prefixed_seq fuel add_attrs_seq_len (parse_add_attr heap) ;;
  x <- read_le 4 ;;
  ret (mk_v2_signed_data digests certificates add_attrs).

Definition parse_signature (heap : allocator) (len : Z)
    : M istream signature :=
  sig_algo_id <- read_le 4 ;;
  sig_data_len <- read_le 4 ;;
  sig_data <- read_into_vector heap sig_data_len ;;
  ret (mk_signature sig_algo_id sig_data).

Definition parse_public_key (heap : allocator) (len : Z)
    : M istream public_key :=
  read_into_vector heap len.

Definition parse_v2_signer (heap : allocator) (fuel : nat) (len : Z)
    : M istream v2_signer :=
  signed_data_len <- read_le 4 ;;
  signed_data <- parse_v2_signed_data heap fuel signed_data_len ;;
  signatures_seq_len <- read_le 4 ;;
  signatures <-
    parse_len_prefixed_seq fuel signatures_seq_len (parse_signature heap) ;;
  public_key_len <- read_le 4 ;;
  public_key <- parse_public_key heap public_key_len ;;
  ret (mk_v2_signer signed_data signatures public_key).

Definition parse_v2_block (heap : allocator) (fuel : nat) (len : Z)
    : M istream v2_block :=
  signers <- parse_len_prefixed_seq fuel len (parse_v2_signer heap fuel) ;;
  ret (mk_v2_block signers).

(** ** The signing block locator: [class siginfo] *)

Record siginfo : Type := mk_siginfo {
  ifs_ : istream;
  v2_block_pos_ : Z;
  v3_block_pos_ : Z;
  v3_1_block_pos_ : Z;
  v2_block_ : v2_block
}.

Definition eocd_magic : list byte := [x50; x4b; x05; x06].

(** ["APK Sig Block 42"] *)
Definition apk_magic : list byte :=
  [x41; x50; x4b; x20; x53; x69; x67; x20;
   x42; x6c; x6f; x63; x6b; x20; x34; x32].

Definition v2_id : Z := 0x7109871a.
Definition v3_id : Z := 0xf05368c0.
Definition v3_1_id : Z := 0x1b93ad61.

(** The constructor: the file is opened, the positions start at [-1] and
    the block is empty. *)
Definition new_siginfo (file : list byte) : siginfo :=
  mk_siginfo (open file) (-1) (-1) (-1) (mk_v2_block []).

Definition has_v2_block (si : siginfo) : bool := negb (v2_block_pos_ si =? -1).
Definition has_v3_block (si : siginfo) : bool := negb (v3_block_pos_ si =? -1).
Definition has_v3_1_block (si : siginfo) : bool :=
  negb (v3_1_block_pos_ si =? -1).
Definition get_v2_block (si : siginfo) : v2_block := v2_block_ si.

(** An operation of the stream member, run inside the object. *)
Definition on_ifs {A} (m : M istream A) : M siginfo A :=
  fun si =>
    let (r, s') := m (ifs_ si) in
    (r, mk_siginfo s' (v2_block_pos_ si) (v3_block_pos_ si)
          (v3_1_block_pos_ si) (v2_block_ si)).

Definition set_v2_block_pos (p : Z) : M siginfo unit :=
  fun si => (Ok tt, mk_siginfo (ifs_ si) p (v3_block_pos_ si)
                      (v3_1_block_pos_ si) (v2_block_ si)).

Definition set_v3_block_pos (p : Z) : M siginfo unit :=
  fun si => (Ok tt, mk_siginfo (ifs_ si) (v2_block_pos_ si) p
                      (v3_1_block_pos_ si) (v2_block_ si)).

Definition set_v3_1_block_pos (p : Z) : M siginfo unit :=
  fun si => (Ok tt, mk_siginfo (ifs_ si) (v2_block_pos_ si)
                      (v3_block_pos_ si) p (v2_block_ si)).

Definition set_v2_block (b : v2_block) : M siginfo unit :=
  fun si => (Ok tt, mk_siginfo (ifs_ si) (v2_block_pos_ si)
                      (v3_block_pos_ si) (v3_1_block_pos_ si) b).

(** What one turn of the walk does with the pair's id. *)
Definition classify_pair (heap : allocator) (fuel : nat) (id : Z)
    : M siginfo unit :=
  if id =? v2_id then
    p <- on_ifs tellg ;;
    set_v2_block_pos p ;;
    v2_block_len <- on_ifs (read_le 4) ;;
    b <- on_ifs (parse_v2_block heap fuel v2_block_len) ;;
    set_v2_block b
  else if id =? v3_id then
    p <- on_ifs tellg ;;
    set_v3_block_pos p
  else if id =? v3_1_id then
    p <- on_ifs tellg ;;
    set_v3_1_block_pos p
  else ret tt.

(** [i += static_cast<std::streamoff>(pair_len + 8)], the sum being
    unsigned 64-bit. *)
Definition next_pair (i pair_len : Z) : Z :=
  to_streamoff (i + to_streamoff (wrap 8 (pair_len + 8))).

(** The body of the [for] loop: it yields the next value of [i]. *)
Definition walk_pair (heap : allocator) (fuel : nat) (i : Z)
    : M siginfo Z :=
  on_ifs (seekg i) ;;
  pair_len <- on_ifs (read_le 8) ;;
  id <- on_ifs (read_le 4) ;;
  classify_pair heap fuel id ;;
  ret (next_pair i pair_len).

Fixpoint walk_pairs (heap : allocator) (fuel : nat)
    (apk_sig_size_of_block_pos : Z) (i : Z) : M siginfo unit :=
  if i <? apk_sig_size_of_block_pos then
    match fuel with
    | O => out_of_fuel
    | S fuel' =>
        i' <- walk_pair heap fuel i ;;
        walk_pairs heap fuel' apk_sig_size_of_block_pos i'
    end
  else ret tt.

(** [siginfo::parse()]. *)
Definition parse (heap : allocator) (fuel : nat) : M siginfo unit :=
  eocd_magic_pos <- on_ifs (reverse_find_bytes eocd_magic (-1)) ;;
  if eocd_magic_pos =? -1 then throw not_a_zip_file
  else
    let offset_of_start_of_cd_pos := eocd_magic_pos + 16 in
    on_ifs (seekg offset_of_start_of_cd_pos) ;;
    offset_of_start_of_cd <- on_ifs (read_le 4) ;;
    on_ifs (seekg offset_of_start_of_cd) ;;
    start_of_cd_pos <- on_ifs tellg ;;
    let apk_sig_magic_pos := start_of_cd_pos - 16 in
    on_ifs (seekg apk_sig_magic_pos) ;;
    magic <- on_ifs (read_into_array 16) ;;
    if negb (bytes_eqb magic apk_magic) then throw magic_not_found
    else
      let apk_sig_size_of_block_pos := apk_sig_magic_pos - 8 in
      on_ifs (seekg apk_sig_size_of_block_pos) ;;
      apk_sig_size_of_block <- on_ifs (read_le 8) ;;
      let apk_sig_id_val_pairs_pos :=
        to_streamoff (start_of_cd_pos - to_streamoff apk_sig_size_of_block) in
      walk_pairs heap fuel apk_sig_size_of_block_pos
        apk_sig_id_val_pairs_pos.

(** ** The earlier revision of the sequence decoder

    The source files also hold the revision that came before this one: it
    copied the value of the v2 pair into a buffer and split it into spans
    with pointers.  Its sequence splitter is embedded here, to be compared
    with [parse_len_prefixed_seq].  A pointer is its offset into the
    buffer. *)
Module Legacy.

Record span : Type := mk_span {
  len : Z;
  data : Z
}.

Definition parse_len_prefix_value (mem : list byte) (p : Z) : span :=
  mk_span (le_to_host 4 (firstn 4 (skipn (Z.to_nat p) mem))) (p + 4).

Fixpoint parse_len_prefix_seq_loop (fuel : nat) (mem : list byte)
    (first last : Z) (out : list span) : outcome (list span) :=
  if first <? last then
    match fuel with
    | O => OutOfFuel
    | S fuel' =>
        if last - first <? 4 then Throw truncated_sequence
        else
          let s := parse_len_prefix_value mem first in
          if last <? data s + len s then Throw truncated_value
          else
            parse_len_prefix_seq_loop fuel' mem (data s + len s) last
              (out ++ [s])
    end
  else Ok out.

(** [first] moves up by at least four bytes in each turn. *)
Definition parse_len_prefix_seq (mem : list byte) (first last : Z)
    : outcome (list span) :=
  parse_len_prefix_seq_loop (Z.to_nat (last - first)) mem first last [].

End Legacy.

(** ** Printing a hash ([main.cpp]) *)

(** A digit of the presentation [x] of fmt: ['0'] to ['9'], then ['a'] to
    ['f']. *)
Definition hex_digit (n : Z) : Ascii.ascii :=
  if n <? 10 then Ascii.ascii_of_nat (Z.to_nat (48 + n))
  else Ascii.ascii_of_nat (Z.to_nat (87 + n)).

(** [fmt::format("{:02x}", b)] for a [uint8_t]: two digits, the high one
    first, with a zero in front of a value below 16. *)
Definition format_02x (b : byte) : String.string :=
  String.String (hex_digit (byte_val b / 16))
    (String.String (hex_digit (byte_val b mod 16)) String.EmptyString).

(** [hexstr(p, size)]: [out.append(...)] for each byte in turn. *)
Definition hexstr (p : list byte) : String.string :=
  fold_left (fun out b => String.append out (format_02x b)) p
    String.EmptyString.

(** * Layouts, predicates and inputs used by the statements *)

(** ** The wire layout

    The repository only decodes.  The encoders below write the layout that
    sections 4.6 and 6 of the spec give for each entity; [trailer] stands
    for the bytes that follow the attribute sequence inside a SignedData,
    of which the layout of the spec has none ([[]]). *)

(** Modelled from the spec: the little-endian encoder (the repository only
    decodes), an unsigned integer of [w] bytes, least significant byte
    first. *)
Fixpoint le_bytes (w : nat) (n : Z) : list byte :=
  match w with
  | O => []
  | S w' => byte_of_Z n :: le_bytes w' (n / 256)
  end.

(** Modelled from the spec: a length-prefixed record, [u32] length and
    that many bytes. *)
Definition len_prefixed (bs : list byte) : list byte :=
  le_bytes 4 (Z.of_nat (length bs)) ++ bs.

(** Modelled from the spec: a sequence of length-prefixed records, back to
    back. *)
Definition encode_seq {T} (enc : T -> list byte) (xs : list T) : list byte :=
  flat_map (fun x => len_prefixed (enc x)) xs.

(** Modelled from the spec: the encoder of Digest, [u32] algorithm id,
    then [u32] length and that many bytes. *)
Definition encode_digest (d : digest) : list byte :=
  le_bytes 4 (digest_sig_algo_id d) ++ len_prefixed (digest_data d).

(** Modelled from the spec: the encoder of Certificate, the raw bytes of
    the record. *)
Definition encode_certificate (c : certificate) : list byte := c.

(** Modelled from the spec: the encoder of AdditionalAttribute, [u32] id,
    then [u32] length and that many bytes. *)
Definition encode_add_attr (a : add_attr) : list byte :=
  le_bytes 4 (add_attr_id a) ++ len_prefixed (add_attr_value a).

(** Modelled from the spec: the encoder of Signature, [u32] algorithm id,
    then [u32] length and that many bytes. *)
Definition encode_signature (sg : signature) : list byte :=
  le_bytes 4 (signature_sig_algo_id sg) ++ len_prefixed (signature_data sg).

(** Modelled from the spec: the encoder of SignedData, the length and the
    sequence of the digests, of the certificates and of the attributes;
    then [trailer]. *)
Definition encode_v2_signed_data (trailer : list byte) (sd : v2_signed_data)
    : list byte :=
  len_prefixed (encode_seq encode_digest (digests sd))
  ++ len_prefixed (encode_seq encode_certificate (certificates sd))
  ++ len_prefixed (encode_seq encode_add_attr (add_attrs sd))
  ++ trailer.

(** Modelled from the spec: the encoder of Signer, the length and the
    bytes of the SignedData, the length and the sequence of the signatures,
    the length and the bytes of the public key. *)
Definition encode_v2_signer (trailer : list byte) (sg : v2_signer)
    : list byte :=
  len_prefixed (encode_v2_signed_data trailer (signed_data sg))
  ++ len_prefixed (encode_seq encode_signature (signatures sg))
  ++ len_prefixed (signer_public_key sg).

(** Modelled from the spec: the encoder of V2Block, a sequence of
    Signer. *)
Definition encode_v2_block (trailer : list byte) (b : v2_block) : list byte :=
  encode_seq (encode_v2_signer trailer) (signers b).

(** Modelled from the spec: an id/value pair of the signing block, [u64]
    length, [u32] id, value. *)
Definition encode_pair (pair_len id : Z) (value : list byte) : list byte :=
  le_bytes 8 pair_len ++ le_bytes 4 id ++ value.

(** Modelled from the spec: an archive around a pair region, that is [pre]
    (the entries), the pairs, the size of the block, the magic, the central
    directory [cdir], and the end-of-central-directory record: its magic,
    twelve bytes of [fields], the offset of the central directory, and
    [comment] (the length of the comment and the comment). *)
Definition archive (pre pairs cdir fields comment : list byte) : list byte :=
  pre ++ pairs
  ++ le_bytes 8 (Z.of_nat (length pairs) + 24)
  ++ apk_magic
  ++ cdir
  ++ eocd_magic ++ fields
  ++ le_bytes 4 (Z.of_nat (length pre) + Z.of_nat (length pairs) + 24)
  ++ comment.

(** The smallest archive around a pair region. *)
Definition apk_file (pairs : list byte) : list byte :=
  archive [] pairs [] (repeat x00 12) [x00; x00].

(** ** Well-formed values *)

Definition is_u32 (z : Z) : bool := (0 <=? z) && (z <? 2 ^ 32).

Definition ids_of_signed_data_ok (sd : v2_signed_data) : bool :=
  forallb (fun d => is_u32 (digest_sig_algo_id d)) (digests sd)
  && forallb (fun a => is_u32 (add_attr_id a)) (add_attrs sd).

Definition ids_of_signer_ok (sg : v2_signer) : bool :=
  ids_of_signed_data_ok (signed_data sg)
  && forallb (fun s => is_u32 (signature_sig_algo_id s)) (signatures sg).

Definition ids_of_block_ok (b : v2_block) : bool :=
  forallb ids_of_signer_ok (signers b).

(** ** Reading a layout

    [decodes m bs a]: wherever the bytes [bs] stand in a good stream, [m]
    started at their first byte yields [a] and leaves the stream just
    behind their last byte, having read nothing else. *)
Definition decodes {A} (m : M istream A) (bs : list byte) (a : A) : Prop :=
  forall pre rest : list byte,
    m (mk_istream (pre ++ bs ++ rest) (Z.of_nat (length pre)) false) =
    (Ok a,
     mk_istream (pre ++ bs ++ rest)
       (Z.of_nat (length pre) + Z.of_nat (length bs)) false).

(** ** The walk as the spec words it *)


(** [m] started in [s] throws. *)
Definition raises {S A} (m : M S A) (s : S) : Prop :=
  exists e, fst (m s) = Throw e.

(** ** Objects and their history of calls *)

(** An object on which no call of [parse] has succeeded yet. *)
Inductive never_parsed (heap : allocator) : siginfo -> Prop :=
| never_parsed_new (file : list byte) : never_parsed heap (new_siginfo file)
| never_parsed_failed (fuel : nat) (si si' : siginfo) (e : exn) :
    never_parsed heap si ->
    parse heap fuel si = (Throw e, si') ->
    never_parsed heap si'.

(** An object on which every call of [parse] so far has thrown a
    [parse_error]. *)
Inductive only_parse_errors (heap : allocator) : siginfo -> Prop :=
| only_parse_errors_new (file : list byte) :
    only_parse_errors heap (new_siginfo file)
| only_parse_errors_failed (fuel : nat) (si si' : siginfo) (e : exn) :
    only_parse_errors heap si ->
    parse heap fuel si = (Throw e, si') ->
    is_parse_error e = true ->
    only_parse_errors heap si'.

(** ** The turns of the walk *)

(** The [u32] that stands at the position [p] of [file]. *)
Definition u32_at (file : list byte) (p : Z) : Z :=
  le_to_host 4 (firstn 4 (skipn (Z.to_nat p) file)).

(** The block that the turn of the walk at [i] stores, on a good stream
    over [file]: when the twelve bytes of a pair header and a [u32] stand
    at [i] and the id is the v2 id, the block that the v2 block decoder
    returns, in full, when it is started behind that [u32] with that [u32]
    as its budget; no block otherwise, nor when the decoder does not
    return. *)
Definition block_of_turn (heap : allocator) (fuel : nat) (file : list byte)
    (i : Z) : option v2_block :=
  if (0 <=? i) && (i + 16 <=? Z.of_nat (length file))
     && (u32_at file (i + 8) =? v2_id)
  then
    match parse_v2_block heap fuel (u32_at file (i + 12))
            (mk_istream file (i + 16) false) with
    | (Ok b, _) => Some b
    | _ => None
    end
  else None.

(** The turns that the walk takes from the position [i] on: the fuel and
    the position of each, in their order.  The turn that throws is the
    last. *)
Fixpoint walk_turns (heap : allocator) (fuel : nat) (bound i : Z)
    (si : siginfo) : list (nat * Z) :=
  if i <? bound then
    match fuel with
    | O => []
    | S fuel' =>
        (fuel, i)
        :: match walk_pair heap fuel i si with
           | (Ok i', si') => walk_turns heap fuel' bound i' si'
           | _ => []
           end
    end
  else [].

(** The statements of [parse] that come before the walk: they yield the
    bound and the first position of the walk. *)
Definition locate : M siginfo (Z * Z) :=
  eocd_magic_pos <- on_ifs (reverse_find_bytes eocd_magic (-1)) ;;
  if eocd_magic_pos =? -1 then throw not_a_zip_file
  else
    let offset_of_start_of_cd_pos := eocd_magic_pos + 16 in
    on_ifs (seekg offset_of_start_of_cd_pos) ;;
    offset_of_start_of_cd <- on_ifs (read_le 4) ;;
    on_ifs (seekg offset_of_start_of_cd) ;;
    start_of_cd_pos <- on_ifs tellg ;;
    let apk_sig_magic_pos := start_of_cd_pos - 16 in
    on_ifs (seekg apk_sig_magic_pos) ;;
    magic <- on_ifs (read_into_array 16) ;;
    if negb (bytes_eqb magic apk_magic) then throw magic_not_found
    else
      let apk_sig_size_of_block_pos := apk_sig_magic_pos - 8 in
      on_ifs (seekg apk_sig_size_of_block_pos) ;;
      apk_sig_size_of_block <- on_ifs (read_le 8) ;;
      let apk_sig_id_val_pairs_pos :=
        to_streamoff (start_of_cd_pos - to_streamoff apk_sig_size_of_block) in
      ret (apk_sig_size_of_block_pos, apk_sig_id_val_pairs_pos).

(** The turns of the walk of a call of [parse]; none when the call ends
    before the walk. *)
Definition turns_of_parse (heap : allocator) (fuel : nat) (si : siginfo)
    : list (nat * Z) :=
  match locate si with
  | (Ok (bound, start), si0) => walk_turns heap fuel bound start si0
  | _ => []
  end.

(** ** What the operations leave untouched *)

(** An operation of the stream: it keeps the content, throws no
    [parse_error] and sets failbit only when it throws. *)
Definition stream_op {A} (m : M istream A) : Prop :=
  forall (s s' : istream) (r : outcome A),
    m s = (r, s') ->
    content s' = content s
    /\ (forall e, r = Throw e -> is_parse_error e = false)
    /\ (forall a, r = Ok a -> failbit s' = failbit s).

(** The members of the object other than the position of the stream. *)
Definition same_fields (si si' : siginfo) : Prop :=
  content (ifs_ si') = content (ifs_ si)
  /\ v2_block_pos_ si' = v2_block_pos_ si
  /\ v3_block_pos_ si' = v3_block_pos_ si
  /\ v3_1_block_pos_ si' = v3_1_block_pos_ si
  /\ v2_block_ si' = v2_block_ si.

(** An operation of the object that changes nothing but the stream
    position and throws no [parse_error]. *)
Definition field_preserving {A} (m : M siginfo A) : Prop :=
  forall (si si' : siginfo) (r : outcome A),
    m si = (r, si') ->
    same_fields si si'
    /\ (forall e, r = Throw e -> is_parse_error e = false).

(** An operation of the object that changes nothing but the stream
    position, and leaves failbit as it was when it returns. *)
Definition keeps_members {A} (m : M siginfo A) : Prop :=
  forall (si si' : siginfo) (r : outcome A),
    m si = (r, si') ->
    same_fields si si'
    /\ (forall a, r = Ok a -> failbit (ifs_ si') = failbit (ifs_ si)).

(** An operation of the walk: it may record positions and store a block;
    it keeps the content of the stream and throws no [parse_error]. *)
Definition walk_op {A} (m : M siginfo A) : Prop :=
  forall (si si' : siginfo) (r : outcome A),
    m si = (r, si') ->
    content (ifs_ si') = content (ifs_ si)
    /\ (forall e, r = Throw e -> is_parse_error e = false).

(** An operation of the locator: as the walk, except that it may throw a
    [parse_error], and then has changed no member. *)
Definition locator_op {A} (m : M siginfo A) : Prop :=
  forall (si si' : siginfo) (r : outcome A),
    m si = (r, si') ->
    content (ifs_ si') = content (ifs_ si)
    /\ (forall e, r = Throw e -> is_parse_error e = true ->
        same_fields si si').

(** ** Inputs *)

Definition no_signed_data : v2_signed_data := mk_v2_signed_data [] [] [].

Definition bare_signer : v2_signer := mk_v2_signer no_signed_data [] [].

Definition one_signer_block : v2_block := mk_v2_block [bare_signer].

Definition sample_block : v2_block :=
  mk_v2_block
    [mk_v2_signer
       (mk_v2_signed_data
          [mk_digest 0x0103 [x11; x12; x13]; mk_digest 0x0104 [x21]]
          [[x30; x82; x01]]
          [])
       [mk_signature 0x0103 [xaa; xbb]]
       [xc0; xc1; xc2; xc3]].

Definition zero_trailer : list byte := [x00; x00; x00; x00].

(** A v2 pair as the decoder reads it: the value is the signer sequence
    behind its own [u32] length. *)
Definition encode_v2_pair (trailer : list byte) (b : v2_block) : list byte :=
  encode_pair (Z.of_nat (length (encode_v2_block trailer b)) + 8) v2_id
    (len_prefixed (encode_v2_block trailer b)).

(** One v2 pair with no signer. *)
Definition empty_v2_file : list byte :=
  apk_file (encode_v2_pair zero_trailer (mk_v2_block [])).

(** One v2 pair with one signer. *)
Definition one_signer_file : list byte :=
  apk_file (encode_v2_pair zero_trailer one_signer_block).

(** One v2 pair whose sequence length ([1]) is less than its only signer
    takes. *)
Definition overrun_v2_file : list byte :=
  apk_file
    (encode_pair 40 v2_id
       (le_bytes 4 1 ++ encode_v2_block zero_trailer one_signer_block)).

(** One v2 pair with one signer; the length of the pair is
    [0xFFFFFFFFFFFFFFF7], so that the walk steps back by one byte. *)
Definition backward_pair_file : list byte :=
  apk_file
    (encode_pair (2 ^ 64 - 9) v2_id
       (len_prefixed (encode_v2_block zero_trailer one_signer_block))).

(** One v2 pair with no signer, in an archive whose
    end-of-central-directory record ends with a comment of [n] bytes behind
    the two bytes of its length: a record of [22 + n] bytes. *)
Definition commented_v2_file (n : nat) : list byte :=
  archive [] (encode_pair 8 v2_id (le_bytes 4 0)) [] (repeat x00 12)
    (le_bytes 2 (Z.of_nat n) ++ repeat x2e n).

(** One pair with an id that is none of the three. *)
Definition unknown_pair_file : list byte :=
  apk_file (encode_pair 8 0x42726563 [x01; x02; x03; x04]).

(** No end-of-central-directory record at all. *)
Definition not_a_zip : list byte := [x00; x01; x02].

(** The pattern [AB] at position 0 of 4097 bytes: its first byte is the
    only byte of the second window. *)
Definition straddle_file : list byte := [x41; x42] ++ repeat x00 4095.

(** A certificate record of [0xFFFFFFFC] bytes, then one of four bytes. *)
Definition huge_certificate : certificate :=
  repeat x00 (Z.to_nat 4294967292).

Definition huge_record_stream : list byte :=
  le_bytes 4 4294967292 ++ huge_certificate
  ++ le_bytes 4 4 ++ [x01; x02; x03; x04].

(** The bytes that a list of spans accounts for: [4 + len] each. *)
Definition spans_total (spans : list Legacy.span) : Z :=
  fold_right (fun s acc => 4 + Legacy.len s + acc) 0 spans.

(** * Values, layouts and predicates used by the further properties *)

(** ** The value of little-endian bytes *)

(** The number that the bytes [bs] write, least significant byte first. *)
Fixpoint le_value (bs : list byte) : Z :=
  match bs with
  | [] => 0
  | b :: bs' => byte_val b + 256 * le_value bs'
  end.

(** ** The scanner's view of the stream *)

(** The position at which a scan starts: the end of the stream when
    [start] is the default [-1]. *)
Definition scan_start (start : Z) (file : list byte) : Z :=
  if start =? -1 then Z.of_nat (length file) else start.

(** The bytes that a scan of the first [n] bytes of [file] compares the
    pattern with: these bytes, then the zeros that the first carry buffer
    holds. *)
Definition scanned_bytes (pat file : list byte) (n : Z) : list byte :=
  firstn (Z.to_nat n) file ++ repeat x00 (length pat - 1).

(** [j] is a position that the inner loop tests in a scan of the first [n]
    bytes: any position below [n] other than the last position of a
    window, the windows being counted from [n] downwards. *)
Definition tested (pat : list byte) (n j : Z) : bool :=
  (0 <=? j) && (j <? n)
  && negb ((n - 1 - j)
           mod Z.max default_window_size (Z.of_nat (length pat)) =? 0).

(** The pattern stands somewhere in the bytes. *)
Definition occurs (pat bytes : list byte) : bool :=
  existsb (equal_at pat bytes) (seq 0 (length bytes)).

(** The pattern stands in the bytes at a position other than [k]. *)
Definition occurs_elsewhere (pat bytes : list byte) (k : nat) : bool :=
  existsb (fun j => negb (j =? k)%nat && equal_at pat bytes j)
    (seq 0 (length bytes)).

(** ** Sequences whose records declare lengths of their own *)

(** The bytes of a sequence in which each record declares the length
    [fst r], whatever the bytes of the record [snd r] take: the layout of
    [encode_seq] with the length fields set free. *)
Definition encode_declared {T} (enc : T -> list byte) (rs : list (Z * T))
    : list byte :=
  flat_map (fun r => le_bytes 4 (fst r) ++ enc (snd r)) rs.

(** What the declared lengths add up to, with the four bytes of each
    length field. *)
Definition declared_total {T} (rs : list (Z * T)) : Z :=
  fold_right (fun r acc => 4 + fst r + acc) 0 rs.

(** ** What a decoder does to the stream *)

(** The bytes left behind the get position. *)
Definition bytes_left (s : istream) : Z := Z.max 0 (size s - gpos s).

(** A decoder: it keeps the content; when it returns, it has moved the get
    position forward or not at all and left failbit as it was; it throws
    nothing but [std::ios_base::failure], with failbit set, and
    [std::bad_alloc] and "Incomplete sequence", with failbit as it was; and
    its loops run out of fuel only on a stream with at least [bound] bytes
    left. *)
Definition decoder_op {A} (bound : Z) (m : M istream A) : Prop :=
  forall (s s' : istream) (r : outcome A),
    m s = (r, s') ->
    content s' = content s
    /\ match r with
       | Ok _ => failbit s' = failbit s /\ gpos s <= gpos s'
       | Throw e =>
           (e = ios_failure /\ failbit s' = true)
           \/ ((e = bad_alloc \/ e = incomplete_sequence)
               /\ failbit s' = failbit s)
       | OutOfFuel => bound <= bytes_left s
       end.

(** An operation that sets failbit exactly when it throws
    [std::ios_base::failure]: failbit is set behind that exception, and as
    it was behind any other outcome. *)
Definition failbit_op {S A} (stream : S -> istream) (m : M S A) : Prop :=
  forall (s s' : S) (r : outcome A),
    m s = (r, s') ->
    match r with
    | Throw ios_failure => failbit (stream s') = true
    | _ => failbit (stream s') = failbit (stream s)
    end.

(** ** Archives and their signing blocks *)

(** Modelled from the spec: the end-of-central-directory record as
    [archive] lays it out, that is the magic, twelve bytes of [fields], the
    offset [off] of the central directory, and [comment] (the length of the
    comment and the comment). *)
Definition eocd_record (fields comment : list byte) (off : Z) : list byte :=
  eocd_magic ++ fields ++ le_bytes 4 off ++ comment.

(** A record at whose first byte the scanner finds the magic when the
    record ends the file: twelve bytes of fields, a [u32] offset, at most
    4096 bytes in all, and the magic at no other place of the record, the
    three zeros of the first carry buffer included. *)
Definition record_found (fields comment : list byte) (off : Z) : bool :=
  (length fields =? 12)%nat
  && is_u32 off
  && (length (eocd_record fields comment off) <=? 4096)%nat
  && forallb
       (fun k =>
          negb (equal_at eocd_magic
                  (eocd_record fields comment off ++ repeat x00 3) k))
       (seq 1 (length (eocd_record fields comment off) + 2)).

(** An id/value pair of the signing block as the walk takes it: a v2 pair
    with the block of its value, or a pair with another id and any
    value. *)
Inductive pair_entry : Type :=
| v2_entry (b : v2_block)
| other_entry (id : Z) (value : list byte).

(** Modelled from the spec: the layout of a pair.  For a v2 pair, the
    layout that [encode_v2_pair] gives; for another pair, the length
    [4 + length value], the id and the value. *)
Definition encode_entry (trailer : list byte) (e : pair_entry) : list byte :=
  match e with
  | v2_entry b => encode_v2_pair trailer b
  | other_entry id value =>
      encode_pair (4 + Z.of_nat (length value)) id value
  end.

(** Modelled from the spec: the pair region of a signing block, its pairs
    back to back. *)
Definition encode_entries (trailer : list byte) (es : list pair_entry)
    : list byte :=
  flat_map (encode_entry trailer) es.

(** A well-formed pair: a v2 pair holds a well-formed block of less than
    [2^32] bytes; another pair has a [u32] id that is not the v2 id. *)
Definition entry_ok (trailer : list byte) (e : pair_entry) : bool :=
  match e with
  | v2_entry b =>
      ids_of_block_ok b
      && (Z.of_nat (length (encode_v2_block trailer b)) <? 2 ^ 32)
  | other_entry id value => is_u32 id && negb (id =? v2_id)
  end.

Definition is_v2_entry (e : pair_entry) : bool :=
  match e with
  | v2_entry _ => true
  | other_entry _ _ => false
  end.

(** The pair is not a v2 pair and has the id [id]. *)
Definition has_id (id : Z) (e : pair_entry) : bool :=
  match e with
  | v2_entry _ => false
  | other_entry id' _ => id' =? id
  end.

(** The block of the last v2 pair, [b] when there is none. *)
Definition last_v2_block (es : list pair_entry) (b : v2_block) : v2_block :=
  fold_left
    (fun acc e => match e with v2_entry b' => b' | other_entry _ _ => acc end)
    es b.

(** ** The spans of the earlier splitter *)

(** The spans lie back to back from [first] to [last], each behind the
    four bytes of its length field. *)
Fixpoint spans_tile (first last : Z) (spans : list Legacy.span) : Prop :=
  match spans with
  | [] => first = last
  | s :: spans' =>
      Legacy.data s = first + 4
      /\ 0 <= Legacy.len s
      /\ spans_tile (Legacy.data s + Legacy.len s) last spans'
  end.

(** The bytes of a span, from [begin()] to [end()]. *)
Definition span_bytes (mem : list byte) (s : Legacy.span) : list byte :=
  firstn (Z.to_nat (Legacy.len s)) (skipn (Z.to_nat (Legacy.data s)) mem).

(** ** Two runs of an operation of the object *)

(** [t1] and [t2] are what an operation has made of [si1] and [si2]: each
    of the four members is the same in both, or is in each what it was
    before. *)
Definition members_follow (si1 si2 t1 t2 : siginfo) : Prop :=
  (v2_block_pos_ t1 = v2_block_pos_ t2
   \/ (v2_block_pos_ t1 = v2_block_pos_ si1
       /\ v2_block_pos_ t2 = v2_block_pos_ si2))
  /\ (v3_block_pos_ t1 = v3_block_pos_ t2
      \/ (v3_block_pos_ t1 = v3_block_pos_ si1
          /\ v3_block_pos_ t2 = v3_block_pos_ si2))
  /\ (v3_1_block_pos_ t1 = v3_1_block_pos_ t2
      \/ (v3_1_block_pos_ t1 = v3_1_block_pos_ si1
          /\ v3_1_block_pos_ t2 = v3_1_block_pos_ si2))
  /\ (v2_block_ t1 = v2_block_ t2
      \/ (v2_block_ t1 = v2_block_ si1 /\ v2_block_ t2 = v2_block_ si2)).

(** An operation of the object whose course depends on the stream alone:
    on two objects with the same stream it has the same outcome and leaves
    the same stream, and it never reads a member. *)
Definition stream_driven {A} (m : M siginfo A) : Prop :=
  forall si1 si2 : siginfo,
    ifs_ si1 = ifs_ si2 ->
    fst (m si1) = fst (m si2)
    /\ ifs_ (snd (m si1)) = ifs_ (snd (m si2))
    /\ members_follow si1 si2 (snd (m si1)) (snd (m si2)).

(** ** Further inputs *)

(** An allocator that grants no request of more than [2^16] bytes. *)
Definition small_heap : allocator := fun n => n <=? 2 ^ 16.

(** The head of a v2 block value, up to the data of its first Digest: the
    lengths of the signer, of its SignedData, of the digest sequence and of
    the Digest record, the algorithm id, and a length of [0xFFFFFFFF] bytes
    for the data, of which the stream holds none. *)
Definition greedy_digest_stream : list byte :=
  le_bytes 4 20 ++ le_bytes 4 16 ++ le_bytes 4 12 ++ le_bytes 4 8
  ++ le_bytes 4 0x0103 ++ le_bytes 4 (2 ^ 32 - 1).

(** A signing block with three pairs: an unknown id, a v2 pair with the
    sample block, and a v3 pair. *)
Definition three_pair_entries : list pair_entry :=
  [other_entry 0x42726563 [x01; x02; x03; x04];
   v2_entry sample_block;
   other_entry v3_id [x05; x06]].

(** An archive whose only pair has the length [0xFFFFFFFFFFFFFFF8] and an
    id that is none of the three. *)
Definition stationary_pair_file : list byte :=
  apk_file (encode_pair (2 ^ 64 - 8) 0x42726563 [x01; x02; x03; x04]).

(** A zip archive with no signing block: sixteen bytes of an entry, then
    the end-of-central-directory record with the offset 16. *)
Definition unsigned_zip : list byte :=
  repeat x2e 16 ++ eocd_record (repeat x00 12) [x00; x00] 16.

(** The empty zip archive: the end-of-central-directory record alone. *)
Definition empty_zip : list byte :=
  eocd_record (repeat x00 12) [x00; x00] 0.

(** An end-of-central-directory record of 4097 bytes: its comment field
    takes 4077 bytes, the two of its length and 4075 of comment. *)
Definition long_comment_zip : list byte :=
  eocd_record (repeat x00 12) ([xeb; x0f] ++ repeat x2e 4075) 0.

(** An archive whose signing block declares the size 0 and holds one
    pair. *)
Definition zero_size_file : list byte :=
  [xee] ++ encode_pair 8 v3_id [x01; x02; x03; x04]
  ++ le_bytes 8 0 ++ apk_magic ++ [x50; x4b; x01; x02]
  ++ eocd_record (repeat x00 12) [x00; x00] 41.

(** An archive whose only pair, with the v3 id, declares a length of
    [2^40] bytes. *)
Definition long_pair_file : list byte :=
  apk_file (encode_pair (2 ^ 40) v3_id [x01; x02; x03; x04]).

(** * Properties *)

(** ** The little-endian codec *)

Lemma byte_val_range (b : byte) : 0 <= byte_val b < 256.
Proof.
  unfold byte_val. pose proof (Byte.to_N_bounded b). lia.
Qed.

Lemma byte_val_of_Z (z : Z) : byte_val (byte_of_Z z) = z mod 256.
Proof.
  unfold byte_val, byte_of_Z.
  assert (Hr : 0 <= z mod 256 < 256) by (apply Z.mod_pos_bound; lia).
  destruct (Byte.of_N (Z.to_N (z mod 256))) as [b|] eqn:E.
  - apply Byte.to_of_N in E. rewrite E. lia.
  - apply Byte.of_N_None_iff in E. lia.
Qed.

Lemma byte_of_Z_val (b : byte) : byte_of_Z (byte_val b) = b.
Proof.
  unfold byte_of_Z, byte_val.
  pose proof (Byte.to_N_bounded b).
  rewrite Z.mod_small by lia.
  rewrite N2Z.id, Byte.of_to_N. reflexivity.
Qed.

Lemma lor_shiftl_add (v b k : Z) :
  0 <= k -> 0 <= v < 2 ^ k -> Z.lor v (Z.shiftl b k) = v + b * 2 ^ k.
Proof.
  intros Hk Hv.
  rewrite <- Z.add_lor_land, Z.shiftl_mul_pow2 by lia.
  enough (Z.land v (b * 2 ^ k) = 0) by lia.
  apply Z.bits_inj'. intros n Hn.
  rewrite Z.land_spec, Z.bits_0.
  destruct (Z.ltb_spec n k).
  - rewrite Z.mul_pow2_bits_low by lia. apply andb_false_r.
  - rewrite <- (Z.mod_small v (2 ^ k)) by lia.
    rewrite Z.mod_pow2_bits_high by lia. reflexivity.
Qed.

Lemma le_bytes_length (w : nat) (n : Z) : length (le_bytes w n) = w.
Proof.
  revert n. induction w; intros; simpl; [reflexivity | now rewrite IHw].
Qed.

Lemma le_to_host_4 (b0 b1 b2 b3 : byte) :
  le_to_host 4 [b0; b1; b2; b3] =
  byte_val b0 + 2 ^ 8 * byte_val b1 + 2 ^ 16 * byte_val b2
  + 2 ^ 24 * byte_val b3.
Proof.
  pose proof (byte_val_range b0). pose proof (byte_val_range b1).
  pose proof (byte_val_range b2). pose proof (byte_val_range b3).
  unfold le_to_host, wrap. cbn [seq fold_left nth].
  change (8 * Z.of_nat 4) with 32.
  change (8 * Z.of_nat 0) with 0. change (8 * Z.of_nat 1) with 8.
  change (8 * Z.of_nat 2) with 16. change (8 * Z.of_nat 3) with 24.
  rewrite !Z.shiftl_mul_pow2 by lia.
  rewrite !Z.mod_small by lia.
  rewrite Z.lor_0_l.
  rewrite <- !Z.shiftl_mul_pow2 by lia.
  rewrite Z.shiftl_0_r.
  repeat match goal with
    | |- context [Z.lor ?v (Z.shiftl ?b ?k)] =>
        rewrite (lor_shiftl_add v b k) by lia
    end.
  lia.
Qed.

Lemma le_to_host_8 (b0 b1 b2 b3 b4 b5 b6 b7 : byte) :
  le_to_host 8 [b0; b1; b2; b3; b4; b5; b6; b7] =
  byte_val b0 + 2 ^ 8 * byte_val b1 + 2 ^ 16 * byte_val b2
  + 2 ^ 24 * byte_val b3 + 2 ^ 32 * byte_val b4 + 2 ^ 40 * byte_val b5
  + 2 ^ 48 * byte_val b6 + 2 ^ 56 * byte_val b7.
Proof.
  pose proof (byte_val_range b0). pose proof (byte_val_range b1).
  pose proof (byte_val_range b2). pose proof (byte_val_range b3).
  pose proof (byte_val_range b4). pose proof (byte_val_range b5).
  pose proof (byte_val_range b6). pose proof (byte_val_range b7).
  unfold le_to_host, wrap. cbn [seq fold_left nth].
  change (8 * Z.of_nat 8) with 64.
  change (8 * Z.of_nat 0) with 0. change (8 * Z.of_nat 1) with 8.
  change (8 * Z.of_nat 2) with 16. change (8 * Z.of_nat 3) with 24.
  change (8 * Z.of_nat 4) with 32. change (8 * Z.of_nat 5) with 40.
  change (8 * Z.of_nat 6) with 48. change (8 * Z.of_nat 7) with 56.
  rewrite !Z.shiftl_mul_pow2 by lia.
  rewrite !Z.mod_small by lia.
  rewrite Z.lor_0_l.
  rewrite <- !Z.shiftl_mul_pow2 by lia.
  rewrite Z.shiftl_0_r.
  repeat match goal with
    | |- context [Z.lor ?v (Z.shiftl ?b ?k)] =>
        rewrite (lor_shiftl_add v b k) by lia
    end.
  lia.
Qed.

Lemma le_to_host_le_bytes_4 (n : Z) :
  0 <= n < 2 ^ 32 -> le_to_host 4 (le_bytes 4 n) = n.
Proof.
  intros Hn. cbn [le_bytes]. rewrite le_to_host_4, !byte_val_of_Z.
  Z.div_mod_to_equations. lia.
Qed.

Lemma le_to_host_le_bytes_8 (n : Z) :
  0 <= n < 2 ^ 64 -> le_to_host 8 (le_bytes 8 n) = n.
Proof.
  intros Hn. cbn [le_bytes]. rewrite le_to_host_8, !byte_val_of_Z.
  Z.div_mod_to_equations. lia.
Qed.

Lemma le_to_host_4_range (p : list byte) :
  length p = 4%nat -> 0 <= le_to_host 4 p < 2 ^ 32.
Proof.
  intros Hl.
  destruct p as [|b0 [|b1 [|b2 [|b3 [|]]]]]; try discriminate.
  rewrite le_to_host_4.
  pose proof (byte_val_range b0). pose proof (byte_val_range b1).
  pose proof (byte_val_range b2). pose proof (byte_val_range b3). lia.
Qed.

(** ** The stream and the monad *)

Lemma bind_inv {S A B} (m : M S A) (k : A -> M S B) (s s' : S)
    (r : outcome B) :
  bind m k s = (r, s') ->
  (exists a s1, m s = (Ok a, s1) /\ k a s1 = (r, s'))
  \/ (exists e, m s = (Throw e, s') /\ r = Throw e)
  \/ (m s = (OutOfFuel, s') /\ r = OutOfFuel).
Proof.
  unfold bind. destruct (m s) as [[a|e|] s1]; intros H.
  - left. eauto.
  - right. left. inversion H; subst. eauto.
  - right. right. inversion H; subst. eauto.
Qed.

Lemma bind_ok {S A B} (m : M S A) (k : A -> M S B) (s s1 : S) (a : A) :
  m s = (Ok a, s1) -> bind m k s = k a s1.
Proof. unfold bind. intros ->. reflexivity. Qed.

Lemma len_prefixed_length (bs : list byte) :
  length (len_prefixed bs) = (4 + length bs)%nat.
Proof. unfold len_prefixed. now rewrite length_app, le_bytes_length. Qed.

Lemma skipn_length_app {A} (l1 l2 : list A) :
  skipn (length l1) (l1 ++ l2) = l2.
Proof.
  rewrite skipn_app, skipn_all, Nat.sub_diag. reflexivity.
Qed.

Lemma firstn_length_app {A} (l1 l2 : list A) :
  firstn (length l1) (l1 ++ l2) = l1.
Proof.
  rewrite firstn_app, firstn_all, Nat.sub_diag, firstn_O. apply app_nil_r.
Qed.

(** Reading the bytes that stand at the get position. *)
Lemma read_at (pre bs rest : list byte) :
  read (Z.of_nat (length bs))
    (mk_istream (pre ++ bs ++ rest) (Z.of_nat (length pre)) false) =
  (Ok bs,
   mk_istream (pre ++ bs ++ rest)
     (Z.of_nat (length pre) + Z.of_nat (length bs)) false).
Proof.
  unfold read, sentry, size, set_gpos. cbn [failbit content gpos].
  rewrite !length_app.
  destruct (Z.leb_spec (Z.of_nat (length bs))
              (Z.max 0 (Z.of_nat (length pre + (length bs + length rest))
                        - Z.of_nat (length pre)))); [|lia].
  rewrite !Nat2Z.id, skipn_length_app, firstn_length_app. reflexivity.
Qed.

Lemma seekg_at (c : list byte) (p p' : Z) :
  0 <= p' ->
  seekg p' (mk_istream c p false) = (Ok tt, mk_istream c p' false).
Proof.
  intros Hp. unfold seekg, sentry, set_gpos. cbn [failbit content gpos].
  destruct (Z.ltb_spec p' 0); [lia | reflexivity].
Qed.

Lemma tellg_at (c : list byte) (p : Z) :
  tellg (mk_istream c p false) = (Ok p, mk_istream c p false).
Proof. reflexivity. Qed.

Lemma read_within (s : istream) (n : Z) :
  failbit s = false -> 0 <= n -> gpos s + n <= size s \/ n = 0 ->
  read n s =
  (Ok (firstn (Z.to_nat n) (skipn (Z.to_nat (gpos s)) (content s))),
   set_gpos (gpos s + n) s).
Proof.
  intros Hgood Hn Hfit. unfold read, sentry. rewrite Hgood.
  destruct (Z.leb_spec n (Z.max 0 (size s - gpos s))); [reflexivity | lia].
Qed.

Lemma read_beyond (s : istream) (n : Z) :
  failbit s = false -> 0 < n -> size s < gpos s + n ->
  read n s = (Throw ios_failure, mk_istream (content s) (gpos s) true).
Proof.
  intros Hgood Hn Hfit. unfold read, sentry. rewrite Hgood.
  destruct (Z.leb_spec n (Z.max 0 (size s - gpos s))); [lia | reflexivity].
Qed.

Lemma seekg_negative (c : list byte) (p p' : Z) :
  p' < 0 ->
  seekg p' (mk_istream c p false) =
  (Throw ios_failure, mk_istream c p true).
Proof.
  intros Hp. unfold seekg, sentry, set_failbit. cbn [failbit content gpos].
  destruct (Z.ltb_spec p' 0); [reflexivity | lia].
Qed.

(** [read_le] on a good stream, at a position that is not negative. *)
Lemma read_le_at (w : nat) (c : list byte) (p : Z) :
  0 <= p -> p + Z.of_nat w <= Z.of_nat (length c) ->
  read_le w (mk_istream c p false) =
  (Ok (le_to_host w (firstn w (skipn (Z.to_nat p) c))),
   mk_istream c (p + Z.of_nat w) false).
Proof.
  intros Hp Hfit. unfold read_le, read_into_array.
  erewrite bind_ok
    by (apply read_within; [reflexivity | lia | left; exact Hfit]).
  cbn [gpos content]. rewrite Nat2Z.id. reflexivity.
Qed.

Lemma read_le_short (w : nat) (c : list byte) (p : Z) :
  (0 < w)%nat -> Z.of_nat (length c) < p + Z.of_nat w ->
  read_le w (mk_istream c p false) =
  (Throw ios_failure, mk_istream c p true).
Proof.
  intros Hw Hfit. unfold read_le, read_into_array, bind.
  rewrite read_beyond by (reflexivity || lia || exact Hfit). reflexivity.
Qed.

(** ** Decoding a layout *)

Lemma decodes_ret {A} (a : A) : decodes (ret a) [] a.
Proof.
  intros pre rest. unfold ret. cbn [length app]. now rewrite Z.add_0_r.
Qed.

Lemma decodes_bind {A B} (m : M istream A) (k : A -> M istream B)
    (bs1 bs2 : list byte) (a : A) (b : B) :
  decodes m bs1 a -> decodes (k a) bs2 b ->
  decodes (bind m k) (bs1 ++ bs2) b.
Proof.
  intros H1 H2 pre rest.
  rewrite <- (app_assoc bs1 bs2 rest).
  rewrite (bind_ok _ _ _ _ _ (H1 pre (bs2 ++ rest))).
  specialize (H2 (pre ++ bs1) rest).
  rewrite <- !app_assoc, !length_app, !Nat2Z.inj_add in *.
  rewrite H2. f_equal. f_equal. lia.
Qed.

Lemma decodes_bind_ret {A B} (m : M istream A) (g : A -> B)
    (bs : list byte) (a : A) :
  decodes m bs a -> decodes (x <- m ;; ret (g x)) bs (g a).
Proof.
  intros H. rewrite <- (app_nil_r bs).
  eapply decodes_bind; [exact H | apply decodes_ret].
Qed.

Lemma decodes_read (bs : list byte) :
  decodes (read (Z.of_nat (length bs))) bs bs.
Proof. intros pre rest. apply read_at. Qed.

Lemma decodes_read_le (w : nat) (bs : list byte) :
  length bs = w -> decodes (read_le w) bs (le_to_host w bs).
Proof.
  intros <-. unfold read_le, read_into_array.
  apply decodes_bind_ret, decodes_read.
Qed.

Lemma decodes_read_le_4 (n : Z) :
  0 <= n < 2 ^ 32 -> decodes (read_le 4) (le_bytes 4 n) n.
Proof.
  intros Hn. rewrite <- (le_to_host_le_bytes_4 n Hn) at 2.
  apply decodes_read_le, le_bytes_length.
Qed.

Lemma decodes_read_le_8 (n : Z) :
  0 <= n < 2 ^ 64 -> decodes (read_le 8) (le_bytes 8 n) n.
Proof.
  intros Hn. rewrite <- (le_to_host_le_bytes_8 n Hn) at 2.
  apply decodes_read_le, le_bytes_length.
Qed.

(** The same, at a position given by a prefix of the content. *)
Lemma decodes_run {A} (m : M istream A) (bs : list byte) (a : A)
    (file pre rest : list byte) (pos : Z) :
  decodes m bs a ->
  file = pre ++ bs ++ rest ->
  pos = Z.of_nat (length pre) ->
  m (mk_istream file pos false) =
  (Ok a, mk_istream file (pos + Z.of_nat (length bs)) false).
Proof. intros H -> ->. apply H. Qed.

(** The same, on a stream that holds nothing else. *)
Lemma decodes_open {A} (m : M istream A) (bs : list byte) (a : A) :
  decodes m bs a ->
  m (open bs) = (Ok a, mk_istream bs (Z.of_nat (length bs)) false).
Proof.
  intros H. specialize (H [] []). rewrite app_nil_r in H. exact H.
Qed.

(** ** The sequence decoder on a well-formed sequence *)

Lemma wrap_4_small (z : Z) : 0 <= z < 2 ^ 32 -> wrap 4 z = z.
Proof. intros H. unfold wrap. apply Z.mod_small. exact H. Qed.

Section SequenceDecoder.

(** The records are of type [T], [enc] lays one out, and [f] is the
    decoder given to [parse_len_prefixed_seq]. *)
Context {T : Type} (enc : T -> list byte) (f : Z -> M istream T).

Lemma encode_seq_cons (x : T) (xs : list T) :
  encode_seq enc (x :: xs) = len_prefixed (enc x) ++ encode_seq enc xs.
Proof. reflexivity. Qed.

Lemma encode_seq_length_cons (x : T) (xs : list T) :
  length (encode_seq enc (x :: xs)) =
  (4 + length (enc x) + length (encode_seq enc xs))%nat.
Proof. now rewrite encode_seq_cons, length_app, len_prefixed_length. Qed.

Lemma encode_seq_count (xs : list T) :
  (length xs <= length (encode_seq enc xs))%nat.
Proof.
  induction xs as [|x xs IH]; [apply Nat.le_refl|].
  rewrite encode_seq_length_cons. cbn [length]. lia.
Qed.

Lemma encode_seq_In_length (x : T) (xs : list T) :
  In x xs -> (4 + length (enc x) <= length (encode_seq enc xs))%nat.
Proof.
  induction xs as [|y xs IH]; [contradiction|].
  rewrite encode_seq_length_cons. intros [-> | Hin]; [lia|].
  specialize (IH Hin). lia.
Qed.

Lemma decodes_seq_loop (seq_len : Z) (todo : list T) :
  forall (fuel : nat) (parsed_len : Z) (out : list T),
    (forall x, In x todo ->
       decodes (f (Z.of_nat (length (enc x)))) (enc x) x) ->
    seq_len < 2 ^ 32 ->
    0 <= parsed_len ->
    parsed_len + Z.of_nat (length (encode_seq enc todo)) = seq_len ->
    (length todo <= fuel)%nat ->
    decodes (parse_len_prefixed_seq_loop fuel seq_len f parsed_len out)
      (encode_seq enc todo) (out ++ todo).
Proof.
  induction todo as [|x todo IH]; intros fuel parsed_len out Hf Hb Hp Hs Hfuel.
  - cbn [encode_seq flat_map length] in *.
    assert (E : (parsed_len <? seq_len) = false) by (apply Z.ltb_ge; lia).
    destruct fuel; cbn [parse_len_prefixed_seq_loop]; rewrite E, app_nil_r;
      apply decodes_ret.
  - rewrite encode_seq_length_cons in Hs.
    destruct fuel as [|fuel]; [cbn [length] in Hfuel; lia|].
    cbn [parse_len_prefixed_seq_loop].
    assert (E : (parsed_len <? seq_len) = true) by (apply Z.ltb_lt; lia).
    rewrite E, encode_seq_cons. unfold len_prefixed.
    rewrite <- !app_assoc.
    eapply decodes_bind; [apply decodes_read_le_4; lia|].
    eapply decodes_bind; [apply Hf; left; reflexivity|].
    cbv zeta.
    rewrite wrap_4_small by lia.
    assert (E' : (seq_len <? parsed_len + (4 + Z.of_nat (length (enc x))))
                 = false) by (apply Z.ltb_ge; lia).
    rewrite E'.
    replace (out ++ x :: todo) with ((out ++ [x]) ++ todo)
      by (rewrite <- app_assoc; reflexivity).
    apply IH.
    + intros y Hy. apply Hf. right. exact Hy.
    + exact Hb.
    + lia.
    + lia.
    + cbn [length] in Hfuel. lia.
Qed.

Lemma decodes_seq (fuel : nat) (xs : list T) :
  (forall x, In x xs -> decodes (f (Z.of_nat (length (enc x)))) (enc x) x) ->
  Z.of_nat (length (encode_seq enc xs)) < 2 ^ 32 ->
  (length xs <= fuel)%nat ->
  decodes
    (parse_len_prefixed_seq fuel (Z.of_nat (length (encode_seq enc xs))) f)
    (encode_seq enc xs) xs.
Proof.
  intros Hf Hb Hfuel. unfold parse_len_prefixed_seq.
  change xs with ([] ++ xs) at 3.
  apply decodes_seq_loop; try assumption; lia.
Qed.

(** As long as the running total stays below [2^32], a record that takes
    the total past the budget makes the decoder throw. *)
Lemma seq_loop_overrun (seq_len : Z) (x : T) (todo : list T) :
  forall (fuel : nat) (parsed_len : Z) (out : list T) (pre rest : list byte),
    (forall y, In y (todo ++ [x]) ->
       decodes (f (Z.of_nat (length (enc y)))) (enc y) y) ->
    0 <= parsed_len ->
    parsed_len + Z.of_nat (length (encode_seq enc todo)) < seq_len ->
    seq_len < parsed_len + Z.of_nat (length (encode_seq enc (todo ++ [x])))
      < 2 ^ 32 ->
    (length todo < fuel)%nat ->
    fst (parse_len_prefixed_seq_loop fuel seq_len f parsed_len out
           (mk_istream (pre ++ encode_seq enc (todo ++ [x]) ++ rest)
              (Z.of_nat (length pre)) false))
    = Throw incomplete_sequence.
Proof.
  induction todo as [|y todo IH];
    intros fuel parsed_len out pre rest Hf Hp Hlo Hhi Hfuel;
    (destruct fuel as [|fuel]; [cbn [length] in Hfuel; lia|]);
    cbn [app] in *; rewrite encode_seq_length_cons in Hhi;
    rewrite encode_seq_cons; unfold len_prefixed; rewrite <- !app_assoc;
    cbn [parse_len_prefixed_seq_loop].
  - cbn [encode_seq flat_map length] in Hlo, Hhi.
    destruct (Z.ltb_spec parsed_len seq_len); [|lia].
    erewrite bind_ok
      by (eapply (decodes_run _ _ _ _ pre _ _
                   (decodes_read_le_4 (Z.of_nat (length (enc x)))
                      ltac:(lia))); reflexivity).
    erewrite bind_ok
      by (eapply (decodes_run _ _ _ _
                   (pre ++ le_bytes 4 (Z.of_nat (length (enc x)))) _ _
                   (Hf x (or_introl eq_refl)));
          [ rewrite <- app_assoc; reflexivity
          | rewrite length_app, le_bytes_length, Nat2Z.inj_add;
            reflexivity ]).
    cbv zeta. rewrite wrap_4_small by lia.
    destruct (Z.ltb_spec seq_len
                (parsed_len + (4 + Z.of_nat (length (enc x))))); [|lia].
    reflexivity.
  - rewrite encode_seq_length_cons in Hlo.
    destruct (Z.ltb_spec parsed_len seq_len); [|lia].
    erewrite bind_ok
      by (eapply (decodes_run _ _ _ _ pre _ _
                   (decodes_read_le_4 (Z.of_nat (length (enc y)))
                      ltac:(lia))); reflexivity).
    erewrite bind_ok
      by (eapply (decodes_run _ _ _ _
                   (pre ++ le_bytes 4 (Z.of_nat (length (enc y)))) _ _
                   (Hf y (or_introl eq_refl)));
          [ rewrite <- app_assoc; reflexivity
          | rewrite length_app, le_bytes_length, Nat2Z.inj_add;
            reflexivity ]).
    cbv zeta. rewrite wrap_4_small by lia.
    destruct (Z.ltb_spec seq_len
                (parsed_len + (4 + Z.of_nat (length (enc y))))); [lia|].
    specialize (IH fuel (parsed_len + (4 + Z.of_nat (length (enc y))))
                  (out ++ [y])
                  (pre ++ le_bytes 4 (Z.of_nat (length (enc y))) ++ enc y)
                  rest).
    rewrite <- !app_assoc, !length_app, le_bytes_length,
      !Nat2Z.inj_add in IH.
    rewrite le_bytes_length.
    replace (Z.of_nat (length pre) + Z.of_nat 4
             + Z.of_nat (length (enc y)))
      with (Z.of_nat (length pre)
            + (Z.of_nat 4 + Z.of_nat (length (enc y)))) by lia.
    apply IH.
    + intros z Hz. apply Hf. right. exact Hz.
    + lia.
    + lia.
    + lia.
    + cbn [length] in Hfuel. lia.
Qed.

End SequenceDecoder.

(** ** The record decoders on their layouts

    A decoder reads its layout back when the allocator grants what the
    records ask for; the lemmas below take an allocator that grants every
    request. *)

Lemma read_into_vector_granted (heap : allocator) (n : Z) :
  heap n = true -> read_into_vector heap n = read n.
Proof.
  intros H. unfold read_into_vector. rewrite H, andb_false_r. reflexivity.
Qed.

Lemma decodes_read_into_vector {heap : allocator}
    (Hheap : forall n : Z, heap n = true) (bs : list byte) :
  decodes (read_into_vector heap (Z.of_nat (length bs))) bs bs.
Proof. rewrite read_into_vector_granted by apply Hheap. apply decodes_read. Qed.

Lemma is_u32_true (z : Z) : is_u32 z = true -> 0 <= z < 2 ^ 32.
Proof. unfold is_u32. lia. Qed.

Lemma decodes_parse_digest {heap : allocator}
    (Hheap : forall n : Z, heap n = true) (len : Z) (d : digest) :
  is_u32 (digest_sig_algo_id d) = true ->
  Z.of_nat (length (digest_data d)) < 2 ^ 32 ->
  decodes (parse_digest heap len) (encode_digest d) d.
Proof.
  destruct d as [a data]. cbn [digest_sig_algo_id digest_data].
  intros Ha Hl. apply is_u32_true in Ha.
  unfold parse_digest, encode_digest, len_prefixed.
  cbn [digest_sig_algo_id digest_data].
  eapply decodes_bind; [apply decodes_read_le_4; lia|].
  eapply decodes_bind; [apply decodes_read_le_4; lia|].
  apply (decodes_bind_ret _ (mk_digest a)), decodes_read_into_vector, Hheap.
Qed.

Lemma decodes_parse_add_attr {heap : allocator}
    (Hheap : forall n : Z, heap n = true) (len : Z) (a : add_attr) :
  is_u32 (add_attr_id a) = true ->
  Z.of_nat (length (add_attr_value a)) < 2 ^ 32 ->
  decodes (parse_add_attr heap len) (encode_add_attr a) a.
Proof.
  destruct a as [i v]. cbn [add_attr_id add_attr_value].
  intros Ha Hl. apply is_u32_true in Ha.
  unfold parse_add_attr, encode_add_attr, len_prefixed.
  cbn [add_attr_id add_attr_value].
  eapply decodes_bind; [apply decodes_read_le_4; lia|].
  eapply decodes_bind; [apply decodes_read_le_4; lia|].
  apply (decodes_bind_ret _ (mk_add_attr i)), decodes_read_into_vector, Hheap.
Qed.

Lemma decodes_parse_signature {heap : allocator}
    (Hheap : forall n : Z, heap n = true) (len : Z) (sg : signature) :
  is_u32 (signature_sig_algo_id sg) = true ->
  Z.of_nat (length (signature_data sg)) < 2 ^ 32 ->
  decodes (parse_signature heap len) (encode_signature sg) sg.
Proof.
  destruct sg as [a data]. cbn [signature_sig_algo_id signature_data].
  intros Ha Hl. apply is_u32_true in Ha.
  unfold parse_signature, encode_signature, len_prefixed.
  cbn [signature_sig_algo_id signature_data].
  eapply decodes_bind; [apply decodes_read_le_4; lia|].
  eapply decodes_bind; [apply decodes_read_le_4; lia|].
  apply (decodes_bind_ret _ (mk_signature a)), decodes_read_into_vector,
    Hheap.
Qed.

Lemma decodes_parse_certificate {heap : allocator}
    (Hheap : forall n : Z, heap n = true) (c : certificate) :
  decodes (parse_certificate heap (Z.of_nat (length (encode_certificate c))))
    (encode_certificate c) c.
Proof. apply decodes_read_into_vector, Hheap. Qed.

(** The length of every part is bounded by the length of the whole. *)
Lemma encode_digest_length (d : digest) :
  length (encode_digest d) = (8 + length (digest_data d))%nat.
Proof.
  unfold encode_digest.
  rewrite length_app, le_bytes_length, len_prefixed_length. lia.
Qed.

Lemma encode_add_attr_length (a : add_attr) :
  length (encode_add_attr a) = (8 + length (add_attr_value a))%nat.
Proof.
  unfold encode_add_attr.
  rewrite length_app, le_bytes_length, len_prefixed_length. lia.
Qed.

Lemma encode_signature_length (sg : signature) :
  length (encode_signature sg) = (8 + length (signature_data sg))%nat.
Proof.
  unfold encode_signature.
  rewrite length_app, le_bytes_length, len_prefixed_length. lia.
Qed.

Lemma encode_v2_signed_data_length (trailer : list byte)
    (sd : v2_signed_data) :
  length (encode_v2_signed_data trailer sd) =
  (4 + length (encode_seq encode_digest (digests sd))
   + (4 + length (encode_seq encode_certificate (certificates sd)))
   + (4 + length (encode_seq encode_add_attr (add_attrs sd)))
   + length trailer)%nat.
Proof.
  unfold encode_v2_signed_data.
  rewrite !length_app, !len_prefixed_length. lia.
Qed.

Lemma encode_v2_signer_length (trailer : list byte) (sg : v2_signer) :
  length (encode_v2_signer trailer sg) =
  (4 + length (encode_v2_signed_data trailer (signed_data sg))
   + (4 + length (encode_seq encode_signature (signatures sg)))
   + (4 + length (signer_public_key sg)))%nat.
Proof.
  unfold encode_v2_signer.
  rewrite !length_app, !len_prefixed_length. lia.
Qed.

Lemma decodes_parse_v2_signed_data {heap : allocator}
    (Hheap : forall n : Z, heap n = true) (fuel : nat) (len : Z)
    (trailer : list byte) (sd : v2_signed_data) :
  length trailer = 4%nat ->
  ids_of_signed_data_ok sd = true ->
  Z.of_nat (length (encode_v2_signed_data trailer sd)) < 2 ^ 32 ->
  (length (encode_v2_signed_data trailer sd) <= fuel)%nat ->
  decodes (parse_v2_signed_data heap fuel len)
    (encode_v2_signed_data trailer sd) sd.
Proof.
  intros Ht Hids Hb Hfuel.
  rewrite encode_v2_signed_data_length in Hb, Hfuel.
  destruct sd as [ds cs ats].
  unfold ids_of_signed_data_ok in Hids.
  cbn [digests certificates add_attrs] in *.
  apply andb_prop in Hids. destruct Hids as [Hd Ha].
  rewrite forallb_forall in Hd, Ha.
  pose proof (encode_seq_count encode_digest ds).
  pose proof (encode_seq_count encode_certificate cs).
  pose proof (encode_seq_count encode_add_attr ats).
  unfold parse_v2_signed_data, encode_v2_signed_data, len_prefixed.
  cbn [digests certificates add_attrs].
  rewrite <- !app_assoc.
  eapply decodes_bind; [apply decodes_read_le_4; lia|].
  eapply decodes_bind.
  { apply decodes_seq; [|lia|lia].
    intros d Hin. apply decodes_parse_digest; [exact Hheap|auto|].
    pose proof (encode_seq_In_length encode_digest d ds Hin) as Hl.
    rewrite encode_digest_length in Hl. lia. }
  eapply decodes_bind; [apply decodes_read_le_4; lia|].
  eapply decodes_bind.
  { apply decodes_seq; [|lia|lia].
    intros c _. apply decodes_parse_certificate, Hheap. }
  eapply decodes_bind; [apply decodes_read_le_4; lia|].
  eapply decodes_bind.
  { apply decodes_seq; [|lia|lia].
    intros a Hin. apply decodes_parse_add_attr; [exact Hheap|auto|].
    pose proof (encode_seq_In_length encode_add_attr a ats Hin) as Hl.
    rewrite encode_add_attr_length in Hl. lia. }
  eapply (decodes_bind_ret _ (fun _ => mk_v2_signed_data ds cs ats)).
  apply decodes_read_le. exact Ht.
Qed.

Lemma decodes_parse_v2_signer {heap : allocator}
    (Hheap : forall n : Z, heap n = true) (fuel : nat) (len : Z)
    (trailer : list byte) (sg : v2_signer) :
  length trailer = 4%nat ->
  ids_of_signer_ok sg = true ->
  Z.of_nat (length (encode_v2_signer trailer sg)) < 2 ^ 32 ->
  (length (encode_v2_signer trailer sg) <= fuel)%nat ->
  decodes (parse_v2_signer heap fuel len) (encode_v2_signer trailer sg) sg.
Proof.
  intros Ht Hids Hb Hfuel.
  rewrite encode_v2_signer_length in Hb, Hfuel.
  destruct sg as [sd sigs pk].
  unfold ids_of_signer_ok in Hids.
  cbn [signed_data signatures signer_public_key] in *.
  apply andb_prop in Hids. destruct Hids as [Hsd Hsg].
  rewrite forallb_forall in Hsg.
  pose proof (encode_seq_count encode_signature sigs).
  unfold parse_v2_signer, parse_public_key, encode_v2_signer.
  cbn [signed_data signatures signer_public_key].
  unfold len_prefixed at 1 2.
  rewrite <- !app_assoc.
  eapply decodes_bind; [apply decodes_read_le_4; lia|].
  eapply decodes_bind.
  { apply (decodes_parse_v2_signed_data Hheap fuel _ trailer);
      [assumption..|lia|lia]. }
  eapply decodes_bind; [apply decodes_read_le_4; lia|].
  eapply decodes_bind.
  { apply decodes_seq; [|lia|lia].
    intros s Hin. apply decodes_parse_signature; [exact Hheap|auto|].
    pose proof (encode_seq_In_length encode_signature s sigs Hin) as Hl.
    rewrite encode_signature_length in Hl. lia. }
  unfold len_prefixed.
  eapply decodes_bind; [apply decodes_read_le_4; lia|].
  apply (decodes_bind_ret _ (mk_v2_signer sd sigs)), decodes_read_into_vector,
    Hheap.
Qed.

Lemma decodes_parse_v2_block {heap : allocator}
    (Hheap : forall n : Z, heap n = true) (fuel : nat) (trailer : list byte)
    (b : v2_block) :
  length trailer = 4%nat ->
  ids_of_block_ok b = true ->
  Z.of_nat (length (encode_v2_block trailer b)) < 2 ^ 32 ->
  (length (encode_v2_block trailer b) <= fuel)%nat ->
  decodes
    (parse_v2_block heap fuel (Z.of_nat (length (encode_v2_block trailer b))))
    (encode_v2_block trailer b) b.
Proof.
  intros Ht Hids Hb Hfuel.
  destruct b as [sgs]. unfold ids_of_block_ok, encode_v2_block in *.
  cbn [signers] in *. rewrite forallb_forall in Hids.
  pose proof (encode_seq_count (encode_v2_signer trailer) sgs).
  unfold parse_v2_block.
  apply (decodes_bind_ret _ mk_v2_block).
  apply decodes_seq; [|lia|lia].
  intros sg Hin.
  pose proof (encode_seq_In_length (encode_v2_signer trailer) sg sgs Hin).
  apply decodes_parse_v2_signer; [exact Hheap|assumption|auto|lia|lia].
Qed.

(** ** What the stream operations leave untouched *)

Lemma stream_op_ret {A} (a : A) : stream_op (@ret istream A a).
Proof.
  intros s s' r H. inversion H; subst.
  split; [reflexivity | split; [discriminate | reflexivity]].
Qed.

Lemma stream_op_throw {A} (e : exn) :
  is_parse_error e = false -> stream_op (@throw istream A e).
Proof.
  intros He s s' r H. inversion H; subst.
  split; [reflexivity | split; [|discriminate]].
  intros e' E. inversion E; subst. exact He.
Qed.

Lemma stream_op_out_of_fuel {A} : stream_op (@out_of_fuel istream A).
Proof.
  intros s s' r H. inversion H; subst.
  split; [reflexivity | split; discriminate].
Qed.

Lemma stream_op_bind {A B} (m : M istream A) (k : A -> M istream B) :
  stream_op m -> (forall a, stream_op (k a)) -> stream_op (bind m k).
Proof.
  intros Hm Hk s s' r H.
  apply bind_inv in H.
  destruct H as [(a & s1 & H1 & H2) | [(e & H1 & ->) | (H1 & ->)]].
  - destruct (Hm _ _ _ H1) as (C1 & _ & G1).
    destruct (Hk a _ _ _ H2) as (C2 & E2 & G2).
    split; [congruence | split; [exact E2|]].
    intros b Hb. rewrite (G2 b Hb). apply (G1 a). reflexivity.
  - destruct (Hm _ _ _ H1) as (C1 & E1 & _).
    split; [exact C1 | split; [|discriminate]].
    intros e' E. inversion E; subst. apply E1. reflexivity.
  - destruct (Hm _ _ _ H1) as (C1 & _ & _).
    split; [exact C1 | split; discriminate].
Qed.

Lemma stream_op_set_failbit {A} : stream_op (@set_failbit A).
Proof.
  intros s s' r H. inversion H; subst.
  split; [reflexivity | split; [|discriminate]].
  intros e E. inversion E; subst. reflexivity.
Qed.

Lemma stream_op_sentry {A} (m : M istream A) :
  stream_op m -> stream_op (sentry m).
Proof.
  intros Hm s s' r H. unfold sentry in H. destruct (failbit s) eqn:F.
  - inversion H; subst.
    split; [reflexivity | split; [|discriminate]].
    intros e E. inversion E; subst. reflexivity.
  - destruct (Hm _ _ _ H) as (C & E & G).
    split; [exact C | split; [exact E|]].
    intros a Ha. rewrite (G a Ha). exact F.
Qed.

Lemma stream_op_seekg (pos : Z) : stream_op (seekg pos).
Proof.
  apply stream_op_sentry. intros s s' r H. destruct (pos <? 0).
  - exact (stream_op_set_failbit _ _ _ H).
  - inversion H; subst.
    split; [reflexivity | split; [discriminate | reflexivity]].
Qed.

Lemma stream_op_seekg_end : stream_op seekg_end.
Proof.
  apply stream_op_sentry. intros s s' r H. inversion H; subst.
  split; [reflexivity | split; [discriminate | reflexivity]].
Qed.

Lemma stream_op_tellg : stream_op tellg.
Proof.
  apply stream_op_sentry. intros s s' r H. inversion H; subst.
  split; [reflexivity | split; [discriminate | reflexivity]].
Qed.

Lemma stream_op_read (n : Z) : stream_op (read n).
Proof.
  apply stream_op_sentry. intros s s' r H.
  destruct (n <=? Z.max 0 (size s - gpos s)).
  - inversion H; subst.
    split; [reflexivity | split; [discriminate | reflexivity]].
  - exact (stream_op_set_failbit _ _ _ H).
Qed.

Lemma stream_op_read_into_array (N : nat) : stream_op (read_into_array N).
Proof. apply stream_op_read. Qed.

Lemma stream_op_read_le (w : nat) : stream_op (read_le w).
Proof.
  apply stream_op_bind; [apply stream_op_read|].
  intros a. apply stream_op_ret.
Qed.

Lemma stream_op_read_into_vector (heap : allocator) (n : Z) :
  stream_op (read_into_vector heap n).
Proof.
  unfold read_into_vector. destruct ((0 <? n) && negb (heap n)).
  - apply stream_op_throw. reflexivity.
  - apply stream_op_read.
Qed.

Create HintDb stream.

#[local] Hint Resolve stream_op_ret stream_op_out_of_fuel stream_op_seekg
  stream_op_seekg_end stream_op_tellg stream_op_read stream_op_read_le
  stream_op_read_into_array stream_op_read_into_vector
  : stream.

Ltac stream_op_steps :=
  repeat first
    [ solve [auto with stream]
    | apply stream_op_throw; reflexivity
    | apply stream_op_bind; [|intros ?] ].

Lemma stream_op_seq_loop {T} (f : Z -> M istream T) (seq_len : Z) :
  (forall len, stream_op (f len)) ->
  forall (fuel : nat) (parsed_len : Z) (out : list T),
    stream_op (parse_len_prefixed_seq_loop fuel seq_len f parsed_len out).
Proof.
  intros Hf. induction fuel as [|fuel IH]; intros parsed_len out;
    cbn [parse_len_prefixed_seq_loop];
    destruct (parsed_len <? seq_len); auto with stream.
  apply stream_op_bind; [auto with stream | intros len].
  apply stream_op_bind; [apply Hf | intros x]. cbv zeta.
  destruct (seq_len <? wrap 4 (parsed_len + (4 + len))).
  - apply stream_op_throw. reflexivity.
  - apply IH.
Qed.

Lemma stream_op_seq {T} (f : Z -> M istream T) (fuel : nat) (seq_len : Z) :
  (forall len, stream_op (f len)) ->
  stream_op (parse_len_prefixed_seq fuel seq_len f).
Proof. intros Hf. apply stream_op_seq_loop. exact Hf. Qed.

Lemma stream_op_parse_digest {heap : allocator} (len : Z) :
  stream_op (parse_digest heap len).
Proof. unfold parse_digest. stream_op_steps. Qed.

Lemma stream_op_parse_certificate {heap : allocator} (len : Z) :
  stream_op (parse_certificate heap len).
Proof. apply stream_op_read_into_vector. Qed.

Lemma stream_op_parse_add_attr {heap : allocator} (len : Z) :
  stream_op (parse_add_attr heap len).
Proof. unfold parse_add_attr. stream_op_steps. Qed.

Lemma stream_op_parse_signature {heap : allocator} (len : Z) :
  stream_op (parse_signature heap len).
Proof. unfold parse_signature. stream_op_steps. Qed.

#[local] Hint Resolve stream_op_seq stream_op_parse_digest
  stream_op_parse_certificate stream_op_parse_add_attr
  stream_op_parse_signature : stream.

Lemma stream_op_parse_v2_signed_data {heap : allocator} (fuel : nat) (len : Z) :
  stream_op (parse_v2_signed_data heap fuel len).
Proof. unfold parse_v2_signed_data. stream_op_steps. Qed.

#[local] Hint Resolve stream_op_parse_v2_signed_data : stream.

Lemma stream_op_parse_v2_signer {heap : allocator} (fuel : nat) (len : Z) :
  stream_op (parse_v2_signer heap fuel len).
Proof.
  unfold parse_v2_signer, parse_public_key. stream_op_steps.
Qed.

#[local] Hint Resolve stream_op_parse_v2_signer : stream.

Lemma stream_op_parse_v2_block {heap : allocator} (fuel : nat) (len : Z) :
  stream_op (parse_v2_block heap fuel len).
Proof. unfold parse_v2_block. stream_op_steps. Qed.

Lemma stream_op_reverse_find_loop (pat : list byte) (window_size : Z) :
  forall (fuel : nat) (carry_buffer : list byte) (current_pos : Z),
    stream_op
      (reverse_find_loop fuel pat window_size carry_buffer current_pos).
Proof.
  induction fuel as [|fuel IH]; intros carry_buffer current_pos;
    cbn [reverse_find_loop]; destruct (0 <? current_pos);
    auto with stream.
  cbv zeta.
  apply stream_op_bind; [auto with stream | intros _].
  apply stream_op_bind; [auto with stream | intros window].
  destruct (scan_window _ _ _); [apply stream_op_ret | apply IH].
Qed.

Lemma stream_op_reverse_find_bytes (pat : list byte) (start : Z) :
  stream_op (reverse_find_bytes pat start).
Proof.
  unfold reverse_find_bytes.
  apply stream_op_bind.
  - destruct (start =? -1); auto with stream.
  - intros _. cbv zeta. destruct (Z.of_nat (length pat) =? 0).
    + apply stream_op_ret.
    + apply stream_op_bind; [auto with stream | intros p].
      apply stream_op_reverse_find_loop.
Qed.

#[local] Hint Resolve stream_op_parse_v2_block stream_op_reverse_find_bytes
  : stream.

(** ** What the operations of the object leave untouched *)

Lemma on_ifs_inv {A} (m : M istream A) (si si' : siginfo) (r : outcome A) :
  on_ifs m si = (r, si') ->
  exists s', m (ifs_ si) = (r, s')
    /\ si' = mk_siginfo s' (v2_block_pos_ si) (v3_block_pos_ si)
               (v3_1_block_pos_ si) (v2_block_ si).
Proof.
  unfold on_ifs. destruct (m (ifs_ si)) as [r0 s0]. intros H.
  inversion H; subst. eauto.
Qed.

Lemma on_ifs_run {A} (m : M istream A) (s s' : istream) (r : outcome A)
    (p2 p3 p31 : Z) (b : v2_block) :
  m s = (r, s') ->
  on_ifs m (mk_siginfo s p2 p3 p31 b) = (r, mk_siginfo s' p2 p3 p31 b).
Proof. unfold on_ifs. cbn [ifs_]. intros ->. reflexivity. Qed.

Lemma same_fields_refl (si : siginfo) : same_fields si si.
Proof. repeat split. Qed.

Lemma same_fields_trans (si1 si2 si3 : siginfo) :
  same_fields si1 si2 -> same_fields si2 si3 -> same_fields si1 si3.
Proof.
  unfold same_fields. intros (?&?&?&?&?) (?&?&?&?&?).
  repeat split; congruence.
Qed.

Lemma field_preserving_on_ifs {A} (m : M istream A) :
  stream_op m -> field_preserving (on_ifs m).
Proof.
  intros Hm si si' r H.
  apply on_ifs_inv in H. destruct H as (s' & H & ->).
  destruct (Hm _ _ _ H) as (C & E & _).
  split; [|exact E]. repeat split. exact C.
Qed.

Lemma walk_op_of_field_preserving {A} (m : M siginfo A) :
  field_preserving m -> walk_op m.
Proof.
  intros Hm si si' r H. destruct (Hm _ _ _ H) as [F E].
  split; [exact (proj1 F) | exact E].
Qed.

Lemma walk_op_on_ifs {A} (m : M istream A) :
  stream_op m -> walk_op (on_ifs m).
Proof.
  intros Hm. apply walk_op_of_field_preserving, field_preserving_on_ifs, Hm.
Qed.

Lemma walk_op_ret {A} (a : A) : walk_op (@ret siginfo A a).
Proof.
  intros si si' r H. inversion H; subst. split; [reflexivity | discriminate].
Qed.

Lemma walk_op_out_of_fuel {A} : walk_op (@out_of_fuel siginfo A).
Proof.
  intros si si' r H. inversion H; subst. split; [reflexivity | discriminate].
Qed.

Lemma walk_op_bind {A B} (m : M siginfo A) (k : A -> M siginfo B) :
  walk_op m -> (forall a, walk_op (k a)) -> walk_op (bind m k).
Proof.
  intros Hm Hk si si' r H.
  apply bind_inv in H.
  destruct H as [(a & s1 & H1 & H2) | [(e & H1 & ->) | (H1 & ->)]].
  - destruct (Hm _ _ _ H1) as [C1 _]. destruct (Hk a _ _ _ H2) as [C2 E2].
    split; [congruence | exact E2].
  - destruct (Hm _ _ _ H1) as [C1 E1]. split; [exact C1|].
    intros e' E. inversion E; subst. apply E1. reflexivity.
  - destruct (Hm _ _ _ H1) as [C1 _]. split; [exact C1 | discriminate].
Qed.

Lemma walk_op_set_v2_block_pos (p : Z) : walk_op (set_v2_block_pos p).
Proof.
  intros si si' r H. inversion H; subst. split; [reflexivity | discriminate].
Qed.

Lemma walk_op_set_v3_block_pos (p : Z) : walk_op (set_v3_block_pos p).
Proof.
  intros si si' r H. inversion H; subst. split; [reflexivity | discriminate].
Qed.

Lemma walk_op_set_v3_1_block_pos (p : Z) : walk_op (set_v3_1_block_pos p).
Proof.
  intros si si' r H. inversion H; subst. split; [reflexivity | discriminate].
Qed.

Lemma walk_op_set_v2_block (b : v2_block) : walk_op (set_v2_block b).
Proof.
  intros si si' r H. inversion H; subst. split; [reflexivity | discriminate].
Qed.

Create HintDb walk.

#[local] Hint Resolve walk_op_ret walk_op_out_of_fuel
  walk_op_set_v2_block_pos walk_op_set_v3_block_pos
  walk_op_set_v3_1_block_pos walk_op_set_v2_block : walk.

#[local] Hint Extern 1 (walk_op (on_ifs _)) =>
  apply walk_op_on_ifs; auto with stream : walk.

Lemma walk_op_classify_pair {heap : allocator} (fuel : nat) (id : Z) :
  walk_op (classify_pair heap fuel id).
Proof.
  unfold classify_pair.
  destruct (id =? v2_id); [|destruct (id =? v3_id);
                             [|destruct (id =? v3_1_id)]];
    repeat first [ solve [auto with walk]
                 | apply walk_op_bind; [|intros ?] ].
Qed.

Lemma walk_op_walk_pair {heap : allocator} (fuel : nat) (i : Z) :
  walk_op (walk_pair heap fuel i).
Proof.
  unfold walk_pair.
  repeat first [ solve [auto with walk]
               | apply walk_op_classify_pair
               | apply walk_op_bind; [|intros ?] ].
Qed.

Lemma walk_op_walk_pairs {heap : allocator} (apk_sig_size_of_block_pos : Z) :
  forall (fuel : nat) (i : Z),
    walk_op (walk_pairs heap fuel apk_sig_size_of_block_pos i).
Proof.
  induction fuel as [|fuel IH]; intros i; cbn [walk_pairs];
    destruct (i <? apk_sig_size_of_block_pos); auto with walk.
  apply walk_op_bind; [apply walk_op_walk_pair | intros i'; apply IH].
Qed.

Lemma locator_op_of_walk_op {A} (m : M siginfo A) :
  walk_op m -> locator_op m.
Proof.
  intros Hm si si' r H. destruct (Hm _ _ _ H) as [C E].
  split; [exact C|]. intros e -> He. rewrite (E e eq_refl) in He.
  discriminate.
Qed.

Lemma locator_op_throw {A} (e : exn) : locator_op (@throw siginfo A e).
Proof.
  intros si si' r H. inversion H; subst.
  split; [reflexivity | intros; apply same_fields_refl].
Qed.

Lemma locator_op_bind {A B} (m : M siginfo A) (k : A -> M siginfo B) :
  field_preserving m -> (forall a, locator_op (k a)) ->
  locator_op (bind m k).
Proof.
  intros Hm Hk si si' r H.
  apply bind_inv in H.
  destruct H as [(a & s1 & H1 & H2) | [(e & H1 & ->) | (H1 & ->)]].
  - destruct (Hm _ _ _ H1) as [F1 _]. destruct (Hk a _ _ _ H2) as [C2 F2].
    split; [rewrite C2; exact (proj1 F1)|].
    intros e E He. eapply same_fields_trans; [exact F1 | eauto].
  - destruct (Hm _ _ _ H1) as [F1 E1].
    split; [exact (proj1 F1) | intros; exact F1].
  - destruct (Hm _ _ _ H1) as [F1 E1].
    split; [exact (proj1 F1) | intros; exact F1].
Qed.

Lemma locator_op_parse {heap : allocator} (fuel : nat) :
  locator_op (parse heap fuel).
Proof.
  unfold parse.
  apply locator_op_bind;
    [apply field_preserving_on_ifs; auto with stream | intros p].
  destruct (p =? -1); [apply locator_op_throw|]. cbv zeta.
  do 6 (apply locator_op_bind;
          [apply field_preserving_on_ifs; auto with stream | intros ?]).
  match goal with |- context [negb ?c] => destruct c end; cbn [negb];
    [|apply locator_op_throw].
  do 2 (apply locator_op_bind;
          [apply field_preserving_on_ifs; auto with stream | intros ?]).
  apply locator_op_of_walk_op, walk_op_walk_pairs.
Qed.

(** ** One turn of the walk *)

Lemma walk_pair_header {heap : allocator} (fuel : nat) (pre rest : list byte)
    (pair_len id p p2 p3 p31 : Z) (b : v2_block) :
  0 <= pair_len < 2 ^ 64 ->
  0 <= id < 2 ^ 32 ->
  let file := pre ++ le_bytes 8 pair_len ++ le_bytes 4 id ++ rest in
  let i := Z.of_nat (length pre) in
  walk_pair heap fuel i (mk_siginfo (mk_istream file p false) p2 p3 p31 b) =
  (classify_pair heap fuel id ;; ret (next_pair i pair_len))
    (mk_siginfo (mk_istream file (i + 12) false) p2 p3 p31 b).
Proof.
  intros Hl Hid file i. unfold walk_pair.
  erewrite bind_ok
    by (apply on_ifs_run, seekg_at; unfold i; lia).
  erewrite bind_ok
    by (apply on_ifs_run;
        apply (decodes_run _ _ _ file pre (le_bytes 4 id ++ rest) i
                 (decodes_read_le_8 pair_len Hl)); reflexivity).
  erewrite bind_ok
    by (apply on_ifs_run;
        apply (decodes_run _ _ _ file (pre ++ le_bytes 8 pair_len) rest _
                 (decodes_read_le_4 id Hid));
        [ unfold file; rewrite <- app_assoc; reflexivity
        | rewrite length_app, Nat2Z.inj_add; reflexivity ]).
  rewrite !le_bytes_length.
  replace (i + Z.of_nat 8 + Z.of_nat 4) with (i + 12) by lia.
  reflexivity.
Qed.

Lemma next_pair_no_wrap (i pair_len : Z) :
  0 <= i -> 0 <= pair_len -> i + pair_len + 8 < 2 ^ 63 ->
  next_pair i pair_len = i + (pair_len + 8).
Proof.
  intros Hi Hl Hb. unfold next_pair, to_streamoff, wrap.
  change (2 ^ (8 * Z.of_nat 8)) with (2 ^ 64).
  rewrite (Z.mod_small (pair_len + 8)) by lia.
  rewrite (Z.mod_small (pair_len + 8 + 2 ^ 63)) by lia.
  rewrite Z.mod_small by lia. lia.
Qed.

(** ** The fuel of the scanner *)

Lemma seekg_not_out_of_fuel (pos : Z) (s : istream) :
  fst (seekg pos s) <> OutOfFuel.
Proof.
  unfold seekg, sentry, set_failbit. destruct (failbit s); [discriminate|].
  destruct (pos <? 0); discriminate.
Qed.

Lemma read_not_out_of_fuel (n : Z) (s : istream) :
  fst (read n s) <> OutOfFuel.
Proof.
  unfold read, sentry, set_failbit. destruct (failbit s); [discriminate|].
  destruct (n <=? Z.max 0 (size s - gpos s)); discriminate.
Qed.

(** The scanner never runs out of the fuel it gives to its loop. *)
Lemma reverse_find_loop_total (pat : list byte) (window_size : Z) :
  0 < window_size ->
  forall (fuel : nat) (carry_buffer : list byte) (current_pos : Z)
         (s : istream),
    (Z.to_nat current_pos <= fuel)%nat ->
    fst (reverse_find_loop fuel pat window_size carry_buffer current_pos s)
    <> OutOfFuel.
Proof.
  intros Hw. induction fuel as [|fuel IH];
    intros carry_buffer current_pos s Hfuel; cbn [reverse_find_loop];
    destruct (Z.ltb_spec 0 current_pos); try discriminate; [lia|].
  cbv zeta. unfold bind at 1.
  pose proof (seekg_not_out_of_fuel
                (Z.max 0 (current_pos - window_size)) s) as Hs.
  destruct (seekg (Z.max 0 (current_pos - window_size)) s)
    as [[[]|e|] s1]; [|discriminate|contradiction].
  unfold bind.
  pose proof (read_not_out_of_fuel
                (current_pos - Z.max 0 (current_pos - window_size)) s1)
    as Hr.
  destruct (read (current_pos - Z.max 0 (current_pos - window_size)) s1)
    as [[window|e|] s2]; [|discriminate|contradiction].
  destruct (scan_window _ _ _); [discriminate|].
  apply IH. lia.
Qed.

Lemma reverse_find_bytes_total (pat : list byte) (start : Z) (s : istream) :
  fst (reverse_find_bytes pat start s) <> OutOfFuel.
Proof.
  unfold reverse_find_bytes, bind.
  assert (H0 : forall s0, fst ((if start =? -1 then seekg_end else seekg start)
                              s0) <> OutOfFuel).
  { intros s0. destruct (start =? -1); [|apply seekg_not_out_of_fuel].
    unfold seekg_end, sentry. destruct (failbit s0); discriminate. }
  specialize (H0 s).
  destruct ((if start =? -1 then seekg_end else seekg start) s)
    as [[[]|e|] s1]; [|discriminate|contradiction].
  cbv zeta. destruct (Z.of_nat (length pat) =? 0); [discriminate|].
  unfold tellg, sentry. destruct (failbit s1); [discriminate|].
  apply reverse_find_loop_total; [unfold default_window_size; lia | lia].
Qed.

(** ** The scanner on the last window *)

Lemma bytes_eqb_true (a b : list byte) : bytes_eqb a b = true <-> a = b.
Proof.
  unfold bytes_eqb. destruct (list_eq_dec Byte.byte_eq_dec a b);
    split; (congruence || discriminate).
Qed.

Lemma bytes_eqb_false (a b : list byte) : bytes_eqb a b = false <-> a <> b.
Proof.
  unfold bytes_eqb. destruct (list_eq_dec Byte.byte_eq_dec a b);
    split; (congruence || discriminate || reflexivity).
Qed.

Lemma equal_at_app_shift (pat A B : list byte) (i : nat) :
  equal_at pat (A ++ B) (length A + i) = equal_at pat B i.
Proof.
  unfold equal_at. rewrite skipn_app, skipn_all2 by lia.
  replace (length A + i - length A)%nat with i by lia. reflexivity.
Qed.

Lemma scan_window_app_shift (pat A B : list byte) (j : nat) :
  forall k : nat,
    scan_window pat B k = Some j ->
    scan_window pat (A ++ B) (length A + k) = Some (length A + j)%nat.
Proof.
  induction k as [|k IH]; [discriminate|].
  rewrite Nat.add_succ_r. cbn [scan_window].
  rewrite equal_at_app_shift.
  destruct (equal_at pat B k).
  - intros H. inversion H; subst. reflexivity.
  - exact IH.
Qed.

(** The window scan returns the start of the window when the pattern
    stands there and at no index above. *)
Lemma scan_window_start (pat buf : list byte) :
  firstn (length pat) buf = pat ->
  forall k : nat,
    (0 < k)%nat ->
    (forall i : nat, (0 < i < k)%nat ->
       firstn (length pat) (skipn i buf) <> pat) ->
    scan_window pat buf k = Some 0%nat.
Proof.
  intros H0. induction k as [|k IH]; [lia|]. intros _ Hno.
  cbn [scan_window]. destruct k as [|k].
  - unfold equal_at. cbn [skipn]. rewrite H0.
    replace (bytes_eqb pat pat) with true
      by (symmetry; apply bytes_eqb_true; reflexivity).
    reflexivity.
  - replace (equal_at pat buf (S k)) with false.
    + apply IH; [lia|]. intros i Hi. apply Hno. lia.
    + symmetry. apply bytes_eqb_false. intros E. apply (Hno (S k)); [lia|].
      symmetry. exact E.
Qed.

(** The scanner finds an occurrence that starts in the last 4096 bytes of
    the stream, the last byte apart, when the pattern stands nowhere behind
    it, not even against the zeros that the first carry holds. *)
Lemma reverse_find_bytes_last_window (pat front tail : list byte) :
  pat <> [] ->
  (2 <= length tail <= 4096)%nat ->
  firstn (length pat) (tail ++ repeat x00 (length pat - 1)) = pat ->
  (forall i : nat, (0 < i)%nat ->
     firstn (length pat) (skipn i (tail ++ repeat x00 (length pat - 1)))
     <> pat) ->
  reverse_find_bytes pat (-1) (open (front ++ tail)) =
  (Ok (Z.of_nat (length front)),
   mk_istream (front ++ tail) (Z.of_nat (length (front ++ tail))) false).
Proof.
  intros Hpat Htail Hat Hno.
  assert (HL : (1 <= length pat)%nat)
    by (destruct pat; [contradiction | cbn [length]; lia]).
  set (file := front ++ tail).
  set (n := Z.of_nat (length file)).
  assert (Hn : n = Z.of_nat (length front) + Z.of_nat (length tail))
    by (unfold n, file; rewrite length_app; lia).
  unfold reverse_find_bytes.
  change (-1 =? -1) with true. cbv iota.
  rewrite (bind_ok seekg_end _ (open file) (mk_istream file n false) tt)
    by reflexivity.
  cbv zeta.
  destruct (Z.eqb_spec (Z.of_nat (length pat)) 0); [lia|].
  erewrite bind_ok by apply tellg_at.
  destruct (Z.to_nat n) as [|fuel] eqn:En; [lia|].
  cbn [reverse_find_loop].
  destruct (Z.ltb_spec 0 n); [|lia].
  set (ws := Z.max default_window_size (Z.of_nat (length pat))).
  set (pos := Z.max 0 (n - ws)).
  assert (Hws : 4096 <= ws) by (unfold ws, default_window_size; lia).
  assert (Hpos : 0 <= pos <= Z.of_nat (length front)) by (unfold pos; lia).
  cbv zeta.
  erewrite bind_ok by (apply seekg_at; lia).
  set (A := skipn (Z.to_nat pos) front).
  assert (HA : Z.of_nat (length A) = Z.of_nat (length front) - pos)
    by (unfold A; rewrite length_skipn; lia).
  assert (Hsplit : file = firstn (Z.to_nat pos) front ++ (A ++ tail) ++ []).
  { unfold file, A. rewrite app_nil_r, app_assoc, firstn_skipn.
    reflexivity. }
  assert (Hlen : n - pos = Z.of_nat (length (A ++ tail)))
    by (rewrite length_app; lia).
  rewrite Hlen.
  erewrite bind_ok
    by (apply (decodes_run _ _ _ file (firstn (Z.to_nat pos) front) []
                 pos (decodes_read (A ++ tail)) Hsplit);
        rewrite length_firstn; lia).
  rewrite <- app_assoc.
  replace (length (A ++ tail ++ repeat x00 (length pat - 1)) - length pat)%nat
    with (length A + (length tail - 1))%nat
    by (rewrite !length_app, repeat_length; lia).
  rewrite (scan_window_app_shift pat A _ 0%nat).
  - unfold ret. f_equal; [f_equal; lia | f_equal].
    rewrite <- Hlen. ring.
  - apply scan_window_start; [exact Hat | lia |].
    intros i Hi. apply Hno. lia.
Qed.

(** ** The earlier sequence splitter *)

Lemma spans_total_app (l1 l2 : list Legacy.span) :
  spans_total (l1 ++ l2) = spans_total l1 + spans_total l2.
Proof.
  induction l1 as [|s l1 IH]; [reflexivity|].
  change (spans_total ((s :: l1) ++ l2))
    with (4 + Legacy.len s + spans_total (l1 ++ l2)).
  change (spans_total (s :: l1)) with (4 + Legacy.len s + spans_total l1).
  rewrite IH. lia.
Qed.

(** The earlier splitter returns only when the spans account for the
    whole range. *)
Lemma legacy_seq_loop_exact (mem : list byte) (last : Z) :
  forall (fuel : nat) (first : Z) (out spans : list Legacy.span),
    first <= last ->
    Legacy.parse_len_prefix_seq_loop fuel mem first last out = Ok spans ->
    spans_total spans = spans_total out + (last - first).
Proof.
  induction fuel as [|fuel IH]; intros first out spans Hle H;
    cbn [Legacy.parse_len_prefix_seq_loop] in H;
    destruct (Z.ltb_spec first last);
    try discriminate;
    try (inversion H; subst; lia).
  destruct (last - first <? 4); [discriminate|].
  cbv zeta in H.
  set (s := Legacy.parse_len_prefix_value mem first) in *.
  destruct (Z.ltb_spec last (Legacy.data s + Legacy.len s));
    [discriminate|].
  apply IH in H; [|lia].
  rewrite H, spans_total_app. cbn [spans_total fold_right].
  assert (Legacy.data s = first + 4) by reflexivity. lia.
Qed.

Lemma legacy_seq_exact (mem : list byte) (first last : Z)
    (spans : list Legacy.span) :
  first <= last ->
  Legacy.parse_len_prefix_seq mem first last = Ok spans ->
  spans_total spans = last - first.
Proof.
  intros Hle H. apply legacy_seq_loop_exact in H; [|exact Hle].
  cbn [spans_total fold_right] in H. lia.
Qed.

(** The earlier splitter refuses the record of [0xFFFFFFFC] bytes in a
    range of eight. *)
Lemma legacy_seq_refuses_huge_record :
  Legacy.parse_len_prefix_seq
    (le_bytes 4 4294967292 ++ [x01; x02; x03; x04]) 0 8
  = Throw truncated_value.
Proof. vm_compute. reflexivity. Qed.

(** * The claims *)

(** ** C1: what decoding a SignedData consumes *)

(** C1, as stated, fails: on the twelve bytes of a SignedData with three
    empty sequences followed by five more bytes, the decoder returns the
    SignedData and has consumed sixteen bytes, four more than the three
    length fields and their sequences take. *)
Lemma parse_v2_signed_data_reads_past_attrs :
  let s :=
    open (encode_v2_signed_data [] no_signed_data
          ++ [x01; x02; x03; x04; x05]) in
  parse_v2_signed_data ample 1 12 s = (Ok no_signed_data, set_gpos 16 s)
  /\ 16 <> Z.of_nat (length (encode_v2_signed_data [] no_signed_data)).
Proof. split; [reflexivity | discriminate]. Qed.

(** C1, amended: decoding a well-formed SignedData (every id a [u32], the
    whole shorter than [2^32] bytes) consumes exactly the [u32] length of
    the digest sequence and that many bytes of Digest records, the [u32]
    length of the certificate sequence and that many bytes of Certificate
    records, the [u32] length of the attribute sequence and that many
    bytes of AdditionalAttribute records, and then one further 4-byte
    field whose value is discarded; it returns the SignedData and reads
    nothing behind that field.  The allocator is one that grants the
    memory that the records ask for. *)
Theorem parse_v2_signed_data_consumes_trailer {heap : allocator}
    (fuel : nat) (len : Z) (trailer : list byte) (sd : v2_signed_data)
    (pre rest : list byte) :
  (forall n : Z, heap n = true) ->
  length trailer = 4%nat ->
  ids_of_signed_data_ok sd = true ->
  Z.of_nat (length (encode_v2_signed_data trailer sd)) < 2 ^ 32 ->
  (length (encode_v2_signed_data trailer sd) <= fuel)%nat ->
  let D := encode_seq encode_digest (digests sd) in
  let C := encode_seq encode_certificate (certificates sd) in
  let A := encode_seq encode_add_attr (add_attrs sd) in
  let file :=
    pre ++ (len_prefixed D ++ len_prefixed C ++ len_prefixed A ++ trailer)
    ++ rest in
  parse_v2_signed_data heap fuel len
    (mk_istream file (Z.of_nat (length pre)) false) =
  (Ok sd,
   mk_istream file
     (Z.of_nat (length pre)
      + (4 + Z.of_nat (length D) + (4 + Z.of_nat (length C))
         + (4 + Z.of_nat (length A)) + 4))
     false).
Proof.
  intros Hheap Ht Hids Hb Hfuel D C A file.
  pose proof (decodes_parse_v2_signed_data Hheap fuel len trailer sd
                Ht Hids Hb Hfuel pre rest) as H.
  rewrite encode_v2_signed_data_length, Ht in H.
  unfold encode_v2_signed_data in H. fold D C A in H. fold file in H.
  rewrite H. f_equal. f_equal. lia.
Qed.

(** The theorem at a SignedData with two digests, one certificate and one
    attribute, between two other bytes. *)
Lemma parse_v2_signed_data_consumes_trailer_witness :
  let sd :=
    mk_v2_signed_data
      [mk_digest 0x0103 [x11; x12; x13]; mk_digest 0x0104 [x21]]
      [[x30; x82; x01]] [mk_add_attr 7 [x09]] in
  let D := encode_seq encode_digest (digests sd) in
  let C := encode_seq encode_certificate (certificates sd) in
  let A := encode_seq encode_add_attr (add_attrs sd) in
  let file :=
    [xee] ++ (len_prefixed D ++ len_prefixed C ++ len_prefixed A
              ++ zero_trailer) ++ [xff] in
  parse_v2_signed_data ample 64 0
    (mk_istream file (Z.of_nat (length [xee])) false) =
  (Ok sd,
   mk_istream file
     (Z.of_nat (length [xee])
      + (4 + Z.of_nat (length D) + (4 + Z.of_nat (length C))
         + (4 + Z.of_nat (length A)) + 4))
     false).
Proof.
  apply (parse_v2_signed_data_consumes_trailer (heap := ample) 64 0 zero_trailer
           (mk_v2_signed_data
              [mk_digest 0x0103 [x11; x12; x13]; mk_digest 0x0104 [x21]]
              [[x30; x82; x01]] [mk_add_attr 7 [x09]])
           [xee] [xff]).
  - reflexivity.
  - reflexivity.
  - reflexivity.
  - vm_compute. reflexivity.
  - apply Nat.leb_le. vm_compute. reflexivity.
Defined.

(** ** C2: the reverse byte scanner *)

(** C2 does not hold of the code.  The inner loop starts one index too
    low ([crbegin() + pat_size] tests the index [size - pat_size - 1]
    first), so that the occurrence that starts at the last byte of a
    window is never tested: a one-byte pattern that is the only byte of the
    stream is not found, and neither is an occurrence whose first byte
    alone lies in the earlier of two windows.  The carry of the first
    window is filled with zeros, and an occurrence can be reported that
    runs past the end of the stream. *)
Theorem reverse_find_bytes_misses_occurrence :
  fst (reverse_find_bytes [x41] (-1) (open [x41])) = Ok (-1)
  /\ fst (reverse_find_bytes [x41; x42] (-1) (open straddle_file)) = Ok (-1)
  /\ fst (reverse_find_bytes [x41; x42; x00] (-1) (open [x01; x41; x42]))
     = Ok 1.
Proof. split; [|split]; vm_compute; reflexivity. Qed.

(** ** C3: the budget of the sequence decoder *)

Lemma huge_certificate_length :
  Z.of_nat (length huge_certificate) = 4294967292.
Proof.
  unfold huge_certificate. rewrite repeat_length. apply Z2Nat.id. lia.
Qed.

Lemma decodes_two_records_wrapping {heap : allocator}
    (Hheap : forall n : Z, heap n = true) (body tail : list byte) :
  Z.of_nat (length body) = 4294967292 ->
  Z.of_nat (length tail) = 4 ->
  decodes (parse_len_prefixed_seq 2 8 (parse_certificate heap))
    (le_bytes 4 4294967292 ++ body ++ le_bytes 4 4 ++ tail) [body; tail].
Proof.
  intros Hb Ht. unfold parse_len_prefixed_seq.
  cbn [parse_len_prefixed_seq_loop].
  change (0 <? 8) with true. cbv iota.
  eapply decodes_bind; [apply decodes_read_le_4; lia|].
  eapply decodes_bind.
  { unfold parse_certificate. rewrite <- Hb.
    apply decodes_read_into_vector, Hheap. }
  cbv zeta.
  change (wrap 4 (0 + (4 + 4294967292))) with 0.
  change (8 <? 0) with false. change (0 <? 8) with true. cbv iota.
  eapply decodes_bind; [apply decodes_read_le_4; lia|].
  change (wrap 4 (0 + (4 + 4))) with 8.
  change (8 <? 8) with false. cbv iota.
  apply (decodes_bind_ret _ (fun x => ([] ++ [body]) ++ [x])).
  unfold parse_certificate. rewrite <- Ht.
  apply decodes_read_into_vector, Hheap.
Qed.

(** C3 does not hold of the code.  The running total is a [uint32_t]: a
    record of [0xFFFFFFFC] bytes adds [2^32] to it and leaves it at 0.
    With the budget 8, the decoder does not throw at that record, whose
    [4 + L] exceeds the budget; it reads a second record of four bytes,
    finds the total equal to the budget and returns both (in a run that
    has the memory for the first record). *)
Theorem parse_len_prefixed_seq_wraps :
  8 < 4 + Z.of_nat (length huge_certificate)
  /\ fst (parse_len_prefixed_seq 2 8 (parse_certificate ample)
            (open huge_record_stream))
     = Ok [huge_certificate; [x01; x02; x03; x04]].
Proof.
  split; [rewrite huge_certificate_length; lia|].
  unfold huge_record_stream.
  rewrite (decodes_open _ _ _
             (decodes_two_records_wrapping (heap := ample)
                (fun _ => eq_refl) huge_certificate
                [x01; x02; x03; x04] huge_certificate_length eq_refl)).
  reflexivity.
Qed.

(** ** C4: the v2 pair and the budget of its decoder *)


(** A turn of the walk on a v2 pair. *)
Lemma walk_pair_v2 {heap : allocator} (fuel : nat) (si : siginfo)
    (pre rest : list byte) (pair_len v2_block_len : Z) :
  failbit (ifs_ si) = false ->
  content (ifs_ si) =
    pre ++ le_bytes 8 pair_len ++ le_bytes 4 v2_id
    ++ le_bytes 4 v2_block_len ++ rest ->
  0 <= pair_len < 2 ^ 64 ->
  0 <= v2_block_len < 2 ^ 32 ->
  let i := Z.of_nat (length pre) in
  walk_pair heap fuel i si =
  match parse_v2_block heap fuel v2_block_len
          (mk_istream (content (ifs_ si)) (i + 16) false) with
  | (Ok b, s') =>
      (Ok (next_pair i pair_len),
       mk_siginfo s' (i + 12) (v3_block_pos_ si) (v3_1_block_pos_ si) b)
  | (Throw e, s') =>
      (Throw e,
       mk_siginfo s' (i + 12) (v3_block_pos_ si) (v3_1_block_pos_ si)
         (v2_block_ si))
  | (OutOfFuel, s') =>
      (OutOfFuel,
       mk_siginfo s' (i + 12) (v3_block_pos_ si) (v3_1_block_pos_ si)
         (v2_block_ si))
  end.
Proof.
  intros Hgood Hfile Hl Hbl i.
  destruct si as [[c p f] p2 p3 p31 b].
  cbn [ifs_ content failbit v2_block_pos_ v3_block_pos_ v3_1_block_pos_
         v2_block_] in *.
  subst f c. unfold i.
  rewrite (walk_pair_header fuel pre (le_bytes 4 v2_block_len ++ rest)
             pair_len v2_id p p2 p3 p31 b Hl
             ltac:(vm_compute; split; congruence)).
  fold i.
  set (file := pre ++ le_bytes 8 pair_len ++ le_bytes 4 v2_id
               ++ le_bytes 4 v2_block_len ++ rest).
  unfold classify_pair. rewrite Z.eqb_refl.
  unfold bind at 1.
  erewrite bind_ok by (apply on_ifs_run, tellg_at).
  erewrite bind_ok by reflexivity.
  unfold set_v2_block_pos; cbn [ifs_ v3_block_pos_ v3_1_block_pos_ v2_block_].
  erewrite bind_ok
    by (apply on_ifs_run;
        apply (decodes_run _ _ _ file
                 (pre ++ le_bytes 8 pair_len ++ le_bytes 4 v2_id) rest _
                 (decodes_read_le_4 v2_block_len Hbl));
        [ unfold file; rewrite <- !app_assoc; reflexivity
        | rewrite !length_app, !le_bytes_length, !Nat2Z.inj_add;
          unfold i; lia ]).
  rewrite le_bytes_length.
  replace (i + 12 + Z.of_nat 4) with (i + 16) by lia.
  unfold bind, on_ifs. cbn [ifs_ v2_block_pos_ v3_block_pos_ v3_1_block_pos_
                             v2_block_].
  destruct (parse_v2_block heap fuel v2_block_len
              (mk_istream file (i + 16) false))
    as [[blk|e|] s']; reflexivity.
Qed.



(** ** C5: the round trip *)

(** C5, as stated, fails: the bytes that the layout of the spec gives for a
    block with one signer are not decoded back to that block; the decoder
    reads four bytes behind the attribute sequence, falls out of step and
    runs off the end of the bytes. *)
Lemma spec_layout_round_trip_fails :
  let bytes := encode_v2_block [] sample_block in
  fst (parse_v2_block ample 8 (Z.of_nat (length bytes)) (open bytes))
  = Throw ios_failure
  /\ fst (parse_v2_block ample 8 (Z.of_nat (length bytes)) (open bytes))
     <> Ok sample_block.
Proof. vm_compute. split; [reflexivity | discriminate]. Qed.

(** C5, amended: for every well-formed v2 block (every id a [u32], the
    encoding shorter than [2^32] bytes), decoding the bytes of the layout
    in which each SignedData carries one more 4-byte field behind its
    attribute sequence reproduces the block exactly - the signers and, for
    each, digests, certificates, attributes, signatures and public key -
    and consumes exactly those bytes.  The allocator is one that grants
    the memory that the records ask for. *)
Theorem parse_v2_block_round_trip {heap : allocator} (fuel : nat)
    (trailer : list byte) (b : v2_block) (pre rest : list byte) :
  (forall n : Z, heap n = true) ->
  length trailer = 4%nat ->
  ids_of_block_ok b = true ->
  Z.of_nat (length (encode_v2_block trailer b)) < 2 ^ 32 ->
  (length (encode_v2_block trailer b) <= fuel)%nat ->
  let bytes := encode_v2_block trailer b in
  let file := pre ++ bytes ++ rest in
  parse_v2_block heap fuel (Z.of_nat (length bytes))
    (mk_istream file (Z.of_nat (length pre)) false) =
  (Ok b,
   mk_istream file (Z.of_nat (length pre) + Z.of_nat (length bytes)) false).
Proof.
  intros Hheap Ht Hids Hb Hfuel bytes file.
  exact (decodes_parse_v2_block Hheap fuel trailer b Ht Hids Hb Hfuel pre
           rest).
Qed.

(** The theorem at a block with one signer: two digests, one certificate,
    no attribute, one signature and a public key. *)
Lemma parse_v2_block_round_trip_witness :
  let bytes := encode_v2_block zero_trailer sample_block in
  let file := [xee] ++ bytes ++ [xff] in
  parse_v2_block ample 128 (Z.of_nat (length bytes))
    (mk_istream file (Z.of_nat (length [xee])) false) =
  (Ok sample_block,
   mk_istream file (Z.of_nat (length [xee]) + Z.of_nat (length bytes))
     false).
Proof.
  apply (parse_v2_block_round_trip (heap := ample) 128 zero_trailer
           sample_block [xee] [xff]).
  - reflexivity.
  - reflexivity.
  - reflexivity.
  - vm_compute. reflexivity.
  - apply Nat.leb_le. vm_compute. reflexivity.
Defined.

(** ** C6: the block after a failed parse *)

(** C6, as stated, fails: on a file whose v2 pair holds one signer and
    whose pair length sends the walk one byte back, [parse] throws (the
    seek to position [-1] fails) after the block has been decoded and
    stored: the block seen through [get_v2_block] has a signer. *)
Lemma failed_parse_leaves_block :
  let si := new_siginfo backward_pair_file in
  fst (parse ample 4 si) = Throw ios_failure
  /\ signers (get_v2_block si) = []
  /\ signers (get_v2_block (snd (parse ample 4 si))) = [bare_signer].
Proof. vm_compute. repeat split. Qed.

(** The part of [parse] that comes before the walk. *)
Lemma parse_after_locate (heap : allocator) (fuel : nat) (si : siginfo) :
  parse heap fuel si =
  match locate si with
  | (Ok (bound, start), si0) => walk_pairs heap fuel bound start si0
  | (Throw e, si0) => (Throw e, si0)
  | (OutOfFuel, si0) => (OutOfFuel, si0)
  end.
Proof.
  unfold parse, locate, bind.
  repeat (match goal with
          | |- context [match on_ifs ?m ?s with _ => _ end] =>
              destruct (on_ifs m s) as [[?|?|] ?]
          | |- context [if ?c then _ else _] => destruct c
          end; try reflexivity).
Qed.

Lemma keeps_members_on_ifs {A} (m : M istream A) :
  stream_op m -> keeps_members (on_ifs m).
Proof.
  intros Hm si si' r H.
  apply on_ifs_inv in H. destruct H as (s' & H & ->).
  destruct (Hm _ _ _ H) as (C & _ & G).
  split; [repeat split; exact C | exact G].
Qed.

Lemma keeps_members_bind {A B} (m : M siginfo A) (k : A -> M siginfo B) :
  keeps_members m -> (forall a, keeps_members (k a)) ->
  keeps_members (bind m k).
Proof.
  intros Hm Hk si si' r H.
  apply bind_inv in H.
  destruct H as [(a & s1 & H1 & H2) | [(e & H1 & ->) | (H1 & ->)]].
  - destruct (Hm _ _ _ H1) as [F1 G1]. destruct (Hk a _ _ _ H2) as [F2 G2].
    split; [eapply same_fields_trans; eassumption|].
    intros b Hb. rewrite (G2 b Hb). exact (G1 a eq_refl).
  - destruct (Hm _ _ _ H1) as [F1 _]. split; [exact F1 | discriminate].
  - destruct (Hm _ _ _ H1) as [F1 _]. split; [exact F1 | discriminate].
Qed.

Lemma keeps_members_throw {A} (e : exn) : keeps_members (@throw siginfo A e).
Proof.
  intros si si' r H. inversion H; subst.
  split; [apply same_fields_refl | discriminate].
Qed.

Lemma keeps_members_ret {A} (a : A) : keeps_members (@ret siginfo A a).
Proof.
  intros si si' r H. inversion H; subst.
  split; [apply same_fields_refl | reflexivity].
Qed.

Lemma keeps_members_locate : keeps_members locate.
Proof.
  unfold locate.
  apply keeps_members_bind;
    [apply keeps_members_on_ifs; auto with stream | intros p].
  destruct (p =? -1); [apply keeps_members_throw|]. cbv zeta.
  do 6 (apply keeps_members_bind;
          [apply keeps_members_on_ifs; auto with stream | intros ?]).
  match goal with |- context [negb ?c] => destruct c end; cbn [negb];
    [|apply keeps_members_throw].
  do 2 (apply keeps_members_bind;
          [apply keeps_members_on_ifs; auto with stream | intros ?]).
  apply keeps_members_ret.
Qed.

(** On a stream that has failed, [parse] ends before the walk. *)
Lemma locate_on_failed_stream (si : siginfo) :
  failbit (ifs_ si) = true -> fst (locate si) = Throw ios_failure.
Proof.
  intros F. destruct si as [s p2 p3 p31 b]. cbn [ifs_] in F.
  assert (E : reverse_find_bytes eocd_magic (-1) s = (Throw ios_failure, s)).
  { unfold reverse_find_bytes. change (-1 =? -1) with true. cbv iota.
    unfold bind at 1, seekg_end, sentry. rewrite F. reflexivity. }
  unfold locate. unfold bind at 1.
  rewrite (on_ifs_run _ _ _ _ p2 p3 p31 b E). reflexivity.
Qed.

(** A turn of the walk on a good stream: it leaves in the object the block
    that [block_of_turn] gives, or the block that was there when it gives
    none; the content is kept, and the stream is good when the turn
    returns. *)
Lemma walk_pair_turn (heap : allocator) (fuel : nat) (i : Z)
    (c : list byte) (p p2 p3 p31 : Z) (b : v2_block) (r : outcome Z)
    (si' : siginfo) :
  walk_pair heap fuel i (mk_siginfo (mk_istream c p false) p2 p3 p31 b)
  = (r, si') ->
  content (ifs_ si') = c
  /\ v2_block_ si' =
     match block_of_turn heap fuel c i with
     | Some b' => b'
     | None => b
     end
  /\ (forall i', r = Ok i' -> failbit (ifs_ si') = false).
Proof.
  intros E. unfold block_of_turn. unfold walk_pair in E.
  destruct (Z.ltb_spec i 0) as [Hneg|Hpos].
  { unfold bind at 1 in E.
    rewrite (on_ifs_run _ _ _ _ p2 p3 p31 b (seekg_negative c p i Hneg))
      in E.
    destruct (Z.leb_spec 0 i); [lia|]. inversion E; subst. cbn.
    repeat split. discriminate. }
  erewrite bind_ok in E by (apply on_ifs_run, seekg_at; exact Hpos).
  destruct (Z.leb_spec 0 i); [|lia]. cbn [andb].
  destruct (Z.leb_spec (i + 8) (Z.of_nat (length c))) as [H8|H8].
  2:{ unfold bind at 1 in E.
      rewrite (on_ifs_run _ _ _ _ p2 p3 p31 b
                 (read_le_short 8 c i ltac:(lia) ltac:(lia))) in E.
      destruct (Z.leb_spec (i + 16) (Z.of_nat (length c))); [lia|].
      inversion E; subst. cbn. repeat split. discriminate. }
  erewrite bind_ok in E
    by (apply on_ifs_run, read_le_at; [exact Hpos | exact H8]).
  change (Z.of_nat 8) with 8 in E.
  destruct (Z.leb_spec (i + 12) (Z.of_nat (length c))) as [H12|H12].
  2:{ unfold bind at 1 in E.
      rewrite (on_ifs_run _ _ _ _ p2 p3 p31 b
                 (read_le_short 4 c (i + 8) ltac:(lia) ltac:(lia))) in E.
      destruct (Z.leb_spec (i + 16) (Z.of_nat (length c))); [lia|].
      inversion E; subst. cbn. repeat split. discriminate. }
  erewrite bind_ok in E
    by (apply on_ifs_run, read_le_at;
        [lia | change (Z.of_nat 4) with 4; lia]).
  change (Z.of_nat 4) with 4 in E. fold (u32_at c (i + 8)) in E.
  unfold classify_pair in E.
  destruct (u32_at c (i + 8) =? v2_id).
  2:{ rewrite andb_false_r.
      destruct (u32_at c (i + 8) =? v3_id);
        [|destruct (u32_at c (i + 8) =? v3_1_id)];
        inversion E; subst; cbn; repeat split. }
  rewrite andb_true_r.
  unfold bind at 1 in E.
  erewrite bind_ok in E by (apply on_ifs_run, tellg_at).
  erewrite bind_ok in E by reflexivity.
  unfold set_v2_block_pos in E;
    cbn [ifs_ v3_block_pos_ v3_1_block_pos_ v2_block_] in E.
  destruct (Z.leb_spec (i + 16) (Z.of_nat (length c))) as [H16|H16].
  2:{ unfold bind at 1 in E.
      rewrite (on_ifs_run _ _ _ _ _ _ _ _
                 (read_le_short 4 c (i + 8 + 4) ltac:(lia) ltac:(lia)))
        in E.
      inversion E; subst. cbn. repeat split. discriminate. }
  erewrite bind_ok in E
    by (apply on_ifs_run, read_le_at;
        [lia | change (Z.of_nat 4) with 4; lia]).
  change (Z.of_nat 4) with 4 in E.
  replace (i + 8 + 4) with (i + 12) in E by lia.
  replace (i + 12 + 4) with (i + 16) in E by lia.
  fold (u32_at c (i + 12)) in E.
  unfold bind, on_ifs in E.
  cbn [ifs_ v2_block_pos_ v3_block_pos_ v3_1_block_pos_ v2_block_] in E.
  destruct (parse_v2_block heap fuel (u32_at c (i + 12))
              (mk_istream c (i + 16) false)) as [[blk|e|] s'] eqn:D;
    destruct (stream_op_parse_v2_block _ _ _ _ _ D) as (C & _ & G);
    cbn [content] in C; inversion E; subst; cbn;
    repeat split; try exact C; try discriminate.
  intros _ _. exact (G blk eq_refl).
Qed.

(** The block that a walk leaves on a good stream: the block that was
    there, or the block that one of its turns has stored. *)
Lemma walk_pairs_block (heap : allocator) (bound : Z) :
  forall (fuel : nat) (i : Z) (si : siginfo),
    failbit (ifs_ si) = false ->
    let si' := snd (walk_pairs heap fuel bound i si) in
    v2_block_ si' = v2_block_ si
    \/ exists (f : nat) (j : Z),
         In (f, j) (walk_turns heap fuel bound i si)
         /\ block_of_turn heap f (content (ifs_ si)) j = Some (v2_block_ si').
Proof.
  induction fuel as [|fuel IH]; intros i si Hgood; cbn [walk_pairs walk_turns];
    destruct (i <? bound); try (left; reflexivity).
  destruct si as [[c p f] p2 p3 p31 b]. cbn [ifs_ failbit] in Hgood. subst f.
  cbv zeta. cbn [ifs_ content v2_block_]. unfold bind.
  destruct (walk_pair heap (S fuel) i
              (mk_siginfo (mk_istream c p false) p2 p3 p31 b))
    as [[i'|e|] si1] eqn:E;
    destruct (walk_pair_turn heap (S fuel) i c p p2 p3 p31 b _ _ E)
      as (C & B & G); cbn [fst snd] in *.
  - destruct (IH i' si1 (G i' eq_refl)) as [K | (f & j & Hin & Hb)];
      cbv zeta in *.
    + rewrite K, B.
      destruct (block_of_turn heap (S fuel) c i) as [b'|] eqn:T;
        [right | left; reflexivity].
      exists (S fuel), i. split; [left; reflexivity | exact T].
    + right. exists f, j. split; [right; exact Hin|].
      rewrite <- C. exact Hb.
  - rewrite B.
    destruct (block_of_turn heap (S fuel) c i) as [b'|] eqn:T;
      [right | left; reflexivity].
    exists (S fuel), i. split; [left; reflexivity | exact T].
  - rewrite B.
    destruct (block_of_turn heap (S fuel) c i) as [b'|] eqn:T;
      [right | left; reflexivity].
    exists (S fuel), i. split; [left; reflexivity | exact T].
Qed.

(** C6, amended: if [parse] fails with any error, the block seen through
    [get_v2_block] is never a partially decoded one: it is the block the
    object held before the call (the empty one for a new object), or the
    block that a turn of the walk of this call has stored, which is the
    block that the v2 block decoder has returned, in full, for the v2 pair
    of that turn: started behind the [u32] at the head of the value of the
    pair, with that [u32] as its budget. *)
Theorem failed_parse_block_kept_or_stored {heap : allocator} (fuel : nat)
    (si si' : siginfo) (e : exn) :
  parse heap fuel si = (Throw e, si') ->
  get_v2_block si' = get_v2_block si
  \/ exists (f : nat) (i : Z),
       In (f, i) (turns_of_parse heap fuel si)
       /\ block_of_turn heap f (content (ifs_ si)) i
          = Some (get_v2_block si').
Proof.
  intros H. rewrite parse_after_locate in H. unfold turns_of_parse.
  unfold get_v2_block.
  destruct (locate si) as [[[bound start]|e0|] si0] eqn:L.
  - destruct (keeps_members_locate _ _ _ L) as [(C & _ & _ & _ & B) G].
    specialize (G _ eq_refl).
    assert (Hgood : failbit (ifs_ si0) = false).
    { rewrite G. destruct (failbit (ifs_ si)) eqn:F; [|reflexivity].
      pose proof (locate_on_failed_stream si F) as T. rewrite L in T.
      discriminate. }
    pose proof (walk_pairs_block heap bound fuel start si0 Hgood) as W.
    cbv zeta in W. rewrite H in W. cbn [snd] in W.
    rewrite B, C in W. exact W.
  - inversion H; subst.
    destruct (keeps_members_locate _ _ _ L) as [(_ & _ & _ & _ & B) _].
    left. exact B.
  - discriminate.
Qed.

(** The theorem at a parse that throws inside the decoder of the v2 pair,
    where the block is the one held before, and at a parse that throws
    behind a v2 pair, where the block is the one that the turn at the
    position 0 has stored. *)
Lemma failed_parse_block_kept_or_stored_witness :
  (get_v2_block (snd (parse ample 4 (new_siginfo overrun_v2_file))) =
   get_v2_block (new_siginfo overrun_v2_file)
   \/ exists (f : nat) (i : Z),
        In (f, i) (turns_of_parse ample 4 (new_siginfo overrun_v2_file))
        /\ block_of_turn ample f
             (content (ifs_ (new_siginfo overrun_v2_file))) i
           = Some (get_v2_block
                     (snd (parse ample 4 (new_siginfo overrun_v2_file)))))
  /\ turns_of_parse ample 4 (new_siginfo backward_pair_file)
     = [(4%nat, 0); (3%nat, -1)]
  /\ block_of_turn ample 4 backward_pair_file 0 = Some one_signer_block.
Proof.
  split; [|split; vm_compute; reflexivity].
  apply (failed_parse_block_kept_or_stored (heap := ample) 4
           (new_siginfo overrun_v2_file) _ incomplete_sequence).
  vm_compute. reflexivity.
Defined.

(** ** C7: the presence flags before any successful parse *)

(** C7, as stated, fails: on a file whose v2 pair declares a sequence
    shorter than its signer, the only call of [parse] throws ("Incomplete
    sequence") and [has_v2_block] answers true afterwards: the position is
    recorded before the decoder runs. *)
Lemma failed_parse_sets_has_v2_block :
  let si := snd (parse ample 4 (new_siginfo overrun_v2_file)) in
  never_parsed ample si /\ has_v2_block si = true.
Proof.
  split; [|reflexivity].
  apply (never_parsed_failed ample 4 (new_siginfo overrun_v2_file) _
           incomplete_sequence).
  - apply never_parsed_new.
  - vm_compute. reflexivity.
Qed.

(** C7, amended: for every object on which [parse] was never called, or on
    which every call of [parse] so far has failed with a [parse_error]
    (no end-of-central-directory magic, or no signing block magic where
    expected), [has_v2_block] and [has_v3_block] answer false. *)
Theorem flags_false_after_parse_errors {heap : allocator} (si : siginfo) :
  only_parse_errors heap si ->
  has_v2_block si = false /\ has_v3_block si = false.
Proof.
  induction 1 as [file | fuel si si' e Hsi IH Hparse He].
  - split; reflexivity.
  - destruct (locator_op_parse (heap := heap) fuel _ _ _ Hparse) as [_ F].
    destruct (F e eq_refl He) as (_ & F2 & F3 & _).
    unfold has_v2_block, has_v3_block in *. rewrite F2, F3. exact IH.
Qed.

(** The theorem after one call on a file that is no archive. *)
Lemma flags_false_after_parse_errors_witness :
  has_v2_block (snd (parse ample 1 (new_siginfo not_a_zip))) = false
  /\ has_v3_block (snd (parse ample 1 (new_siginfo not_a_zip))) = false.
Proof.
  apply (flags_false_after_parse_errors (heap := ample)).
  apply (only_parse_errors_failed ample 1 (new_siginfo not_a_zip) _
           not_a_zip_file).
  - apply only_parse_errors_new.
  - vm_compute. reflexivity.
  - reflexivity.
Defined.

(** ** C8: one v2 pair with no signer *)

Lemma to_streamoff_small (z : Z) :
  - 2 ^ 63 <= z < 2 ^ 63 -> to_streamoff z = z.
Proof.
  intros H. unfold to_streamoff. rewrite Z.mod_small by lia. lia.
Qed.

Lemma walk_pairs_done {heap : allocator} (fuel : nat) (bound i : Z)
    (si : siginfo) :
  bound <= i -> walk_pairs heap fuel bound i si = (Ok tt, si).
Proof.
  intros H. destruct fuel; cbn [walk_pairs];
    destruct (Z.ltb_spec i bound); (lia || reflexivity).
Qed.

(** [parse] on a new object, for an archive whose signing block holds the
    one pair [pair_len = 8], [id = 0x7109871a], value = the [u32] length 0
    of an empty signer sequence, once the scanner has found the
    end-of-central-directory record. *)
Lemma parse_empty_v2_pair_run {heap : allocator} (fuel : nat)
    (pre cdir fields comment : list byte) (s1 : istream) :
  let file :=
    archive pre (encode_pair 8 v2_id (le_bytes 4 0)) cdir fields comment in
  let i := Z.of_nat (length pre) in
  length fields = 12%nat ->
  i + 40 < 2 ^ 32 ->
  reverse_find_bytes eocd_magic (-1) (open file) =
    (Ok (i + 40 + Z.of_nat (length cdir)), s1) ->
  parse heap (S fuel) (new_siginfo file) =
  (Ok tt,
   mk_siginfo (mk_istream file (i + 16) false) (i + 12) (-1) (-1)
     (mk_v2_block [])).
Proof.
  intros file i Hf Hcd Hscan.
  assert (Hlen : length (encode_pair 8 v2_id (le_bytes 4 0)) = 16%nat)
    by reflexivity.
  assert (Hfile : file =
    pre ++ le_bytes 8 8 ++ le_bytes 4 v2_id ++ le_bytes 4 0
    ++ le_bytes 8 40 ++ apk_magic ++ cdir ++ eocd_magic ++ fields
    ++ le_bytes 4 (i + 40) ++ comment).
  { unfold file, archive. rewrite Hlen. unfold encode_pair.
    rewrite <- !app_assoc.
    replace (Z.of_nat 16 + 24) with 40 by reflexivity.
    replace (Z.of_nat (length pre) + Z.of_nat 16 + 24) with (i + 40)
      by (unfold i; lia).
    reflexivity. }
  destruct (stream_op_reverse_find_bytes _ _ _ _ _ Hscan) as (C1 & _ & G1).
  specialize (G1 _ eq_refl).
  destruct s1 as [c1 p1 f1]. cbn [content failbit open] in C1, G1.
  subst c1 f1.
  unfold parse, new_siginfo.
  erewrite bind_ok by (apply on_ifs_run; exact Hscan).
  destruct (Z.eqb_spec (i + 40 + Z.of_nat (length cdir)) (-1));
    [unfold i in *; lia|].
  cbv zeta.
  erewrite bind_ok by (apply on_ifs_run, seekg_at; unfold i; lia).
  erewrite bind_ok
    by (apply on_ifs_run;
        apply (decodes_run _ _ _ file
                 (pre ++ le_bytes 8 8 ++ le_bytes 4 v2_id ++ le_bytes 4 0
                  ++ le_bytes 8 40 ++ apk_magic ++ cdir ++ eocd_magic
                  ++ fields) comment _
                 (decodes_read_le_4 (i + 40) ltac:(unfold i; lia)));
        [ rewrite Hfile, <- !app_assoc; reflexivity
        | rewrite !length_app, !le_bytes_length, Hf, !Nat2Z.inj_add;
          change (length apk_magic) with 16%nat;
          change (length eocd_magic) with 4%nat; unfold i; lia ]).
  erewrite bind_ok by (apply on_ifs_run, seekg_at; unfold i; lia).
  erewrite bind_ok by (apply on_ifs_run, tellg_at).
  erewrite bind_ok by (apply on_ifs_run, seekg_at; unfold i; lia).
  erewrite bind_ok
    by (apply on_ifs_run;
        apply (decodes_run _ _ _ file
                 (pre ++ le_bytes 8 8 ++ le_bytes 4 v2_id ++ le_bytes 4 0
                  ++ le_bytes 8 40)
                 (cdir ++ eocd_magic ++ fields ++ le_bytes 4 (i + 40)
                  ++ comment) _ (decodes_read apk_magic));
        [ rewrite Hfile, <- !app_assoc; reflexivity
        | rewrite !length_app, !le_bytes_length, !Nat2Z.inj_add;
          unfold i; lia ]).
  replace (bytes_eqb apk_magic apk_magic) with true by reflexivity.
  cbn [negb].
  erewrite bind_ok by (apply on_ifs_run, seekg_at; unfold i; lia).
  erewrite bind_ok
    by (apply on_ifs_run;
        apply (decodes_run _ _ _ file
                 (pre ++ le_bytes 8 8 ++ le_bytes 4 v2_id ++ le_bytes 4 0)
                 (apk_magic ++ cdir ++ eocd_magic ++ fields
                  ++ le_bytes 4 (i + 40) ++ comment) _
                 (decodes_read_le_8 40 ltac:(lia)));
        [ rewrite Hfile, <- !app_assoc; reflexivity
        | rewrite !length_app, !le_bytes_length, !Nat2Z.inj_add;
          unfold i; lia ]).
  rewrite (to_streamoff_small 40) by lia.
  rewrite to_streamoff_small by (unfold i; lia).
  replace (i + 40 - 40) with i by lia.
  cbn [walk_pairs].
  destruct (Z.ltb_spec i (i + 40 - 16 - 8)); [|lia].
  pose proof (walk_pair_v2 (heap := heap) (S fuel)
                (mk_siginfo
                   (mk_istream file
                      (i + 40 - 16 - 8 + Z.of_nat (length (le_bytes 8 40)))
                      false) (-1) (-1) (-1) (mk_v2_block []))
                pre
                (le_bytes 8 40 ++ apk_magic ++ cdir ++ eocd_magic ++ fields
                 ++ le_bytes 4 (i + 40) ++ comment)
                8 0 eq_refl Hfile ltac:(lia) ltac:(lia)) as Hw.
  cbv zeta in Hw.
  cbn [ifs_ content v3_block_pos_ v3_1_block_pos_ v2_block_] in Hw.
  fold i in Hw.
  erewrite bind_ok by (rewrite Hw; reflexivity).
  rewrite next_pair_no_wrap by (unfold i; lia).
  apply walk_pairs_done. lia.
Qed.

(** Where the scanner finds the end-of-central-directory record, the code
    does what the scenario says: for an archive whose signing block holds
    exactly one id/value pair, a v2 pair whose value encodes no signer (the
    [u32] length 0 of the signer sequence), [parse] on a new object
    succeeds, [has_v2_block] answers true and the signer list of the
    decoded block is empty.  The archive is any that ends with its
    end-of-central-directory record, of at most 4096 bytes with its
    comment, in which the magic of the record stands at the start only. *)
Lemma parse_empty_v2_pair {heap : allocator} (fuel : nat)
    (pre cdir fields comment : list byte) :
  let file :=
    archive pre (encode_pair 8 v2_id (le_bytes 4 0)) cdir fields comment in
  let cd := Z.of_nat (length pre) + 40 in
  let record := eocd_magic ++ fields ++ le_bytes 4 cd ++ comment in
  length fields = 12%nat ->
  cd < 2 ^ 32 ->
  (length record <= 4096)%nat ->
  (forall i : nat, (0 < i)%nat ->
     firstn 4 (skipn i (record ++ [x00; x00; x00])) <> eocd_magic) ->
  let si' := snd (parse heap (S fuel) (new_siginfo file)) in
  fst (parse heap (S fuel) (new_siginfo file)) = Ok tt
  /\ has_v2_block si' = true
  /\ signers (get_v2_block si') = [].
Proof.
  intros file cd record Hf Hcd Hrec Hno si'. unfold si'.
  set (front := pre ++ encode_pair 8 v2_id (le_bytes 4 0) ++ le_bytes 8 40
                ++ apk_magic ++ cdir).
  assert (Hfile : file = front ++ record).
  { unfold file, archive, front, record, cd.
    change (length (encode_pair 8 v2_id (le_bytes 4 0))) with 16%nat.
    rewrite <- !app_assoc.
    replace (Z.of_nat 16 + 24) with 40 by reflexivity.
    replace (Z.of_nat (length pre) + Z.of_nat 16 + 24)
      with (Z.of_nat (length pre) + 40) by lia.
    reflexivity. }
  assert (Hfront : Z.of_nat (length front) = cd + Z.of_nat (length cdir)).
  { unfold front, cd. rewrite !length_app, !le_bytes_length.
    change (length (encode_pair 8 v2_id (le_bytes 4 0))) with 16%nat.
    change (length apk_magic) with 16%nat. lia. }
  assert (Hlo : (2 <= length record)%nat)
    by (unfold record; rewrite length_app; cbn [length eocd_magic]; lia).
  pose proof (reverse_find_bytes_last_window eocd_magic front record
                ltac:(discriminate) (conj Hlo Hrec) eq_refl Hno) as Hscan.
  rewrite <- Hfile, Hfront in Hscan.
  pose proof (parse_empty_v2_pair_run (heap := heap) fuel pre cdir fields
                comment _ Hf Hcd Hscan) as H.
  cbv zeta in H. fold file in H. rewrite H.
  unfold has_v2_block, get_v2_block.
  cbn [fst snd v2_block_pos_ v2_block_ signers].
  split; [reflexivity | split; [|reflexivity]].
  destruct (Z.eqb_spec (Z.of_nat (length pre) + 12) (-1)); [lia|reflexivity].
Qed.

(** The lemma at the smallest archive around such a pair. *)
Lemma parse_empty_v2_pair_smallest :
  fst (parse ample 1 (new_siginfo empty_v2_file)) = Ok tt
  /\ has_v2_block (snd (parse ample 1 (new_siginfo empty_v2_file))) = true
  /\ signers (get_v2_block (snd (parse ample 1 (new_siginfo empty_v2_file))))
     = [].
Proof.
  apply (parse_empty_v2_pair (heap := ample) 0 [] [] (repeat x00 12)
           [x00; x00]).
  - reflexivity.
  - vm_compute. reflexivity.
  - apply Nat.leb_le. vm_compute. reflexivity.
  - intros i Hi.
    do 26 (destruct i as [|i]; [first [lia | vm_compute; discriminate]|]).
    vm_compute. discriminate.
Defined.

(** C8 does not hold of the code.  The archive is a v2 pair with no signer
    in front of an end-of-central-directory record of 4097 bytes, that of
    a comment of 4075 bytes: the magic of the record stands 4097 bytes
    before the end of the file, at the last position of the second window
    of the scanner, which the scanner never tests (the defect of C2).
    [parse] throws "Not a zip file" and [has_v2_block] answers false.  With
    a comment of 4074 bytes the same archive is parsed as the scenario
    says. *)
Theorem parse_misses_empty_v2_pair :
  let lost := parse ample 1 (new_siginfo (commented_v2_file 4075)) in
  let found := parse ample 1 (new_siginfo (commented_v2_file 4074)) in
  fst lost = Throw not_a_zip_file
  /\ has_v2_block (snd lost) = false
  /\ fst found = Ok tt
  /\ has_v2_block (snd found) = true
  /\ signers (get_v2_block (snd found)) = [].
Proof. vm_compute. repeat split. Qed.

(** ** C9: the empty pattern *)

(** C9, as stated, fails: with a pattern of length 0 the scanner throws
    nothing; it returns [-1]. *)
Lemma empty_pattern_not_an_error :
  fst (reverse_find_bytes [] (-1) (open [x50; x4b; x05; x06])) = Ok (-1)
  /\ ~ raises (reverse_find_bytes [] (-1)) (open [x50; x4b; x05; x06]).
Proof.
  split; [reflexivity|]. intros [e He]. vm_compute in He. discriminate.
Qed.

(** C9, amended: called on a good stream with a pattern of length 0 (and
    the default start or a start that is not negative), the scanner
    returns [-1], its "not found", without reading the stream: it has only
    moved the get position to the start. *)
Theorem reverse_find_bytes_empty_pattern (s : istream) (start : Z) :
  failbit s = false ->
  -1 <= start ->
  reverse_find_bytes [] start s =
  (Ok (-1), set_gpos (if start =? -1 then size s else start) s).
Proof.
  intros Hgood Hstart. unfold reverse_find_bytes, bind.
  destruct (Z.eqb_spec start (-1)) as [->|Hne].
  - unfold seekg_end, sentry. rewrite Hgood. reflexivity.
  - unfold seekg, sentry. rewrite Hgood.
    destruct (Z.ltb_spec start 0); [lia | reflexivity].
Qed.

(** The theorem at a start position in the middle of the stream. *)
Lemma reverse_find_bytes_empty_pattern_witness :
  reverse_find_bytes [] 2 (open [x50; x4b; x05; x06]) =
  (Ok (-1),
   set_gpos (if 2 =? -1 then size (open [x50; x4b; x05; x06]) else 2)
     (open [x50; x4b; x05; x06])).
Proof.
  apply reverse_find_bytes_empty_pattern; [reflexivity | lia].
Defined.

(** ** C10: pairs with an unrecognized id *)

(** What the turn does with a pair whose id is none of [0x7109871a],
    [0xf05368c0], [0x1b93ad61]: it throws nothing, leaves the three
    recorded positions and the block as they were, leaves the stream at the
    first byte of the value (so that nothing of the value is read), and
    yields [i + (pair_length + 8)] in the 64-bit arithmetic of the code,
    which is that very sum as long as it stays below [2^63]. *)
Lemma walk_pair_skips_unknown_id {heap : allocator} (fuel : nat) (si : siginfo)
    (pre rest : list byte) (pair_len id : Z) :
  failbit (ifs_ si) = false ->
  content (ifs_ si) = pre ++ le_bytes 8 pair_len ++ le_bytes 4 id ++ rest ->
  0 <= pair_len < 2 ^ 64 ->
  0 <= id < 2 ^ 32 ->
  id <> v2_id -> id <> v3_id -> id <> v3_1_id ->
  let i := Z.of_nat (length pre) in
  walk_pair heap fuel i si =
  (Ok (next_pair i pair_len),
   mk_siginfo (mk_istream (content (ifs_ si)) (i + 12) false)
     (v2_block_pos_ si) (v3_block_pos_ si) (v3_1_block_pos_ si)
     (v2_block_ si))
  /\ (i + pair_len + 8 < 2 ^ 63 -> next_pair i pair_len = i + (pair_len + 8)).
Proof.
  intros Hgood Hfile Hl Hid H2 H3 H31 i.
  split; [|intros Hb; apply next_pair_no_wrap; unfold i; lia].
  destruct si as [[c p f] p2 p3 p31 b].
  cbn [ifs_ content failbit v2_block_pos_ v3_block_pos_ v3_1_block_pos_
         v2_block_] in *.
  subst f c. unfold i.
  rewrite (walk_pair_header fuel pre rest pair_len id p p2 p3 p31 b Hl Hid).
  unfold classify_pair.
  destruct (Z.eqb_spec id v2_id); [contradiction|].
  destruct (Z.eqb_spec id v3_id); [contradiction|].
  destruct (Z.eqb_spec id v3_1_id); [contradiction|].
  reflexivity.
Qed.

(** The lemma at the only pair of a file, whose id is [0x42726563]. *)
Lemma walk_pair_skips_unknown_id_example :
  walk_pair ample 1 (Z.of_nat (length (@nil byte)))
    (new_siginfo unknown_pair_file) =
  (Ok (next_pair (Z.of_nat (length (@nil byte))) 8),
   mk_siginfo
     (mk_istream (content (ifs_ (new_siginfo unknown_pair_file)))
        (Z.of_nat (length (@nil byte)) + 12) false)
     (-1) (-1) (-1) (mk_v2_block []))
  /\ next_pair 0 8 = 16.
Proof.
  destruct (walk_pair_skips_unknown_id (heap := ample) 1
              (new_siginfo unknown_pair_file)
              [] (skipn 12 unknown_pair_file) 8 0x42726563) as [H1 H2].
  - reflexivity.
  - reflexivity.
  - lia.
  - lia.
  - discriminate.
  - discriminate.
  - discriminate.
  - split; [exact H1 | apply H2; reflexivity].
Defined.

(** C10 does not hold of the code.  The sum [pair_len + 8] is unsigned
    64-bit and wraps: for a pair with an unrecognized id and the length
    [0xFFFFFFFFFFFFFFF8] it is 0, and the turn yields the position it
    started from.  The walk does not go past the pair: the next turn
    starts where this one did, reads the same pair and leaves the object as
    this turn left it, and so does every turn after it.  With the length
    [0xFFFFFFFFFFFFFFF7] the position moves back by one. *)
Theorem walk_pair_unknown_id_not_passed :
  let si := new_siginfo stationary_pair_file in
  let si1 := snd (walk_pair ample 1 0 si) in
  fst (walk_pair ample 1 0 si) = Ok 0
  /\ walk_pair ample 1 0 si1 = (Ok 0, si1)
  /\ next_pair 0 (2 ^ 64 - 8) = 0
  /\ next_pair 0 (2 ^ 64 - 9) = -1.
Proof. vm_compute. repeat split. Qed.

(** * Further properties of the code *)

(** ** The little-endian decoder as arithmetic *)

Lemma le_value_range (bs : list byte) :
  0 <= le_value bs < 2 ^ (8 * Z.of_nat (length bs)).
Proof.
  induction bs as [|b bs IH]; [cbn; lia|].
  cbn [le_value length]. pose proof (byte_val_range b).
  replace (8 * Z.of_nat (S (length bs)))
    with (8 + 8 * Z.of_nat (length bs)) by lia.
  rewrite Z.pow_add_r by lia. lia.
Qed.

Lemma le_value_app (a b : list byte) :
  le_value (a ++ b) =
  le_value a + 2 ^ (8 * Z.of_nat (length a)) * le_value b.
Proof.
  induction a as [|x a IH]; [cbn [app le_value length]; lia|].
  cbn [app le_value length]. rewrite IH.
  replace (8 * Z.of_nat (S (length a)))
    with (8 + 8 * Z.of_nat (length a)) by lia.
  rewrite Z.pow_add_r by lia. lia.
Qed.

Lemma firstn_succ_nth {A} (d : A) (l : list A) :
  forall k : nat,
    (k < length l)%nat -> firstn (S k) l = firstn k l ++ [nth k l d].
Proof.
  induction l as [|x l IH]; intros k Hk; [cbn in Hk; lia|].
  destruct k as [|k]; [reflexivity|].
  cbn [length] in Hk. cbn [firstn nth app].
  rewrite <- IH by lia. reflexivity.
Qed.

(** The loop of [le_to_host] after [k] turns holds the value of the first
    [k] bytes. *)
Lemma le_to_host_turns (w : nat) (p : list byte) :
  forall k : nat,
    (k <= w)%nat -> (k <= length p)%nat ->
    fold_left
      (fun v i =>
         Z.lor v
           (wrap w (Z.shiftl (byte_val (nth i p x00)) (8 * Z.of_nat i))))
      (seq 0 k) 0
    = le_value (firstn k p).
Proof.
  induction k as [|k IH]; intros Hw Hp; [reflexivity|].
  rewrite seq_S, fold_left_app, IH by lia. cbn [fold_left Nat.add].
  rewrite (firstn_succ_nth x00) by lia.
  rewrite le_value_app, length_firstn, Nat.min_l by lia.
  cbn [le_value].
  pose proof (le_value_range (firstn k p)) as Hv.
  rewrite length_firstn, Nat.min_l in Hv by lia.
  pose proof (byte_val_range (nth k p x00)) as Hb.
  assert (Hk : 0 < 2 ^ (8 * Z.of_nat k)) by (apply Z.pow_pos_nonneg; lia).
  assert (Hle : 2 ^ (8 * Z.of_nat k) * 256 <= 2 ^ (8 * Z.of_nat w)).
  { replace (2 ^ (8 * Z.of_nat k) * 256) with (2 ^ (8 * Z.of_nat k + 8))
      by (rewrite Z.pow_add_r by lia; lia).
    apply Z.pow_le_mono_r; lia. }
  unfold wrap. rewrite Z.shiftl_mul_pow2 by lia.
  rewrite Z.mod_small by nia.
  rewrite <- Z.shiftl_mul_pow2 by lia.
  rewrite lor_shiftl_add by lia. lia.
Qed.

Lemma le_to_host_as_value (w : nat) (p : list byte) :
  length p = w -> le_to_host w p = le_value p.
Proof.
  intros Hl. unfold le_to_host. rewrite le_to_host_turns by lia.
  rewrite <- Hl, firstn_all. reflexivity.
Qed.

(** X1: [le_to_host<T>], written with shifts and ors on a [T] that wraps,
    yields the number its [sizeof(T)] bytes write, least significant byte
    first; no byte is lost to the width of [T], and the value lies in the
    range of [T]. *)
Theorem le_to_host_le_value (w : nat) (p : list byte) :
  length p = w ->
  le_to_host w p = le_value p
  /\ 0 <= le_to_host w p < 2 ^ (8 * Z.of_nat w).
Proof.
  intros Hl. rewrite (le_to_host_as_value w p Hl).
  split; [reflexivity|]. rewrite <- Hl. apply le_value_range.
Qed.

(** The theorem at the four bytes [78 56 34 12]. *)
Lemma le_to_host_le_value_witness :
  le_to_host 4 [x78; x56; x34; x12] = le_value [x78; x56; x34; x12]
  /\ 0 <= le_to_host 4 [x78; x56; x34; x12] < 2 ^ (8 * Z.of_nat 4).
Proof. apply le_to_host_le_value. reflexivity. Defined.

Lemma byte_val_inj (a b : byte) : byte_val a = byte_val b -> a = b.
Proof.
  intros H. rewrite <- (byte_of_Z_val a), <- (byte_of_Z_val b), H.
  reflexivity.
Qed.

Lemma le_value_inj (p : list byte) :
  forall q : list byte,
    length p = length q -> le_value p = le_value q -> p = q.
Proof.
  induction p as [|a p IH]; intros [|b q] Hl Hv; try discriminate;
    [reflexivity|].
  cbn [le_value length] in *.
  pose proof (byte_val_range a). pose proof (byte_val_range b).
  assert (byte_val a = byte_val b /\ le_value p = le_value q) as [Ha Hp]
    by lia.
  f_equal; [apply byte_val_inj; exact Ha | apply IH; [lia | exact Hp]].
Qed.

(** X2: [le_to_host<T>] loses nothing: two arrays of [sizeof(T)] bytes
    that decode to the same integer are the same bytes. *)
Theorem le_to_host_injective (w : nat) (p q : list byte) :
  length p = w -> length q = w ->
  le_to_host w p = le_to_host w q -> p = q.
Proof.
  intros Hp Hq H.
  rewrite (le_to_host_as_value w p Hp), (le_to_host_as_value w q Hq) in H.
  apply le_value_inj; congruence.
Qed.

(** The theorem at two arrays of two bytes. *)
Lemma le_to_host_injective_witness : [x34; x12] = [x34; x12].
Proof.
  apply (le_to_host_injective 2 [x34; x12] [x34; x12]); reflexivity.
Defined.

(** ** Reading at the end of the stream *)

(** X3: [read_le<T>] on a good stream: when [sizeof(T)] bytes are left at
    the get position, it returns the number they write and moves the
    position behind them; when fewer are left, it throws
    [std::ios_base::failure] and leaves failbit set, so that no value is
    ever built from a partly filled array. *)
Theorem read_le_outcome (w : nat) (s : istream) :
  failbit s = false -> 0 <= gpos s -> (0 < w)%nat ->
  if gpos s + Z.of_nat w <=? size s
  then read_le w s =
       (Ok (le_value (firstn w (skipn (Z.to_nat (gpos s)) (content s)))),
        set_gpos (gpos s + Z.of_nat w) s)
  else fst (read_le w s) = Throw ios_failure
       /\ failbit (snd (read_le w s)) = true.
Proof.
  intros Hgood Hpos Hw. unfold read_le, read_into_array.
  destruct (Z.leb_spec (gpos s + Z.of_nat w) (size s)) as [Hfit|Hfit].
  - erewrite bind_ok by (apply read_within; [assumption | lia | lia]).
    unfold ret. rewrite Nat2Z.id. f_equal. f_equal.
    apply le_to_host_as_value. rewrite length_firstn, length_skipn.
    unfold size in Hfit. lia.
  - unfold bind. rewrite read_beyond by (assumption || lia).
    split; reflexivity.
Qed.

(** The theorem on a stream of five bytes: at position 1, where four bytes
    are left. *)
Lemma read_le_outcome_witness :
  read_le 4 (mk_istream [x00; x78; x56; x34; x12] 1 false) =
  (Ok 0x12345678, mk_istream [x00; x78; x56; x34; x12] 5 false).
Proof.
  exact (read_le_outcome 4 (mk_istream [x00; x78; x56; x34; x12] 1 false)
           eq_refl ltac:(cbn; lia) ltac:(lia)).
Defined.

(** ** The reverse byte scanner, window by window *)

Lemma tested_spec (pat : list byte) (n j : Z) :
  tested pat n j = true <->
  0 <= j < n
  /\ (n - 1 - j) mod Z.max default_window_size (Z.of_nat (length pat)) <> 0.
Proof.
  unfold tested. rewrite !andb_true_iff, negb_true_iff, Z.eqb_neq. lia.
Qed.

Lemma scan_window_some (pat buf : list byte) (j : nat) :
  forall k : nat,
    scan_window pat buf k = Some j ->
    (j < k)%nat /\ equal_at pat buf j = true
    /\ forall i : nat, (j < i < k)%nat -> equal_at pat buf i = false.
Proof.
  induction k as [|k IH]; [discriminate|]. cbn [scan_window].
  destruct (equal_at pat buf k) eqn:E.
  - intros H. inversion H; subst.
    split; [lia | split; [exact E | intros i Hi; lia]].
  - intros H. destruct (IH H) as (Hj & He & Hn).
    split; [lia | split; [exact He|]]. intros i Hi.
    destruct (Nat.eq_dec i k) as [->|]; [exact E | apply Hn; lia].
Qed.

Lemma scan_window_none (pat buf : list byte) :
  forall k : nat,
    scan_window pat buf k = None ->
    forall i : nat, (i < k)%nat -> equal_at pat buf i = false.
Proof.
  induction k as [|k IH]; [intros _ i Hi; lia|]. cbn [scan_window].
  destruct (equal_at pat buf k) eqn:E; [discriminate|].
  intros H i Hi.
  destruct (Nat.eq_dec i k) as [->|]; [exact E | apply IH; [exact H | lia]].
Qed.

Lemma equal_at_firstn (pat X : list byte) (L j : nat) :
  (j + length pat <= L)%nat ->
  equal_at pat (firstn L X) j = equal_at pat X j.
Proof.
  intros H. unfold equal_at.
  rewrite skipn_firstn_comm, firstn_firstn, Nat.min_l by lia. reflexivity.
Qed.

Lemma equal_at_skipn (pat X : list byte) (p j : nat) :
  equal_at pat (skipn p X) j = equal_at pat X (p + j).
Proof.
  unfold equal_at. rewrite skipn_skipn, (Nat.add_comm j p). reflexivity.
Qed.

Lemma firstn_add_skipn {A} (a b : nat) (X : list A) :
  (a <= length X)%nat ->
  firstn a X ++ firstn b (skipn a X) = firstn (a + b) X.
Proof.
  intros H.
  transitivity (firstn (a + b) (firstn a X ++ skipn a X));
    [|rewrite firstn_skipn; reflexivity].
  rewrite firstn_app, firstn_firstn, length_firstn.
  rewrite (Nat.min_r (a + b) a), (Nat.min_l a (length X)) by lia.
  replace (a + b - a)%nat with b by lia. reflexivity.
Qed.

Lemma firstn_skipn_app_l {A} (p n : nat) (l1 l2 : list A) :
  (p + n <= length l1)%nat ->
  firstn n (skipn p (l1 ++ l2)) = firstn n (skipn p l1).
Proof.
  intros H. rewrite skipn_app, firstn_app, length_skipn.
  replace (n - (length l1 - p))%nat with 0%nat by lia.
  rewrite firstn_O, app_nil_r. reflexivity.
Qed.

(** The window buffer of a turn: the bytes read, then the carry. *)
Lemma window_buffer_eq (m p c : nat) (seen beyond : list byte) :
  (p <= c <= length seen)%nat ->
  firstn (c - p) (skipn p (seen ++ beyond))
  ++ firstn (m - 1) (skipn c (seen ++ repeat x00 (m - 1)))
  = firstn (c - p + (m - 1)) (skipn p (seen ++ repeat x00 (m - 1))).
Proof.
  intros H.
  rewrite (firstn_skipn_app_l p (c - p) seen beyond) by lia.
  rewrite <- (firstn_skipn_app_l p (c - p) seen (repeat x00 (m - 1))) by lia.
  replace c with (c - p + p)%nat at 2 by lia.
  rewrite <- skipn_skipn.
  apply firstn_add_skipn.
  rewrite length_skipn, length_app. lia.
Qed.

Lemma reverse_find_loop_scan (pat seen beyond : list byte) :
  pat <> [] ->
  forall (fuel : nat) (c g : Z),
    0 <= c <= Z.of_nat (length seen) ->
    (Z.to_nat c <= fuel)%nat ->
    exists (r : Z) (s' : istream),
      reverse_find_loop fuel pat
        (Z.max default_window_size (Z.of_nat (length pat)))
        (firstn (length pat - 1)
           (skipn (Z.to_nat c) (seen ++ repeat x00 (length pat - 1))))
        c (mk_istream (seen ++ beyond) g false)
      = (Ok r, s')
      /\ (r = -1
          \/ (tested pat c r = true
              /\ equal_at pat (seen ++ repeat x00 (length pat - 1))
                   (Z.to_nat r) = true))
      /\ (forall j : Z,
            r < j -> tested pat c j = true ->
            equal_at pat (seen ++ repeat x00 (length pat - 1))
              (Z.to_nat j) = false).
Proof.
  intros Hpat.
  assert (Hm : (1 <= length pat)%nat)
    by (destruct pat; [contradiction | cbn [length]; lia]).
  set (m := length pat) in *.
  set (ws := Z.max default_window_size (Z.of_nat m)).
  set (buf := seen ++ repeat x00 (m - 1)).
  assert (Hws : 1 <= ws) by (unfold ws, default_window_size; lia).
  induction fuel as [|fuel IH]; intros c g Hc Hfuel.
  - assert (c = 0) by lia. subst c. cbn [reverse_find_loop].
    change (0 <? 0) with false. cbv iota.
    exists (-1), (mk_istream (seen ++ beyond) g false).
    split; [reflexivity | split; [left; reflexivity|]].
    intros j _ Ht. apply tested_spec in Ht. lia.
  - cbn [reverse_find_loop].
    destruct (Z.ltb_spec 0 c) as [Hpos|Hzero].
    2:{ exists (-1), (mk_istream (seen ++ beyond) g false).
        split; [reflexivity | split; [left; reflexivity|]].
        intros j _ Ht. apply tested_spec in Ht. lia. }
    cbv zeta. fold ws.
    set (pos := Z.max 0 (c - ws)).
    assert (Hp : 0 <= pos <= c - 1) by (unfold pos; lia).
    assert (Hpw : c - pos <= ws) by (unfold pos; lia).
    erewrite bind_ok by (apply seekg_at; lia).
    erewrite bind_ok
      by (apply read_within;
          [ reflexivity | cbn [gpos]; lia
          | left; unfold size; cbn [gpos content]; rewrite length_app; lia ]).
    unfold set_gpos. cbn [gpos content failbit].
    replace (pos + (c - pos)) with c by lia.
    rewrite Z2Nat.inj_sub by lia.
    pose proof (window_buffer_eq m (Z.to_nat pos) (Z.to_nat c) seen beyond
                  ltac:(lia)) as Hwin.
    fold buf in Hwin. rewrite Hwin. clear Hwin. fold m.
    set (wb := firstn (Z.to_nat c - Z.to_nat pos + (m - 1))
                 (skipn (Z.to_nat pos) buf)).
    assert (Hwb : length wb = (Z.to_nat c - Z.to_nat pos + (m - 1))%nat).
    { unfold wb, buf. rewrite length_firstn, length_skipn, length_app,
        repeat_length. lia. }
    rewrite Hwb.
    replace (Z.to_nat c - Z.to_nat pos + (m - 1) - m)%nat
      with (Z.to_nat c - Z.to_nat pos - 1)%nat by lia.
    assert (Hidx : forall i : nat,
               (i < Z.to_nat c - Z.to_nat pos - 1)%nat ->
               equal_at pat wb i = equal_at pat buf (Z.to_nat pos + i)).
    { intros i Hi. unfold wb.
      rewrite equal_at_firstn by (fold m; lia). apply equal_at_skipn. }
    destruct (scan_window pat wb (Z.to_nat c - Z.to_nat pos - 1)) as [j|]
      eqn:Escan.
    + apply scan_window_some in Escan. destruct Escan as (Hj & He & Hn).
      exists (pos + Z.of_nat j), (mk_istream (seen ++ beyond) c false).
      split; [reflexivity|]. split.
      * right. split.
        -- apply tested_spec. fold m ws. split; [lia|].
           rewrite Z.mod_small by lia. lia.
        -- rewrite Hidx in He by exact Hj.
           replace (Z.to_nat (pos + Z.of_nat j))
             with (Z.to_nat pos + j)%nat by lia.
           exact He.
      * intros j' Hgt Ht. apply tested_spec in Ht. fold m ws in Ht.
        destruct Ht as [Hr Hmod].
        assert (j' <> c - 1)
          by (intros ->; replace (c - 1 - (c - 1)) with 0 in Hmod by lia;
              rewrite Z.mod_0_l in Hmod by lia; lia).
        specialize (Hn (Z.to_nat j' - Z.to_nat pos)%nat ltac:(lia)).
        rewrite Hidx in Hn by lia.
        replace (Z.to_nat pos + (Z.to_nat j' - Z.to_nat pos))%nat
          with (Z.to_nat j') in Hn by lia.
        exact Hn.
    + pose proof (scan_window_none _ _ _ Escan) as Hn.
      replace (firstn (m - 1) wb)
        with (firstn (m - 1) (skipn (Z.to_nat pos) buf))
        by (unfold wb; rewrite firstn_firstn, Nat.min_l by lia;
            reflexivity).
      destruct (IH pos c ltac:(lia) ltac:(lia)) as (r & s' & Hrun & Hr & Hmax).
      exists r, s'. split; [exact Hrun|].
      assert (Hshift : forall j : Z,
                 0 <= j < pos -> (c - 1 - j) mod ws = (pos - 1 - j) mod ws).
      { intros j Hj. assert (pos = c - ws) by (unfold pos in *; lia).
        replace (c - 1 - j) with (pos - 1 - j + 1 * ws) by lia.
        apply Z_mod_plus_full. }
      split.
      * destruct Hr as [Hr | [Ht He]]; [left; exact Hr | right].
        split; [|exact He].
        apply tested_spec in Ht. apply tested_spec. fold m ws in Ht |- *.
        rewrite Hshift by lia. lia.
      * intros j Hgt Ht. apply tested_spec in Ht. fold m ws in Ht.
        destruct Ht as [Hr' Hmod].
        destruct (Z.ltb_spec j pos) as [Hlow|Hhigh].
        -- apply Hmax; [exact Hgt|]. apply tested_spec. fold m ws.
           rewrite <- Hshift by lia. lia.
        -- assert (j <> c - 1)
             by (intros ->; replace (c - 1 - (c - 1)) with 0 in Hmod by lia;
                 rewrite Z.mod_0_l in Hmod by lia; lia).
           specialize (Hn (Z.to_nat j - Z.to_nat pos)%nat ltac:(lia)).
           rewrite Hidx in Hn by lia.
           replace (Z.to_nat pos + (Z.to_nat j - Z.to_nat pos))%nat
             with (Z.to_nat j) in Hn by lia.
           exact Hn.
Qed.

Lemma reverse_find_bytes_scan (pat file : list byte) (start : Z) :
  pat <> [] ->
  start = -1 \/ 0 <= start <= Z.of_nat (length file) ->
  exists (r : Z) (s' : istream),
    reverse_find_bytes pat start (open file) = (Ok r, s')
    /\ (r = -1
        \/ (tested pat (scan_start start file) r = true
            /\ equal_at pat (scanned_bytes pat file (scan_start start file))
                 (Z.to_nat r) = true))
    /\ (forall j : Z,
          r < j -> tested pat (scan_start start file) j = true ->
          equal_at pat (scanned_bytes pat file (scan_start start file))
            (Z.to_nat j) = false).
Proof.
  intros Hpat Hstart.
  set (n := scan_start start file).
  assert (Hn : 0 <= n <= Z.of_nat (length file))
    by (unfold n, scan_start; destruct (Z.eqb_spec start (-1)); lia).
  assert (Hseek : (if start =? -1 then seekg_end else seekg start)
                    (open file) = (Ok tt, mk_istream file n false)).
  { unfold n, scan_start. destruct (Z.eqb_spec start (-1)).
    - reflexivity.
    - apply seekg_at. lia. }
  unfold reverse_find_bytes. rewrite (bind_ok _ _ _ _ _ Hseek). cbv zeta.
  destruct (Z.eqb_spec (Z.of_nat (length pat)) 0) as [E|_];
    [destruct pat; [contradiction | discriminate E]|].
  erewrite bind_ok by apply tellg_at.
  unfold scanned_bytes.
  set (seen := firstn (Z.to_nat n) file).
  assert (Hseen : length seen = Z.to_nat n)
    by (unfold seen; rewrite length_firstn; lia).
  pose proof (reverse_find_loop_scan pat seen (skipn (Z.to_nat n) file)
                Hpat (Z.to_nat n) n n ltac:(lia) ltac:(lia)) as H.
  replace (seen ++ skipn (Z.to_nat n) file) with file in H
    by (unfold seen; symmetry; apply firstn_skipn).
  replace (firstn (length pat - 1)
             (skipn (Z.to_nat n) (seen ++ repeat x00 (length pat - 1))))
    with (repeat x00 (length pat - 1)) in H
    by (rewrite <- Hseen, skipn_length_app; symmetry; apply firstn_all2;
        rewrite repeat_length; lia).
  exact H.
Qed.

(** X4: the scanner is sound.  Started on a good stream at the end (the
    default) or at a position inside the stream, with a pattern that is not
    empty, it returns; what it returns is [-1] or a position [r] at least
    two bytes before the start position, at which the whole pattern stands
    in the bytes before the start position followed by the [pat_size - 1]
    zeros of the first carry buffer.  The bytes at and behind an explicit
    start position are never compared. *)
Theorem reverse_find_bytes_sound (pat file : list byte) (start : Z) :
  pat <> [] ->
  start = -1 \/ 0 <= start <= Z.of_nat (length file) ->
  exists r : Z,
    fst (reverse_find_bytes pat start (open file)) = Ok r
    /\ (r = -1
        \/ (0 <= r < scan_start start file - 1
            /\ firstn (length pat)
                 (skipn (Z.to_nat r)
                    (scanned_bytes pat file (scan_start start file)))
               = pat)).
Proof.
  intros Hpat Hstart.
  destruct (reverse_find_bytes_scan pat file start Hpat Hstart)
    as (r & s' & Hrun & Hr & _).
  exists r. rewrite Hrun. split; [reflexivity|].
  destruct Hr as [Hr | [Ht He]]; [left; exact Hr | right].
  apply tested_spec in Ht. destruct Ht as [Hrange Hmod]. split.
  - assert (r <> scan_start start file - 1); [|lia].
    intros ->.
    replace (scan_start start file - 1 - (scan_start start file - 1))
      with 0 in Hmod by lia.
    rewrite Z.mod_0_l in Hmod by (unfold default_window_size; lia). lia.
  - symmetry. apply bytes_eqb_true. exact He.
Qed.

(** The theorem at the pattern [PK] in a stream of five bytes. *)
Lemma reverse_find_bytes_sound_witness :
  exists r : Z,
    fst (reverse_find_bytes [x50; x4b] (-1)
           (open [x00; x50; x4b; x01; x02])) = Ok r
    /\ (r = -1
        \/ (0 <= r < scan_start (-1) [x00; x50; x4b; x01; x02] - 1
            /\ firstn (length [x50; x4b])
                 (skipn (Z.to_nat r)
                    (scanned_bytes [x50; x4b] [x00; x50; x4b; x01; x02]
                       (scan_start (-1) [x00; x50; x4b; x01; x02])))
               = [x50; x4b])).
Proof.
  apply reverse_find_bytes_sound; [discriminate | left; reflexivity].
Defined.

(** X5: the scanner finds the highest occurrence among the positions it
    tests.  If the pattern stands at a tested position [j] (any position
    below the start position other than the last position of a window of
    [max(4096, pat_size)] bytes counted from the start position
    downwards), the scanner returns a position [r >= j], itself a tested
    position where the pattern stands, and the pattern stands at no tested
    position above [r]. *)
Theorem reverse_find_bytes_highest_tested (pat file : list byte)
    (start j : Z) :
  pat <> [] ->
  start = -1 \/ 0 <= start <= Z.of_nat (length file) ->
  tested pat (scan_start start file) j = true ->
  equal_at pat (scanned_bytes pat file (scan_start start file)) (Z.to_nat j)
    = true ->
  exists r : Z,
    fst (reverse_find_bytes pat start (open file)) = Ok r
    /\ j <= r
    /\ tested pat (scan_start start file) r = true
    /\ equal_at pat (scanned_bytes pat file (scan_start start file))
         (Z.to_nat r) = true
    /\ (forall k : Z,
          r < k -> tested pat (scan_start start file) k = true ->
          equal_at pat (scanned_bytes pat file (scan_start start file))
            (Z.to_nat k) = false).
Proof.
  intros Hpat Hstart Ht He.
  destruct (reverse_find_bytes_scan pat file start Hpat Hstart)
    as (r & s' & Hrun & Hr & Hmax).
  exists r. rewrite Hrun. split; [reflexivity|].
  assert (Hjr : j <= r).
  { destruct (Z.leb_spec j r) as [|Hlt]; [assumption|].
    rewrite (Hmax j Hlt Ht) in He. discriminate. }
  split; [exact Hjr|].
  destruct Hr as [-> | [Htr Her]].
  - apply tested_spec in Ht. lia.
  - split; [exact Htr | split; [exact Her | exact Hmax]].
Qed.

(** The theorem at a stream that holds the pattern [PK] twice. *)
Lemma reverse_find_bytes_highest_tested_witness :
  exists r : Z,
    fst (reverse_find_bytes [x50; x4b] (-1)
           (open [x50; x4b; x50; x4b; x01; x02])) = Ok r
    /\ 0 <= r.
Proof.
  destruct (reverse_find_bytes_highest_tested [x50; x4b]
              [x50; x4b; x50; x4b; x01; x02] (-1) 0
              ltac:(discriminate) (or_introl eq_refl) eq_refl eq_refl)
    as (r & Hrun & Hle & _).
  exists r. split; [exact Hrun | exact Hle].
Defined.

(** X6: for a pattern whose last byte is not zero, such as the
    end-of-central-directory magic, the zeros of the carry buffer can
    complete no occurrence: every position the scanner reports is a true
    occurrence, the whole pattern standing in the stream at that position
    and ending before the start position. *)
Theorem reverse_find_bytes_true_occurrence (pat file : list byte)
    (start : Z) :
  pat <> [] ->
  nth (length pat - 1) pat x00 <> x00 ->
  start = -1 \/ 0 <= start <= Z.of_nat (length file) ->
  exists r : Z,
    fst (reverse_find_bytes pat start (open file)) = Ok r
    /\ (r = -1
        \/ (0 <= r
            /\ r + Z.of_nat (length pat) <= scan_start start file
            /\ firstn (length pat) (skipn (Z.to_nat r) file) = pat)).
Proof.
  intros Hpat Hlast Hstart.
  destruct (reverse_find_bytes_scan pat file start Hpat Hstart)
    as (r & s' & Hrun & Hr & _).
  exists r. rewrite Hrun. split; [reflexivity|].
  destruct Hr as [Hr | [Ht He]]; [left; exact Hr | right].
  apply tested_spec in Ht. destruct Ht as [Hrange _].
  apply bytes_eqb_true in He.
  set (n := scan_start start file) in *.
  assert (Hn : 0 <= n <= Z.of_nat (length file))
    by (unfold n, scan_start; destruct (Z.eqb_spec start (-1)); lia).
  assert (Hm : (1 <= length pat)%nat)
    by (destruct pat; [contradiction | cbn [length]; lia]).
  unfold scanned_bytes in He.
  set (seen := firstn (Z.to_nat n) file) in *.
  assert (Hseen : length seen = Z.to_nat n)
    by (unfold seen; rewrite length_firstn; lia).
  assert (Hfit : r + Z.of_nat (length pat) <= n).
  { destruct (Z.leb_spec (r + Z.of_nat (length pat)) n) as [|Hover];
      [assumption|].
    exfalso. apply Hlast. rewrite He at 2.
    rewrite nth_firstn.
    destruct (Nat.ltb_spec (length pat - 1) (length pat)); [|lia].
    rewrite nth_skipn, app_nth2 by lia.
    apply nth_repeat. }
  split; [lia | split; [exact Hfit|]].
  rewrite He at 2.
  rewrite skipn_app, firstn_app, length_skipn.
  replace (length pat - (length seen - Z.to_nat r))%nat with 0%nat by lia.
  rewrite firstn_O, app_nil_r.
  unfold seen. rewrite skipn_firstn_comm, firstn_firstn, Nat.min_l by lia.
  reflexivity.
Qed.

(** The theorem at the end-of-central-directory magic in a stream of seven
    bytes. *)
Lemma reverse_find_bytes_true_occurrence_witness :
  exists r : Z,
    fst (reverse_find_bytes eocd_magic (-1)
           (open [x00; x50; x4b; x05; x06; x01; x02])) = Ok r
    /\ (r = -1
        \/ (0 <= r
            /\ r + Z.of_nat (length eocd_magic)
               <= scan_start (-1) [x00; x50; x4b; x05; x06; x01; x02]
            /\ firstn (length eocd_magic)
                 (skipn (Z.to_nat r) [x00; x50; x4b; x05; x06; x01; x02])
               = eocd_magic)).
Proof.
  apply reverse_find_bytes_true_occurrence;
    [discriminate | discriminate | left; reflexivity].
Defined.

(** ** The sequence decoder and the declared lengths *)

Section DeclaredLengths.

Context {T : Type} (enc : T -> list byte) (f : Z -> M istream T).

Lemma declared_total_nonneg (rs : list (Z * T)) :
  (forall r, In r rs -> 0 <= fst r) -> 0 <= declared_total rs.
Proof.
  induction rs as [|r rs IH]; intros H; cbn [declared_total fold_right];
    [lia|].
  fold (declared_total rs).
  specialize (H r (or_introl eq_refl)) as H0.
  specialize (IH (fun x Hx => H x (or_intror Hx))). lia.
Qed.

Lemma decodes_declared_loop (seq_len : Z) (todo : list (Z * T)) :
  forall (fuel : nat) (parsed_len : Z) (out : list T),
    (forall r, In r todo ->
       0 <= fst r /\ decodes (f (fst r)) (enc (snd r)) (snd r)) ->
    seq_len < 2 ^ 32 ->
    0 <= parsed_len ->
    parsed_len + declared_total todo = seq_len ->
    (length todo <= fuel)%nat ->
    decodes (parse_len_prefixed_seq_loop fuel seq_len f parsed_len out)
      (encode_declared enc todo) (out ++ map snd todo).
Proof.
  induction todo as [|r todo IH]; intros fuel parsed_len out Hf Hb Hp Hs Hfuel.
  - cbn [declared_total fold_right encode_declared flat_map map] in *.
    assert (E : (parsed_len <? seq_len) = false) by (apply Z.ltb_ge; lia).
    destruct fuel; cbn [parse_len_prefixed_seq_loop]; rewrite E, app_nil_r;
      apply decodes_ret.
  - cbn [declared_total fold_right] in Hs. fold (declared_total todo) in Hs.
    destruct (Hf r (or_introl eq_refl)) as [Hr Hdec].
    assert (Hrest : forall x, In x todo ->
              0 <= fst x /\ decodes (f (fst x)) (enc (snd x)) (snd x))
      by (intros x Hx; apply Hf; right; exact Hx).
    pose proof (declared_total_nonneg todo (fun x Hx => proj1 (Hrest x Hx)))
      as Htot.
    destruct fuel as [|fuel]; [cbn [length] in Hfuel; lia|].
    cbn [parse_len_prefixed_seq_loop].
    assert (E : (parsed_len <? seq_len) = true) by (apply Z.ltb_lt; lia).
    rewrite E. cbn [encode_declared flat_map]. fold (encode_declared enc todo).
    rewrite <- !app_assoc.
    eapply decodes_bind; [apply decodes_read_le_4; lia|].
    eapply decodes_bind; [exact Hdec|].
    cbv zeta.
    rewrite wrap_4_small by lia.
    assert (E' : (seq_len <? parsed_len + (4 + fst r)) = false)
      by (apply Z.ltb_ge; lia).
    rewrite E'. cbn [map].
    replace (out ++ snd r :: map snd todo)
      with ((out ++ [snd r]) ++ map snd todo)
      by (rewrite <- app_assoc; reflexivity).
    apply IH; try assumption; try lia.
    cbn [length] in Hfuel. lia.
Qed.

End DeclaredLengths.

(** X7: the sequence decoder counts the declared length of each record
    against its budget, but leaves the stream where the record decoder
    stopped: it does not compare the two.  A sequence of Digest records
    whose length fields hold any numbers at all is decoded record after
    record, back to back, as long as those numbers and the four bytes of
    each field add up to the budget (and the allocator grants the memory
    that the records ask for). *)
Theorem parse_len_prefixed_seq_trusts_declared_length {heap : allocator}
    (fuel : nat) (rs : list (Z * digest)) (pre rest : list byte) :
  (forall n : Z, heap n = true) ->
  (forall r, In r rs ->
     0 <= fst r
     /\ is_u32 (digest_sig_algo_id (snd r)) = true
     /\ Z.of_nat (length (digest_data (snd r))) < 2 ^ 32) ->
  declared_total rs < 2 ^ 32 ->
  (length rs <= fuel)%nat ->
  let bytes := encode_declared encode_digest rs in
  parse_len_prefixed_seq fuel (declared_total rs) (parse_digest heap)
    (mk_istream (pre ++ bytes ++ rest) (Z.of_nat (length pre)) false) =
  (Ok (map snd rs),
   mk_istream (pre ++ bytes ++ rest)
     (Z.of_nat (length pre) + Z.of_nat (length bytes)) false).
Proof.
  intros Hheap Hrs Hb Hfuel bytes. unfold parse_len_prefixed_seq.
  change (map snd rs) with ([] ++ map snd rs).
  apply decodes_declared_loop; try assumption; try lia.
  intros r Hr. destruct (Hrs r Hr) as (H0 & Hid & Hl).
  split; [exact H0 | apply decodes_parse_digest; assumption].
Qed.

(** The theorem at two Digest records of eleven and nine bytes that
    declare the lengths 0 and 2, between two other bytes. *)
Lemma parse_len_prefixed_seq_trusts_declared_length_witness :
  let rs :=
    [(0, mk_digest 0x0103 [x11; x12; x13]); (2, mk_digest 0x0104 [x21])] in
  let bytes := encode_declared encode_digest rs in
  parse_len_prefixed_seq 2 10 (parse_digest ample)
    (mk_istream ([xee] ++ bytes ++ [xff]) 1 false) =
  (Ok [mk_digest 0x0103 [x11; x12; x13]; mk_digest 0x0104 [x21]],
   mk_istream ([xee] ++ bytes ++ [xff]) 29 false).
Proof.
  apply (parse_len_prefixed_seq_trusts_declared_length (heap := ample) 2
           [(0, mk_digest 0x0103 [x11; x12; x13]);
            (2, mk_digest 0x0104 [x21])] [xee] [xff]).
  - reflexivity.
  - intros r [<- | [<- | []]]; cbn; repeat split; lia.
  - reflexivity.
  - apply Nat.le_refl.
Defined.

(** X8: below [2^32] the budget of the sequence decoder is enforced.
    When the records of a sequence, each behind its [u32] length, take
    less than [2^32] bytes in all, and the budget falls short of the end
    of the last record but not of the records before it, the decoder
    throws "Incomplete sequence" once it has decoded that last record: a
    record is never accepted across the end of the budget.  The allocator
    is one that grants the memory that the records ask for. *)
Theorem parse_len_prefixed_seq_enforces_budget {heap : allocator}
    (fuel : nat) (xs : list certificate) (x : certificate) (seq_len : Z)
    (pre rest : list byte) :
  (forall n : Z, heap n = true) ->
  Z.of_nat (length (encode_seq encode_certificate xs)) < seq_len ->
  seq_len < Z.of_nat (length (encode_seq encode_certificate (xs ++ [x])))
    < 2 ^ 32 ->
  (length xs < fuel)%nat ->
  fst (parse_len_prefixed_seq fuel seq_len (parse_certificate heap)
         (mk_istream (pre ++ encode_seq encode_certificate (xs ++ [x]) ++ rest)
            (Z.of_nat (length pre)) false))
  = Throw incomplete_sequence.
Proof.
  intros Hheap Hlo Hhi Hfuel. unfold parse_len_prefixed_seq.
  apply (seq_loop_overrun encode_certificate (parse_certificate heap) seq_len
           x xs fuel 0 [] pre rest);
    [intros y _; apply decodes_parse_certificate, Hheap | lia..].
Qed.

(** The theorem at two records of three bytes with a budget of ten. *)
Lemma parse_len_prefixed_seq_enforces_budget_witness :
  fst (parse_len_prefixed_seq 2 10 (parse_certificate ample)
         (mk_istream
            ([xee]
             ++ encode_seq encode_certificate
                  ([[x01; x02; x03]] ++ [[x04; x05; x06]])
             ++ [xff])
            (Z.of_nat (length [xee])) false))
  = Throw incomplete_sequence.
Proof.
  apply (parse_len_prefixed_seq_enforces_budget (heap := ample) 2
           [[x01; x02; x03]] [x04; x05; x06] 10 [xee] [xff]).
  - reflexivity.
  - vm_compute. reflexivity.
  - vm_compute. split; reflexivity.
  - apply Nat.lt_succ_diag_r.
Defined.

(** ** What the decoders do to the stream *)

Lemma le_to_host_nonneg (w : nat) (p : list byte) : 0 <= le_to_host w p.
Proof.
  unfold le_to_host.
  assert (H : forall (l : list nat) (v : Z),
             0 <= v ->
             0 <= fold_left
                    (fun v i =>
                       Z.lor v
                         (wrap w
                            (Z.shiftl (byte_val (nth i p x00))
                               (8 * Z.of_nat i)))) l v).
  { induction l as [|i l IH]; intros v Hv; [exact Hv|].
    cbn [fold_left]. apply IH. apply Z.lor_nonneg. split; [exact Hv|].
    unfold wrap. apply Z.mod_pos_bound. apply Z.pow_pos_nonneg; lia. }
  apply H. lia.
Qed.

Lemma decoder_op_ret {A} (bound : Z) (a : A) : decoder_op bound (ret a).
Proof.
  intros s s' r H. inversion H; subst.
  split; [reflexivity | split; [reflexivity | lia]].
Qed.

Lemma bytes_left_mono (s s' : istream) :
  content s' = content s -> gpos s <= gpos s' ->
  bytes_left s' <= bytes_left s.
Proof. unfold bytes_left, size. intros -> H. lia. Qed.

Lemma decoder_op_bind {A B} (bound : Z) (m : M istream A)
    (k : A -> M istream B) :
  decoder_op bound m -> (forall a, decoder_op bound (k a)) ->
  decoder_op bound (bind m k).
Proof.
  intros Hm Hk s s' r H.
  apply bind_inv in H.
  destruct H as [(a & s1 & H1 & H2) | [(e & H1 & ->) | (H1 & ->)]].
  - destruct (Hm _ _ _ H1) as (C1 & F1 & G1).
    destruct (Hk a _ _ _ H2) as (C2 & R2).
    split; [congruence|].
    destruct r as [b|e|].
    + destruct R2 as [F2 G2]. split; [congruence | lia].
    + destruct R2 as [[-> F2] | [E2 F2]];
        [left; split; [reflexivity | exact F2]
        | right; split; [exact E2 | congruence]].
    + pose proof (bytes_left_mono s s1 C1 G1). lia.
  - exact (Hm _ _ _ H1).
  - exact (Hm _ _ _ H1).
Qed.

Lemma decoder_op_read (bound n : Z) : 0 <= n -> decoder_op bound (read n).
Proof.
  intros Hn s s' r H. unfold read, sentry, set_failbit in H.
  destruct (failbit s) eqn:F.
  - inversion H; subst.
    split; [reflexivity | left; split; [reflexivity | exact F]].
  - destruct (n <=? Z.max 0 (size s - gpos s)); inversion H; subst.
    + split; [reflexivity | split; [exact F | cbn [gpos set_gpos]; lia]].
    + split; [reflexivity | left; split; reflexivity].
Qed.

Lemma decoder_op_read_into_vector (heap : allocator) (bound n : Z) :
  0 <= n -> decoder_op bound (read_into_vector heap n).
Proof.
  intros Hn. unfold read_into_vector.
  destruct ((0 <? n) && negb (heap n)); [|apply decoder_op_read; exact Hn].
  intros s s' r H. inversion H; subst.
  split; [reflexivity | right; split; [left|]; reflexivity].
Qed.

(** A [read_le] followed by a decoder that is given the value read. *)
Lemma decoder_op_read_le_bind {B} (bound : Z) (w : nat)
    (k : Z -> M istream B) :
  (forall v, 0 <= v -> decoder_op bound (k v)) ->
  decoder_op bound (bind (read_le w) k).
Proof.
  intros Hk. unfold read_le, read_into_array.
  intros s s' r H.
  assert (E : bind
                (bind (read (Z.of_nat w)) (fun buf => ret (le_to_host w buf)))
                k s
              = bind (read (Z.of_nat w)) (fun buf => k (le_to_host w buf)) s).
  { unfold bind, ret. destruct (read (Z.of_nat w) s) as [[buf|e|] s1];
      reflexivity. }
  rewrite E in H. clear E. revert s s' r H.
  apply decoder_op_bind; [apply decoder_op_read; lia|].
  intros buf. apply Hk, le_to_host_nonneg.
Qed.

Lemma decoder_op_read_le (bound : Z) (w : nat) :
  decoder_op bound (read_le w).
Proof.
  unfold read_le, read_into_array.
  apply decoder_op_bind; [apply decoder_op_read; lia|].
  intros buf. apply decoder_op_ret.
Qed.

Lemma decoder_op_weaken {A} (b b' : Z) (m : M istream A) :
  b' <= b -> decoder_op b m -> decoder_op b' m.
Proof.
  intros Hb Hm s s' r H. destruct (Hm _ _ _ H) as [C R].
  split; [exact C|]. destruct r; [exact R | exact R | lia].
Qed.

(** A successful [read_le] of four bytes takes four of the bytes left. *)
Lemma read_le_4_takes (s s' : istream) (v : Z) :
  read_le 4 s = (Ok v, s') ->
  content s' = content s /\ failbit s' = failbit s
  /\ gpos s' = gpos s + 4 /\ 4 <= bytes_left s /\ 0 <= v.
Proof.
  unfold read_le, read_into_array, bind, read, sentry, set_failbit, ret.
  destruct (failbit s) eqn:F; [discriminate|].
  destruct (Z.leb_spec (Z.of_nat 4) (Z.max 0 (size s - gpos s))) as [Hfit|];
    [|discriminate].
  intros H. inversion H; subst. cbn [content failbit gpos set_gpos].
  unfold bytes_left.
  repeat (split; [first [reflexivity | assumption | lia]|]).
  apply le_to_host_nonneg.
Qed.

Lemma decoder_op_seq_loop {T} (bound : Z) (f : Z -> M istream T)
    (seq_len : Z) :
  (forall len, 0 <= len -> decoder_op bound (f len)) ->
  forall (fuel : nat) (parsed_len : Z) (out : list T),
    decoder_op (Z.min bound (4 * Z.of_nat fuel))
      (parse_len_prefixed_seq_loop fuel seq_len f parsed_len out).
Proof.
  intros Hf. induction fuel as [|fuel IH]; intros parsed_len out;
    cbn [parse_len_prefixed_seq_loop];
    destruct (parsed_len <? seq_len); try apply decoder_op_ret.
  - intros s s' r H. inversion H; subst.
    split; [reflexivity | unfold bytes_left; lia].
  - intros s s' r H.
    apply bind_inv in H.
    destruct H as [(len & s1 & H1 & H2) | [(e & H1 & ->) | (H1 & ->)]].
    2:{ destruct (decoder_op_read_le 0 4 _ _ _ H1) as [C R].
        split; [exact C | exact R]. }
    2:{ destruct (decoder_op_read_le 0 4 _ _ _ H1) as [C _].
        split; [exact C|].
        destruct (decoder_op_read_le (bytes_left s + 1) 4 _ _ _ H1)
          as [_ R]. cbn in R. lia. }
    destruct (read_le_4_takes _ _ _ H1) as (C1 & F1 & G1 & L1 & V1).
    assert (Hleft : bytes_left s1 = bytes_left s - 4)
      by (unfold bytes_left, size in *; rewrite C1, G1; lia).
    apply bind_inv in H2.
    destruct H2 as [(x & s2 & H2 & H3) | [(e & H2 & ->) | (H2 & ->)]].
    + destruct (Hf len V1 _ _ _ H2) as (C2 & F2 & G2).
      pose proof (bytes_left_mono s1 s2 C2 G2) as Hmono.
      cbv zeta in H3.
      destruct (seq_len <? wrap 4 (parsed_len + (4 + len))).
      * inversion H3; subst.
        split; [congruence|]. right. split; [right; reflexivity | congruence].
      * destruct (IH _ _ _ _ _ H3) as (C3 & R3).
        split; [congruence|].
        destruct r as [b|e|].
        -- destruct R3 as [F3 G3]. split; [congruence | lia].
        -- destruct R3 as [[-> F3] | [E3 F3]];
             [left; split; [reflexivity | exact F3]
             | right; split; [exact E3 | congruence]].
        -- lia.
    + destruct (Hf len V1 _ _ _ H2) as (C2 & R2).
      split; [congruence|].
      destruct R2 as [[-> F2] | [E2 F2]];
        [left; split; [reflexivity | exact F2]
        | right; split; [exact E2 | congruence]].
    + destruct (Hf len V1 _ _ _ H2) as (C2 & R2).
      split; [congruence | lia].
Qed.

Lemma decoder_op_seq {T} (f : Z -> M istream T) (fuel : nat) (seq_len : Z) :
  (forall len, 0 <= len -> decoder_op (4 * Z.of_nat fuel) (f len)) ->
  decoder_op (4 * Z.of_nat fuel) (parse_len_prefixed_seq fuel seq_len f).
Proof.
  intros Hf. unfold parse_len_prefixed_seq.
  apply (decoder_op_weaken
           (Z.min (4 * Z.of_nat fuel) (4 * Z.of_nat fuel))); [lia|].
  apply decoder_op_seq_loop. exact Hf.
Qed.

Create HintDb decoder.

#[local] Hint Resolve decoder_op_ret decoder_op_read_le : decoder.

Ltac decoder_op_steps :=
  repeat first
    [ solve [auto with decoder]
    | apply decoder_op_read_into_vector; assumption
    | apply decoder_op_read_le_bind; intros ? ?
    | apply decoder_op_bind; [|intros ?] ].

Lemma decoder_op_parse_digest {heap : allocator} (bound len : Z) :
  decoder_op bound (parse_digest heap len).
Proof. unfold parse_digest. decoder_op_steps. Qed.

Lemma decoder_op_parse_certificate {heap : allocator} (bound len : Z) :
  0 <= len -> decoder_op bound (parse_certificate heap len).
Proof. intros H. apply decoder_op_read_into_vector. exact H. Qed.

Lemma decoder_op_parse_add_attr {heap : allocator} (bound len : Z) :
  decoder_op bound (parse_add_attr heap len).
Proof. unfold parse_add_attr. decoder_op_steps. Qed.

Lemma decoder_op_parse_signature {heap : allocator} (bound len : Z) :
  decoder_op bound (parse_signature heap len).
Proof. unfold parse_signature. decoder_op_steps. Qed.

Lemma decoder_op_parse_v2_signed_data {heap : allocator} (fuel : nat)
    (len : Z) :
  decoder_op (4 * Z.of_nat fuel) (parse_v2_signed_data heap fuel len).
Proof.
  unfold parse_v2_signed_data.
  apply decoder_op_read_le_bind; intros n1 _.
  apply decoder_op_bind;
    [apply decoder_op_seq; intros; apply decoder_op_parse_digest | intros ?].
  apply decoder_op_read_le_bind; intros n2 _.
  apply decoder_op_bind;
    [apply decoder_op_seq; intros; apply decoder_op_parse_certificate;
     assumption | intros ?].
  apply decoder_op_read_le_bind; intros n3 _.
  apply decoder_op_bind;
    [apply decoder_op_seq; intros; apply decoder_op_parse_add_attr
    | intros ?].
  decoder_op_steps.
Qed.

Lemma decoder_op_parse_v2_signer {heap : allocator} (fuel : nat) (len : Z) :
  decoder_op (4 * Z.of_nat fuel) (parse_v2_signer heap fuel len).
Proof.
  unfold parse_v2_signer, parse_public_key.
  apply decoder_op_read_le_bind; intros n1 _.
  apply decoder_op_bind;
    [apply decoder_op_parse_v2_signed_data | intros ?].
  apply decoder_op_read_le_bind; intros n2 _.
  apply decoder_op_bind;
    [apply decoder_op_seq; intros; apply decoder_op_parse_signature
    | intros ?].
  decoder_op_steps.
Qed.

Lemma decoder_op_parse_v2_block {heap : allocator} (fuel : nat) (len : Z) :
  decoder_op (4 * Z.of_nat fuel) (parse_v2_block heap fuel len).
Proof.
  unfold parse_v2_block.
  apply decoder_op_bind;
    [apply decoder_op_seq; intros; apply decoder_op_parse_v2_signer
    | intros ?; apply decoder_op_ret].
Qed.

(** X9: the v2 block decoder ends on every stream, whatever its bytes,
    whatever budget it is given and whatever the allocator grants: each
    turn of each of its loops takes at least four bytes, so a quarter of
    the bytes left (and one) is a bound on the turns of any loop.  It never
    changes the content.  When it returns a block, the get position has not
    moved back and failbit is as it was.  The exceptions it throws are
    [std::ios_base::failure], which leaves failbit set, and
    [std::bad_alloc] (a refused buffer of [read_into_vector]; the growth
    of the result vectors is taken as granted) and "Incomplete sequence",
    which leave failbit as it was. *)
Theorem parse_v2_block_outcome {heap : allocator} (fuel : nat) (len : Z)
    (s : istream) :
  bytes_left s < 4 * Z.of_nat fuel ->
  content (snd (parse_v2_block heap fuel len s)) = content s
  /\ match fst (parse_v2_block heap fuel len s) with
     | Ok _ =>
         failbit (snd (parse_v2_block heap fuel len s)) = failbit s
         /\ gpos s <= gpos (snd (parse_v2_block heap fuel len s))
     | Throw e =>
         (e = ios_failure
          /\ failbit (snd (parse_v2_block heap fuel len s)) = true)
         \/ ((e = bad_alloc \/ e = incomplete_sequence)
             /\ failbit (snd (parse_v2_block heap fuel len s)) = failbit s)
     | OutOfFuel => False
     end.
Proof.
  intros Hfuel.
  destruct (parse_v2_block heap fuel len s) as [r s'] eqn:E.
  destruct (decoder_op_parse_v2_block (heap := heap) fuel len _ _ _ E)
    as [C R].
  cbn [fst snd]. split; [exact C|].
  destruct r; [exact R | exact R | lia].
Qed.

(** The theorem at a stream of 24 bytes whose only Digest declares
    [0xFFFFFFFF] bytes of data, with an allocator that grants no more than
    [2^16] bytes: the decoder throws [std::bad_alloc] and leaves the stream
    good, where it throws [std::ios_base::failure] when the request is
    granted. *)
Lemma parse_v2_block_outcome_witness :
  let s := open greedy_digest_stream in
  fst (parse_v2_block small_heap 7 24 s) = Throw bad_alloc
  /\ failbit (snd (parse_v2_block small_heap 7 24 s)) = false
  /\ content (snd (parse_v2_block small_heap 7 24 s)) = content s
  /\ fst (parse_v2_block ample 7 24 s) = Throw ios_failure.
Proof.
  intros s.
  destruct (parse_v2_block_outcome (heap := small_heap) 7 24 s)
    as [C R]; [vm_compute; reflexivity|].
  assert (E : fst (parse_v2_block small_heap 7 24 s) = Throw bad_alloc)
    by (vm_compute; reflexivity).
  rewrite E in R.
  split; [exact E | split; [|split; [exact C | vm_compute; reflexivity]]].
  destruct R as [[D _] | [_ F]]; [discriminate | exact F].
Defined.

(** ** A failed stream stays failed *)

Lemma failbit_op_bind {S A B} (stream : S -> istream) (m : M S A)
    (k : A -> M S B) :
  failbit_op stream m -> (forall a, failbit_op stream (k a)) ->
  failbit_op stream (bind m k).
Proof.
  intros Hm Hk s s' r H.
  apply bind_inv in H.
  destruct H as [(a & s1 & H1 & H2) | [(e & H1 & ->) | (H1 & ->)]].
  - pose proof (Hm _ _ _ H1) as F1. pose proof (Hk a _ _ _ H2) as F2.
    cbv beta iota in F1.
    destruct r as [b|e|]; [congruence | destruct e; congruence | congruence].
  - exact (Hm _ _ _ H1).
  - exact (Hm _ _ _ H1).
Qed.

Lemma failbit_op_ret {S A} (stream : S -> istream) (a : A) :
  failbit_op stream (ret a).
Proof. intros s s' r H. inversion H; subst. reflexivity. Qed.

Lemma failbit_op_out_of_fuel {S A} (stream : S -> istream) :
  failbit_op stream (@out_of_fuel S A).
Proof. intros s s' r H. inversion H; subst. reflexivity. Qed.

Lemma failbit_op_throw {S A} (stream : S -> istream) (e : exn) :
  e <> ios_failure -> failbit_op stream (@throw S A e).
Proof.
  intros He s s' r H. inversion H; subst.
  destruct e; (contradiction || reflexivity).
Qed.

Lemma failbit_op_sentry {A} (m : M istream A) :
  failbit_op (fun s => s) m -> failbit_op (fun s => s) (sentry m).
Proof.
  intros Hm s s' r H. unfold sentry in H. specialize (Hm s).
  cbv beta in *. destruct (failbit s) eqn:F.
  - inversion H; subst. exact F.
  - exact (Hm _ _ H).
Qed.

Lemma failbit_op_seekg (pos : Z) : failbit_op (fun s => s) (seekg pos).
Proof.
  apply failbit_op_sentry. intros s s' r H.
  destruct (pos <? 0); inversion H; subst; reflexivity.
Qed.

Lemma failbit_op_seekg_end : failbit_op (fun s => s) seekg_end.
Proof.
  apply failbit_op_sentry. intros s s' r H. inversion H; subst. reflexivity.
Qed.

Lemma failbit_op_tellg : failbit_op (fun s => s) tellg.
Proof.
  apply failbit_op_sentry. intros s s' r H. inversion H; subst. reflexivity.
Qed.

Lemma failbit_op_read (n : Z) : failbit_op (fun s => s) (read n).
Proof.
  apply failbit_op_sentry. intros s s' r H.
  destruct (n <=? Z.max 0 (size s - gpos s)); inversion H; subst;
    reflexivity.
Qed.

Lemma failbit_op_read_le (w : nat) : failbit_op (fun s => s) (read_le w).
Proof.
  apply failbit_op_bind; [apply failbit_op_read|].
  intros buf. apply failbit_op_ret.
Qed.

Lemma failbit_op_read_into_vector (heap : allocator) (n : Z) :
  failbit_op (fun s => s) (read_into_vector heap n).
Proof.
  unfold read_into_vector. destruct ((0 <? n) && negb (heap n)).
  - apply failbit_op_throw. discriminate.
  - apply failbit_op_read.
Qed.

Create HintDb failure.

#[local] Hint Resolve failbit_op_ret failbit_op_out_of_fuel
  failbit_op_seekg failbit_op_seekg_end failbit_op_tellg
  failbit_op_read failbit_op_read_le failbit_op_read_into_vector : failure.

Ltac failbit_op_steps :=
  repeat first
    [ solve [auto with failure]
    | apply failbit_op_throw; discriminate
    | apply failbit_op_bind; [|intros ?] ].

Lemma failbit_op_seq_loop {T} (f : Z -> M istream T) (seq_len : Z) :
  (forall len, failbit_op (fun s => s) (f len)) ->
  forall (fuel : nat) (parsed_len : Z) (out : list T),
    failbit_op (fun s => s)
      (parse_len_prefixed_seq_loop fuel seq_len f parsed_len out).
Proof.
  intros Hf. induction fuel as [|fuel IH]; intros parsed_len out;
    cbn [parse_len_prefixed_seq_loop];
    destruct (parsed_len <? seq_len); auto with failure.
  apply failbit_op_bind; [auto with failure | intros len].
  apply failbit_op_bind; [apply Hf | intros x]. cbv zeta.
  destruct (seq_len <? wrap 4 (parsed_len + (4 + len))).
  - apply failbit_op_throw. discriminate.
  - apply IH.
Qed.

Lemma failbit_op_seq {T} (f : Z -> M istream T) (fuel : nat) (seq_len : Z) :
  (forall len, failbit_op (fun s => s) (f len)) ->
  failbit_op (fun s => s) (parse_len_prefixed_seq fuel seq_len f).
Proof. intros Hf. apply failbit_op_seq_loop. exact Hf. Qed.

Lemma failbit_op_parse_digest {heap : allocator} (len : Z) :
  failbit_op (fun s => s) (parse_digest heap len).
Proof. unfold parse_digest. failbit_op_steps. Qed.

Lemma failbit_op_parse_certificate {heap : allocator} (len : Z) :
  failbit_op (fun s => s) (parse_certificate heap len).
Proof. apply failbit_op_read_into_vector. Qed.

Lemma failbit_op_parse_add_attr {heap : allocator} (len : Z) :
  failbit_op (fun s => s) (parse_add_attr heap len).
Proof. unfold parse_add_attr. failbit_op_steps. Qed.

Lemma failbit_op_parse_signature {heap : allocator} (len : Z) :
  failbit_op (fun s => s) (parse_signature heap len).
Proof. unfold parse_signature. failbit_op_steps. Qed.

#[local] Hint Resolve failbit_op_seq failbit_op_parse_digest
  failbit_op_parse_certificate failbit_op_parse_add_attr
  failbit_op_parse_signature : failure.

Lemma failbit_op_parse_v2_signed_data {heap : allocator} (fuel : nat)
    (len : Z) :
  failbit_op (fun s => s) (parse_v2_signed_data heap fuel len).
Proof. unfold parse_v2_signed_data. failbit_op_steps. Qed.

#[local] Hint Resolve failbit_op_parse_v2_signed_data : failure.

Lemma failbit_op_parse_v2_signer {heap : allocator} (fuel : nat) (len : Z) :
  failbit_op (fun s => s) (parse_v2_signer heap fuel len).
Proof.
  unfold parse_v2_signer, parse_public_key. failbit_op_steps.
Qed.

#[local] Hint Resolve failbit_op_parse_v2_signer : failure.

Lemma failbit_op_parse_v2_block {heap : allocator} (fuel : nat) (len : Z) :
  failbit_op (fun s => s) (parse_v2_block heap fuel len).
Proof. unfold parse_v2_block. failbit_op_steps. Qed.

Lemma failbit_op_reverse_find_loop (pat : list byte) (window_size : Z) :
  forall (fuel : nat) (carry_buffer : list byte) (current_pos : Z),
    failbit_op (fun s => s)
      (reverse_find_loop fuel pat window_size carry_buffer current_pos).
Proof.
  induction fuel as [|fuel IH]; intros carry_buffer current_pos;
    cbn [reverse_find_loop]; destruct (0 <? current_pos);
    auto with failure.
  cbv zeta.
  apply failbit_op_bind; [auto with failure | intros _].
  apply failbit_op_bind; [auto with failure | intros window].
  destruct (scan_window _ _ _); [apply failbit_op_ret | apply IH].
Qed.

Lemma failbit_op_reverse_find_bytes (pat : list byte) (start : Z) :
  failbit_op (fun s => s) (reverse_find_bytes pat start).
Proof.
  unfold reverse_find_bytes.
  apply failbit_op_bind.
  - destruct (start =? -1); auto with failure.
  - intros _. cbv zeta. destruct (Z.of_nat (length pat) =? 0).
    + apply failbit_op_ret.
    + apply failbit_op_bind; [auto with failure | intros p].
      apply failbit_op_reverse_find_loop.
Qed.

Lemma failbit_op_on_ifs {A} (m : M istream A) :
  failbit_op (fun s => s) m -> failbit_op ifs_ (on_ifs m).
Proof.
  intros Hm si si' r H. apply on_ifs_inv in H. destruct H as (s' & H & ->).
  exact (Hm _ _ _ H).
Qed.

Lemma failbit_op_setter {A} (m : M siginfo A) :
  (forall si, exists a si',
      m si = (Ok a, si') /\ ifs_ si' = ifs_ si) ->
  failbit_op ifs_ m.
Proof.
  intros Hm si si' r H. destruct (Hm si) as (a & si0 & E & F).
  rewrite E in H. inversion H; subst. rewrite F. reflexivity.
Qed.

#[local] Hint Resolve failbit_op_parse_v2_block failbit_op_reverse_find_bytes
  : failure.

#[local] Hint Extern 1 (failbit_op ifs_ (on_ifs _)) =>
  apply failbit_op_on_ifs; auto with failure : failure.
#[local] Hint Extern 1 (failbit_op ifs_ (on_ifs (read_into_array _))) =>
  apply failbit_op_on_ifs, failbit_op_read : failure.
#[local] Hint Extern 1 (failbit_op ifs_ (set_v2_block_pos _)) =>
  apply failbit_op_setter; intros ?; eexists; eexists; split; reflexivity
  : failure.
#[local] Hint Extern 1 (failbit_op ifs_ (set_v3_block_pos _)) =>
  apply failbit_op_setter; intros ?; eexists; eexists; split; reflexivity
  : failure.
#[local] Hint Extern 1 (failbit_op ifs_ (set_v3_1_block_pos _)) =>
  apply failbit_op_setter; intros ?; eexists; eexists; split; reflexivity
  : failure.
#[local] Hint Extern 1 (failbit_op ifs_ (set_v2_block _)) =>
  apply failbit_op_setter; intros ?; eexists; eexists; split; reflexivity
  : failure.

Lemma failbit_op_classify_pair {heap : allocator} (fuel : nat) (id : Z) :
  failbit_op ifs_ (classify_pair heap fuel id).
Proof.
  unfold classify_pair.
  destruct (id =? v2_id); [|destruct (id =? v3_id);
                             [|destruct (id =? v3_1_id)]];
    failbit_op_steps.
Qed.

Lemma failbit_op_walk_pair {heap : allocator} (fuel : nat) (i : Z) :
  failbit_op ifs_ (walk_pair heap fuel i).
Proof.
  unfold walk_pair.
  repeat first [ solve [auto with failure]
               | apply failbit_op_classify_pair
               | apply failbit_op_bind; [|intros ?] ].
Qed.

Lemma failbit_op_walk_pairs {heap : allocator} (apk_sig_size_of_block_pos : Z) :
  forall (fuel : nat) (i : Z),
    failbit_op ifs_ (walk_pairs heap fuel apk_sig_size_of_block_pos i).
Proof.
  induction fuel as [|fuel IH]; intros i; cbn [walk_pairs];
    destruct (i <? apk_sig_size_of_block_pos); auto with failure.
  apply failbit_op_bind; [apply failbit_op_walk_pair | intros i'].
  apply IH.
Qed.

Lemma failbit_op_parse {heap : allocator} (fuel : nat) :
  failbit_op ifs_ (parse heap fuel).
Proof.
  unfold parse.
  apply failbit_op_bind; [auto with failure | intros p].
  destruct (p =? -1); [apply failbit_op_throw; discriminate|]. cbv zeta.
  do 6 (apply failbit_op_bind; [auto with failure | intros ?]).
  match goal with |- context [negb ?c] => destruct c end; cbn [negb];
    [|apply failbit_op_throw; discriminate].
  do 2 (apply failbit_op_bind; [auto with failure | intros ?]).
  apply failbit_op_walk_pairs.
Qed.

(** [parse] on an object whose stream has failed. *)
Lemma parse_on_failed_stream {heap : allocator} (fuel : nat) (si : siginfo) :
  failbit (ifs_ si) = true -> parse heap fuel si = (Throw ios_failure, si).
Proof.
  intros F. destruct si as [s p2 p3 p31 b]. cbn [ifs_] in F.
  assert (E : reverse_find_bytes eocd_magic (-1) s = (Throw ios_failure, s)).
  { unfold reverse_find_bytes. change (-1 =? -1) with true. cbv iota.
    unfold bind at 1, seekg_end, sentry. rewrite F. reflexivity. }
  unfold parse. unfold bind at 1.
  rewrite (on_ifs_run _ _ _ _ p2 p3 p31 b E). reflexivity.
Qed.

(** X10: a failure of the stream is final.  When [parse] throws
    [std::ios_base::failure], it leaves failbit set on the stream of the
    object, and every later call of [parse] throws
    [std::ios_base::failure] at once, before it reads anything, and leaves
    the object as it is: nothing in the class clears the state of the
    stream. *)
Theorem parse_failure_is_final {heap : allocator} (fuel : nat)
    (si si' : siginfo) :
  parse heap fuel si = (Throw ios_failure, si') ->
  failbit (ifs_ si') = true
  /\ forall fuel' : nat, parse heap fuel' si' = (Throw ios_failure, si').
Proof.
  intros H. pose proof (failbit_op_parse (heap := heap) fuel _ _ _ H) as F.
  split; [exact F|]. intros fuel'. apply parse_on_failed_stream. exact F.
Qed.

(** The theorem at a parse whose walk seeks to the position [-1]. *)
Lemma parse_failure_is_final_witness :
  let si' := snd (parse ample 4 (new_siginfo backward_pair_file)) in
  failbit (ifs_ si') = true
  /\ parse ample 7 si' = (Throw ios_failure, si').
Proof.
  destruct (parse_failure_is_final (heap := ample) 4
              (new_siginfo backward_pair_file)
              (snd (parse ample 4 (new_siginfo backward_pair_file))))
    as [F H].
  - vm_compute. reflexivity.
  - split; [exact F | exact (H 7%nat)].
Defined.

(** ** [parse] up to the walk *)

Lemma record_found_true (fields comment : list byte) (off : Z) :
  record_found fields comment off = true ->
  length fields = 12%nat
  /\ 0 <= off < 2 ^ 32
  /\ (length (eocd_record fields comment off) <= 4096)%nat
  /\ forall k : nat,
       (0 < k)%nat ->
       firstn (length eocd_magic)
         (skipn k (eocd_record fields comment off
                   ++ repeat x00 (length eocd_magic - 1)))
       <> eocd_magic.
Proof.
  unfold record_found. rewrite !andb_true_iff.
  intros [[[Hf Ho] Hl] Hall].
  apply Nat.eqb_eq in Hf. apply is_u32_true in Ho. apply Nat.leb_le in Hl.
  repeat (split; [assumption|]).
  intros k Hk. change (length eocd_magic - 1)%nat with 3%nat.
  set (rec := eocd_record fields comment off) in *.
  destruct (Nat.ltb_spec k (length rec + 3)) as [Hin|Hout].
  - rewrite forallb_forall in Hall.
    specialize (Hall k). rewrite in_seq in Hall.
    specialize (Hall ltac:(lia)). apply negb_true_iff in Hall.
    apply bytes_eqb_false in Hall. intros E. apply Hall. symmetry. exact E.
  - rewrite skipn_all2 by (rewrite length_app, repeat_length; lia).
    discriminate.
Qed.

(** [parse] on a file that ends with a record the scanner finds: it reads
    the offset of the central directory and goes there. *)
Lemma parse_finds_record {heap : allocator} (fuel : nat)
    (front fields comment : list byte)
    (off : Z) :
  record_found fields comment off = true ->
  let file := front ++ eocd_record fields comment off in
  parse heap fuel (new_siginfo file) =
  (on_ifs (seekg (off - 16)) ;;
   magic <- on_ifs (read_into_array 16) ;;
   if negb (bytes_eqb magic apk_magic) then throw magic_not_found
   else
     on_ifs (seekg (off - 16 - 8)) ;;
     apk_sig_size_of_block <- on_ifs (read_le 8) ;;
     walk_pairs heap fuel (off - 16 - 8)
       (to_streamoff (off - to_streamoff apk_sig_size_of_block)))
    (mk_siginfo (mk_istream file off false) (-1) (-1) (-1) (mk_v2_block [])).
Proof.
  intros Hrec file.
  destruct (record_found_true _ _ _ Hrec) as (Hf & Hoff & Hlen & Hno).
  assert (Hlo : (2 <= length (eocd_record fields comment off))%nat)
    by (unfold eocd_record; rewrite length_app; cbn [length eocd_magic]; lia).
  pose proof (reverse_find_bytes_last_window eocd_magic front
                (eocd_record fields comment off)
                ltac:(discriminate) (conj Hlo Hlen) eq_refl Hno) as Hscan.
  fold file in Hscan.
  unfold parse, new_siginfo.
  erewrite bind_ok by (apply on_ifs_run; exact Hscan).
  destruct (Z.eqb_spec (Z.of_nat (length front)) (-1)); [lia|].
  cbv zeta.
  erewrite bind_ok by (apply on_ifs_run, seekg_at; lia).
  erewrite bind_ok
    by (apply on_ifs_run;
        apply (decodes_run _ _ _ file (front ++ eocd_magic ++ fields)
                 comment _ (decodes_read_le_4 off Hoff));
        [ unfold file, eocd_record; rewrite <- !app_assoc; reflexivity
        | rewrite !length_app, Hf, !Nat2Z.inj_add;
          change (length eocd_magic) with 4%nat; lia ]).
  erewrite bind_ok by (apply on_ifs_run, seekg_at; lia).
  erewrite bind_ok by (apply on_ifs_run, tellg_at).
  reflexivity.
Qed.

(** [parse] on an archive with a signing block: it reaches the walk over
    the pair region. *)
Lemma parse_reaches_walk {heap : allocator} (fuel : nat)
    (pre pairs cdir fields comment : list byte) :
  let i := Z.of_nat (length pre) in
  let n := Z.of_nat (length pairs) in
  let file := archive pre pairs cdir fields comment in
  record_found fields comment (i + n + 24) = true ->
  parse heap fuel (new_siginfo file) =
  walk_pairs heap fuel (i + n) i
    (mk_siginfo (mk_istream file (i + n + 8) false) (-1) (-1) (-1)
       (mk_v2_block [])).
Proof.
  intros i n file Hrec.
  destruct (record_found_true _ _ _ Hrec) as (Hf & Hoff & _).
  assert (Hfile : file =
            (pre ++ pairs ++ le_bytes 8 (n + 24) ++ apk_magic ++ cdir)
            ++ eocd_record fields comment (i + n + 24)).
  { unfold file, archive, eocd_record. rewrite <- !app_assoc. reflexivity. }
  pose proof (parse_finds_record (heap := heap) fuel
                (pre ++ pairs ++ le_bytes 8 (n + 24) ++ apk_magic ++ cdir)
                fields comment (i + n + 24) Hrec) as H.
  cbv zeta in H. rewrite <- Hfile in H. rewrite H. clear H.
  erewrite bind_ok by (apply on_ifs_run, seekg_at; unfold i, n; lia).
  erewrite bind_ok
    by (apply on_ifs_run;
        apply (decodes_run _ _ _ file
                 (pre ++ pairs ++ le_bytes 8 (n + 24))
                 (cdir ++ eocd_record fields comment (i + n + 24)) _
                 (decodes_read apk_magic));
        [ rewrite Hfile, <- !app_assoc; reflexivity
        | rewrite !length_app, !le_bytes_length, !Nat2Z.inj_add;
          unfold i, n; lia ]).
  replace (bytes_eqb apk_magic apk_magic) with true by reflexivity.
  cbn [negb].
  erewrite bind_ok by (apply on_ifs_run, seekg_at; unfold i, n; lia).
  erewrite bind_ok
    by (apply on_ifs_run;
        apply (decodes_run _ _ _ file (pre ++ pairs)
                 (apk_magic ++ cdir
                  ++ eocd_record fields comment (i + n + 24)) _
                 (decodes_read_le_8 (n + 24) ltac:(unfold n; lia)));
        [ rewrite Hfile, <- !app_assoc; reflexivity
        | rewrite !length_app, !Nat2Z.inj_add; unfold i, n; lia ]).
  rewrite (to_streamoff_small (n + 24)) by (unfold n; lia).
  rewrite to_streamoff_small by (unfold i, n; lia).
  rewrite le_bytes_length.
  replace (i + n + 24 - (n + 24)) with i by lia.
  replace (i + n + 24 - 16 - 8) with (i + n) by lia.
  replace (i + n + Z.of_nat 8) with (i + n + 8) by lia.
  reflexivity.
Qed.

(** ** The walk, pair by pair *)

Lemma walk_pair_other {heap : allocator} (fuel : nat) (si : siginfo)
    (pre rest : list byte)
    (pair_len id : Z) :
  failbit (ifs_ si) = false ->
  content (ifs_ si) = pre ++ le_bytes 8 pair_len ++ le_bytes 4 id ++ rest ->
  0 <= pair_len < 2 ^ 64 ->
  0 <= id < 2 ^ 32 ->
  id <> v2_id ->
  let i := Z.of_nat (length pre) in
  walk_pair heap fuel i si =
  (Ok (next_pair i pair_len),
   mk_siginfo (mk_istream (content (ifs_ si)) (i + 12) false)
     (v2_block_pos_ si)
     (if id =? v3_id then i + 12 else v3_block_pos_ si)
     (if id =? v3_id then v3_1_block_pos_ si
      else if id =? v3_1_id then i + 12 else v3_1_block_pos_ si)
     (v2_block_ si)).
Proof.
  intros Hgood Hfile Hl Hid H2 i.
  destruct si as [[c p f] p2 p3 p31 b].
  cbn [ifs_ content failbit v2_block_pos_ v3_block_pos_ v3_1_block_pos_
         v2_block_] in *.
  subst f c. unfold i.
  rewrite (walk_pair_header fuel pre rest pair_len id p p2 p3 p31 b Hl Hid).
  unfold classify_pair.
  destruct (Z.eqb_spec id v2_id); [contradiction|].
  destruct (id =? v3_id); [reflexivity|].
  destruct (id =? v3_1_id); reflexivity.
Qed.

Lemma encode_entry_length (trailer : list byte) (e : pair_entry) :
  (12 <= length (encode_entry trailer e))%nat.
Proof.
  destruct e as [b|id value]; cbn [encode_entry];
    unfold encode_v2_pair, encode_pair;
    rewrite !length_app, !le_bytes_length; lia.
Qed.

(** The walk over a region of well-formed pairs: it takes every pair,
    stores the block of each v2 pair and records the position of the value
    of each pair with one of the three ids. *)
Lemma walk_pairs_entries {heap : allocator}
    (Hheap : forall n : Z, heap n = true) (trailer rest : list byte) :
  length trailer = 4%nat ->
  forall (es : list pair_entry) (fuel : nat) (pre : list byte)
         (g p2 p3 p31 : Z) (b : v2_block),
    forallb (entry_ok trailer) es = true ->
    Z.of_nat (length pre) + Z.of_nat (length (encode_entries trailer es))
      < 2 ^ 32 ->
    (length (encode_entries trailer es) <= fuel)%nat ->
    exists g' p2' p3' p31' : Z,
      walk_pairs heap fuel
        (Z.of_nat (length pre)
         + Z.of_nat (length (encode_entries trailer es)))
        (Z.of_nat (length pre))
        (mk_siginfo
           (mk_istream (pre ++ encode_entries trailer es ++ rest) g false)
           p2 p3 p31 b)
      = (Ok tt,
         mk_siginfo
           (mk_istream (pre ++ encode_entries trailer es ++ rest) g' false)
           p2' p3' p31' (last_v2_block es b))
      /\ negb (p2' =? -1) = (negb (p2 =? -1) || existsb is_v2_entry es)%bool
      /\ negb (p3' =? -1)
         = (negb (p3 =? -1) || existsb (has_id v3_id) es)%bool
      /\ negb (p31' =? -1)
         = (negb (p31 =? -1) || existsb (has_id v3_1_id) es)%bool.
Proof.
  intros Ht.
  induction es as [|e es IH]; intros fuel pre g p2 p3 p31 b Hok Hsize Hfuel.
  - cbn [encode_entries flat_map length last_v2_block fold_left existsb].
    exists g, p2, p3, p31. rewrite !orb_false_r.
    split; [apply walk_pairs_done; lia | repeat split].
  - cbn [forallb] in Hok. apply andb_prop in Hok. destruct Hok as [He Hes].
    cbn [encode_entries flat_map] in *. fold (encode_entries trailer es) in *.
    rewrite length_app in Hsize, Hfuel.
    pose proof (encode_entry_length trailer e) as Hlen.
    destruct fuel as [|fuel]; [lia|].
    set (file := pre ++ (encode_entry trailer e ++ encode_entries trailer es)
                 ++ rest).
    assert (Hfile' : file =
              (pre ++ encode_entry trailer e) ++ encode_entries trailer es
              ++ rest)
      by (unfold file; rewrite <- !app_assoc; reflexivity).
    specialize (IH fuel (pre ++ encode_entry trailer e)).
    rewrite <- Hfile' in IH.
    rewrite length_app, Nat2Z.inj_add in IH.
    cbn [walk_pairs].
    destruct (Z.ltb_spec (Z.of_nat (length pre))
                (Z.of_nat (length pre)
                 + Z.of_nat (length (encode_entry trailer e
                                     ++ encode_entries trailer es))));
      [|rewrite length_app in *; lia].
    rewrite length_app, Nat2Z.inj_add, Z.add_assoc.
    destruct e as [b' | id value].
    + (* a v2 pair *)
      cbn [entry_ok] in He. apply andb_prop in He. destruct He as [Hids Hb].
      apply Z.ltb_lt in Hb.
      set (blk := encode_v2_block trailer b') in *.
      assert (Hentry : length (encode_entry trailer (v2_entry b'))
                       = (16 + length blk)%nat).
      { cbn [encode_entry]. unfold encode_v2_pair, encode_pair, len_prefixed.
        fold blk. rewrite !length_app, !le_bytes_length. lia. }
      rewrite Hentry in *.
      pose proof (walk_pair_v2 (heap := heap) (S fuel)
                    (mk_siginfo (mk_istream file g false) p2 p3 p31 b)
                    pre (blk ++ encode_entries trailer es ++ rest)
                    (Z.of_nat (length blk) + 8) (Z.of_nat (length blk))
                    eq_refl) as Hw.
      cbn [ifs_ content v3_block_pos_ v3_1_block_pos_ v2_block_] in Hw.
      specialize (Hw ltac:(unfold file; cbn [encode_entry];
                           unfold encode_v2_pair, encode_pair, len_prefixed;
                           fold blk; rewrite <- !app_assoc; reflexivity)
                     ltac:(lia) ltac:(lia)).
      cbv zeta in Hw.
      pose proof (decodes_run _ _ _ file
                    (pre ++ le_bytes 8 (Z.of_nat (length blk) + 8)
                     ++ le_bytes 4 v2_id
                     ++ le_bytes 4 (Z.of_nat (length blk)))
                    (encode_entries trailer es ++ rest)
                    (Z.of_nat (length pre) + 16)
                    (decodes_parse_v2_block Hheap (S fuel) trailer b' Ht Hids
                       Hb ltac:(fold blk; lia))) as Hd.
      fold blk in Hd.
      rewrite Hd in Hw; clear Hd.
      2:{ unfold file. cbn [encode_entry].
          unfold encode_v2_pair, encode_pair, len_prefixed. fold blk.
          rewrite <- !app_assoc. reflexivity. }
      2:{ rewrite !length_app, !le_bytes_length. lia. }
      erewrite bind_ok by exact Hw.
      rewrite next_pair_no_wrap by lia.
      destruct (IH (Z.of_nat (length pre) + 16 + Z.of_nat (length blk))
                  (Z.of_nat (length pre) + 12) p3 p31 b' Hes
                  ltac:(lia) ltac:(lia))
        as (g' & p2' & p3' & p31' & Hrun & F2 & F3 & F31).
      exists g', p2', p3', p31'.
      replace (Z.of_nat (length pre) + (Z.of_nat (length blk) + 8 + 8))
        with (Z.of_nat (length pre) + Z.of_nat (16 + length blk)) by lia.
      split; [exact Hrun|].
      cbn [existsb is_v2_entry has_id last_v2_block fold_left orb].
      rewrite F2, F3, F31.
      replace (Z.of_nat (length pre) + 12 =? -1) with false
        by (symmetry; apply Z.eqb_neq; lia).
      cbn [negb orb]. rewrite orb_true_r. repeat split.
    + (* a pair with another id *)
      cbn [entry_ok] in He. apply andb_prop in He. destruct He as [Hid Hn2].
      apply is_u32_true in Hid. apply negb_true_iff, Z.eqb_neq in Hn2.
      assert (Hentry : length (encode_entry trailer (other_entry id value))
                       = (12 + length value)%nat).
      { cbn [encode_entry]. unfold encode_pair.
        rewrite !length_app, !le_bytes_length. lia. }
      rewrite Hentry in *.
      pose proof (walk_pair_other (heap := heap) (S fuel)
                    (mk_siginfo (mk_istream file g false) p2 p3 p31 b)
                    pre (value ++ encode_entries trailer es ++ rest)
                    (4 + Z.of_nat (length value)) id eq_refl) as Hw.
      cbn [ifs_ content v2_block_pos_ v3_block_pos_ v3_1_block_pos_
             v2_block_] in Hw.
      specialize (Hw ltac:(unfold file; cbn [encode_entry];
                           unfold encode_pair;
                           rewrite <- !app_assoc; reflexivity)
                     ltac:(lia) Hid Hn2).
      cbv zeta in Hw.
      erewrite bind_ok by exact Hw.
      rewrite next_pair_no_wrap by lia.
      destruct (IH (Z.of_nat (length pre) + 12) p2
                  (if id =? v3_id then Z.of_nat (length pre) + 12 else p3)
                  (if id =? v3_id then p31
                   else if id =? v3_1_id then Z.of_nat (length pre) + 12
                        else p31)
                  b Hes ltac:(lia) ltac:(lia))
        as (g' & p2' & p3' & p31' & Hrun & F2 & F3 & F31).
      exists g', p2', p3', p31'.
      replace (Z.of_nat (length pre) + (4 + Z.of_nat (length value) + 8))
        with (Z.of_nat (length pre) + Z.of_nat (12 + length value)) by lia.
      split; [exact Hrun|].
      cbn [existsb is_v2_entry has_id last_v2_block fold_left orb].
      rewrite F2, F3, F31.
      assert (E12 : (Z.of_nat (length pre) + 12 =? -1) = false)
        by (apply Z.eqb_neq; lia).
      assert (Hdiff : v3_id <> v3_1_id) by discriminate.
      destruct (Z.eqb_spec id v3_id) as [->|];
        [destruct (Z.eqb_spec v3_id v3_1_id); [contradiction|]
        | destruct (Z.eqb_spec id v3_1_id)];
        rewrite ?E12; cbn [negb orb]; rewrite ?orb_true_r; repeat split.
Qed.

(** ** [parse], end to end *)

(** X11: [parse] on a well-formed archive.  For an archive whose signing
    block holds any sequence of well-formed pairs (each either a v2 pair
    whose value is a well-formed v2 block behind its [u32] length, or a
    pair with another [u32] id, any value and the length
    [4 + length value]), whose end-of-central-directory record the scanner
    finds, [parse] on a new object succeeds; [has_v2_block],
    [has_v3_block] and [has_v3_1_block] tell whether the block holds a pair
    with the id [0x7109871a], [0xf05368c0], [0x1b93ad61]; and
    [get_v2_block] is the decoded block of the last v2 pair, the empty
    block when there is none.  The allocator is one that grants the memory
    that the records ask for. *)
Theorem parse_walks_every_pair {heap : allocator} (fuel : nat)
    (trailer : list byte) (es : list pair_entry)
    (pre cdir fields comment : list byte) :
  let pairs := encode_entries trailer es in
  let file := archive pre pairs cdir fields comment in
  (forall n : Z, heap n = true) ->
  length trailer = 4%nat ->
  forallb (entry_ok trailer) es = true ->
  record_found fields comment
    (Z.of_nat (length pre) + Z.of_nat (length pairs) + 24) = true ->
  (length pairs <= fuel)%nat ->
  fst (parse heap fuel (new_siginfo file)) = Ok tt
  /\ has_v2_block (snd (parse heap fuel (new_siginfo file)))
     = existsb is_v2_entry es
  /\ has_v3_block (snd (parse heap fuel (new_siginfo file)))
     = existsb (has_id v3_id) es
  /\ has_v3_1_block (snd (parse heap fuel (new_siginfo file)))
     = existsb (has_id v3_1_id) es
  /\ get_v2_block (snd (parse heap fuel (new_siginfo file)))
     = last_v2_block es (mk_v2_block []).
Proof.
  intros pairs file Hheap Ht Hok Hrec Hfuel.
  destruct (record_found_true _ _ _ Hrec) as (_ & Hoff & _).
  pose proof (parse_reaches_walk (heap := heap) fuel pre pairs cdir fields
                comment Hrec) as H.
  cbv zeta in H. fold file in H. rewrite H. clear H.
  destruct (walk_pairs_entries Hheap trailer
              (le_bytes 8 (Z.of_nat (length pairs) + 24) ++ apk_magic
               ++ cdir ++ eocd_magic ++ fields
               ++ le_bytes 4 (Z.of_nat (length pre)
                              + Z.of_nat (length pairs) + 24)
               ++ comment)
              Ht es fuel pre
              (Z.of_nat (length pre) + Z.of_nat (length pairs) + 8)
              (-1) (-1) (-1) (mk_v2_block []) Hok
              ltac:(fold pairs; lia) Hfuel)
    as (g' & p2' & p3' & p31' & Hrun & F2 & F3 & F31).
  fold pairs in Hrun. unfold file, archive. rewrite Hrun.
  unfold has_v2_block, has_v3_block, has_v3_1_block, get_v2_block.
  cbn [fst snd v2_block_pos_ v3_block_pos_ v3_1_block_pos_ v2_block_].
  rewrite F2, F3, F31. repeat split.
Qed.

(** The theorem at an archive with three pairs: an unknown id, a v2 pair
    with one signer, and a v3 pair. *)
Lemma parse_walks_every_pair_witness :
  let file :=
    archive [xee] (encode_entries zero_trailer three_pair_entries)
      [x50; x4b; x01; x02] (repeat x00 12) [x00; x00] in
  fst (parse ample 200 (new_siginfo file)) = Ok tt
  /\ has_v2_block (snd (parse ample 200 (new_siginfo file))) = true
  /\ has_v3_block (snd (parse ample 200 (new_siginfo file))) = true
  /\ has_v3_1_block (snd (parse ample 200 (new_siginfo file))) = false
  /\ get_v2_block (snd (parse ample 200 (new_siginfo file))) = sample_block.
Proof.
  apply (parse_walks_every_pair (heap := ample) 200 zero_trailer
           three_pair_entries [xee] [x50; x4b; x01; x02] (repeat x00 12)
           [x00; x00]).
  - reflexivity.
  - reflexivity.
  - reflexivity.
  - vm_compute. reflexivity.
  - apply Nat.leb_le. vm_compute. reflexivity.
Defined.

(** ** A walk that never ends *)

Lemma next_pair_stationary (i : Z) :
  0 <= i < 2 ^ 63 -> next_pair i (2 ^ 64 - 8) = i.
Proof.
  intros Hi. unfold next_pair.
  replace (to_streamoff (wrap 8 (2 ^ 64 - 8 + 8))) with 0 by reflexivity.
  rewrite Z.add_0_r. apply to_streamoff_small. lia.
Qed.

Lemma walk_pairs_stationary {heap : allocator} (pre rest : list byte)
    (id bound : Z) :
  0 <= id < 2 ^ 32 ->
  id <> v2_id ->
  Z.of_nat (length pre) < bound ->
  Z.of_nat (length pre) < 2 ^ 63 ->
  forall (fuel : nat) (g p2 p3 p31 : Z) (b : v2_block),
    fst (walk_pairs heap fuel bound (Z.of_nat (length pre))
           (mk_siginfo
              (mk_istream
                 (pre ++ le_bytes 8 (2 ^ 64 - 8) ++ le_bytes 4 id ++ rest)
                 g false)
              p2 p3 p31 b))
    = OutOfFuel.
Proof.
  intros Hid H2 Hb Hi.
  induction fuel as [|fuel IH]; intros g p2 p3 p31 b; cbn [walk_pairs];
    (destruct (Z.ltb_spec (Z.of_nat (length pre)) bound); [|lia]);
    [reflexivity|].
  pose proof (walk_pair_other (heap := heap) (S fuel)
                (mk_siginfo
                   (mk_istream
                      (pre ++ le_bytes 8 (2 ^ 64 - 8) ++ le_bytes 4 id
                       ++ rest) g false) p2 p3 p31 b)
                pre rest (2 ^ 64 - 8) id eq_refl eq_refl ltac:(lia) Hid H2)
    as Hw.
  cbv zeta in Hw.
  cbn [ifs_ content v2_block_pos_ v3_block_pos_ v3_1_block_pos_ v2_block_]
    in Hw.
  erewrite bind_ok by exact Hw.
  rewrite next_pair_stationary by lia.
  apply IH.
Qed.

(** X12: the walk does not end on every file.  A pair whose length field
    holds [0xFFFFFFFFFFFFFFF8] and whose id is not [0x7109871a] makes
    [i += pair_len + 8] add zero: the walk takes the same pair again, turn
    after turn.  On an archive whose signing block starts with such a pair,
    [parse] has not returned after any number of turns. *)
Theorem parse_never_returns {heap : allocator} (value more : list byte) (id : Z)
    (pre cdir fields comment : list byte) :
  let pairs := encode_pair (2 ^ 64 - 8) id value ++ more in
  let file := archive pre pairs cdir fields comment in
  is_u32 id = true ->
  id <> v2_id ->
  record_found fields comment
    (Z.of_nat (length pre) + Z.of_nat (length pairs) + 24) = true ->
  forall fuel : nat, fst (parse heap fuel (new_siginfo file)) = OutOfFuel.
Proof.
  intros pairs file Hid H2 Hrec fuel.
  apply is_u32_true in Hid.
  destruct (record_found_true _ _ _ Hrec) as (_ & Hoff & _).
  pose proof (parse_reaches_walk (heap := heap) fuel pre pairs cdir fields
                comment Hrec) as H.
  cbv zeta in H. fold file in H. rewrite H. clear H.
  assert (Hlen : (12 <= length pairs)%nat)
    by (unfold pairs, encode_pair; rewrite !length_app, !le_bytes_length;
        lia).
  assert (Hb : Z.of_nat (length pre)
               < Z.of_nat (length pre) + Z.of_nat (length pairs)) by lia.
  assert (Hi : Z.of_nat (length pre) < 2 ^ 63) by lia.
  unfold file, archive.
  match goal with
  | |- context [mk_istream (pre ++ pairs ++ ?X)] =>
      replace (pre ++ pairs ++ X)
        with (pre ++ le_bytes 8 (2 ^ 64 - 8) ++ le_bytes 4 id
              ++ (value ++ more ++ X))
        by (unfold pairs, encode_pair; rewrite <- !app_assoc; reflexivity)
  end.
  apply walk_pairs_stationary; assumption.
Qed.

(** The theorem at an archive whose only pair has that length, after 1000
    turns. *)
Lemma parse_never_returns_witness :
  fst (parse ample 1000 (new_siginfo stationary_pair_file)) = OutOfFuel.
Proof.
  apply (parse_never_returns (heap := ample) [x01; x02; x03; x04] [] 0x42726563
           [] [] (repeat x00 12) [x00; x00]).
  - reflexivity.
  - discriminate.
  - vm_compute. reflexivity.
Defined.

(** ** The errors of [parse] *)

Lemma occurs_false (pat bytes : list byte) (j : nat) :
  occurs pat bytes = false -> (j < length bytes)%nat ->
  equal_at pat bytes j = false.
Proof.
  unfold occurs. intros H Hj.
  destruct (equal_at pat bytes j) eqn:E; [|reflexivity].
  rewrite <- H. symmetry. apply existsb_exists.
  exists j. split; [apply in_seq; lia | exact E].
Qed.

(** X13: a file in which the end-of-central-directory magic stands
    nowhere, not even against the three zeros that the scanner puts behind
    the last byte, is refused: [parse] throws the [parse_error] "Not a zip
    file, could not find EOCD Magic", and the object keeps its flags
    false. *)
Theorem parse_not_a_zip_file {heap : allocator} (fuel : nat)
    (file : list byte) :
  occurs eocd_magic (file ++ repeat x00 3) = false ->
  fst (parse heap fuel (new_siginfo file)) = Throw not_a_zip_file
  /\ has_v2_block (snd (parse heap fuel (new_siginfo file))) = false
  /\ has_v3_block (snd (parse heap fuel (new_siginfo file))) = false
  /\ has_v3_1_block (snd (parse heap fuel (new_siginfo file))) = false.
Proof.
  intros Hno.
  destruct (reverse_find_bytes_scan eocd_magic file (-1)
              ltac:(discriminate) (or_introl eq_refl))
    as (r & s' & Hrun & Hr & _).
  assert (r = -1) as ->.
  { destruct Hr as [Hr | [Ht He]]; [exact Hr|].
    apply tested_spec in Ht. destruct Ht as [Hrange _].
    unfold scan_start, scanned_bytes in *.
    change (-1 =? -1) with true in *. cbv iota in *.
    rewrite Nat2Z.id, firstn_all in He.
    change (length eocd_magic - 1)%nat with 3%nat in He.
    rewrite (occurs_false _ _ _ Hno) in He
      by (rewrite length_app; lia).
    discriminate He. }
  unfold parse, new_siginfo.
  erewrite bind_ok by (apply on_ifs_run; exact Hrun).
  change (-1 =? -1) with true. cbv iota.
  repeat split.
Qed.

(** The theorem at a file of three bytes. *)
Lemma parse_not_a_zip_file_witness :
  fst (parse ample 1 (new_siginfo not_a_zip)) = Throw not_a_zip_file
  /\ has_v2_block (snd (parse ample 1 (new_siginfo not_a_zip))) = false
  /\ has_v3_block (snd (parse ample 1 (new_siginfo not_a_zip))) = false
  /\ has_v3_1_block (snd (parse ample 1 (new_siginfo not_a_zip))) = false.
Proof. apply parse_not_a_zip_file. reflexivity. Defined.

(** X14: a zip archive with no signing block.  When the scanner finds the
    end-of-central-directory record, the offset of the central directory
    lies in the file and at least 16 bytes from its start, and the 16 bytes
    before that offset are not "APK Sig Block 42", [parse] throws the
    [parse_error] "APK signing block magic not found where expected". *)
Theorem parse_no_signing_block {heap : allocator} (fuel : nat)
    (front fields comment : list byte) (off : Z) :
  let file := front ++ eocd_record fields comment off in
  record_found fields comment off = true ->
  16 <= off <= Z.of_nat (length file) ->
  firstn 16 (skipn (Z.to_nat (off - 16)) file) <> apk_magic ->
  fst (parse heap fuel (new_siginfo file)) = Throw magic_not_found.
Proof.
  intros file Hrec Hoff Hmagic.
  pose proof (parse_finds_record (heap := heap) fuel front fields comment
                off Hrec) as H.
  cbv zeta in H. fold file in H. rewrite H. clear H.
  erewrite bind_ok by (apply on_ifs_run, seekg_at; lia).
  erewrite bind_ok
    by (apply on_ifs_run, (read_within (mk_istream file (off - 16) false));
        [ reflexivity | lia | left; unfold size; cbn [gpos content]; lia ]).
  cbn [gpos content].
  replace (bytes_eqb
             (firstn (Z.to_nat (Z.of_nat 16))
                (skipn (Z.to_nat (off - 16)) file)) apk_magic)
    with false by (symmetry; apply bytes_eqb_false; exact Hmagic).
  reflexivity.
Qed.

(** The theorem at a zip archive of one entry of sixteen bytes. *)
Lemma parse_no_signing_block_witness :
  fst (parse ample 1 (new_siginfo unsigned_zip)) = Throw magic_not_found.
Proof.
  apply (parse_no_signing_block (heap := ample) 1 (repeat x2e 16)
           (repeat x00 12) [x00; x00] 16).
  - vm_compute. reflexivity.
  - vm_compute. split; discriminate.
  - vm_compute. discriminate.
Defined.

(** X15: an offset of the central directory that leaves no room for the
    magic.  When the scanner finds the end-of-central-directory record and
    the offset it holds is less than 16 or lies behind the end of the
    file, [parse] throws [std::ios_base::failure], not a [parse_error]:
    the seek to a negative position, or the read of the 16 bytes, fails.
    The empty zip archive is such a file. *)
Theorem parse_offset_out_of_range {heap : allocator} (fuel : nat)
    (front fields comment : list byte) (off : Z) :
  let file := front ++ eocd_record fields comment off in
  record_found fields comment off = true ->
  off < 16 \/ Z.of_nat (length file) < off ->
  fst (parse heap fuel (new_siginfo file)) = Throw ios_failure
  /\ failbit (ifs_ (snd (parse heap fuel (new_siginfo file)))) = true.
Proof.
  intros file Hrec Hoff.
  pose proof (parse_finds_record (heap := heap) fuel front fields comment
                off Hrec) as H.
  cbv zeta in H. fold file in H. rewrite H. clear H.
  match goal with
  | |- fst ?run = _ /\ _ =>
      assert (E : exists si',
                 run = (Throw ios_failure, si')
                 /\ failbit (ifs_ si') = true)
  end.
  { destruct (Z.ltb_spec off 16) as [Hlow|Hhigh].
    - unfold bind at 1, on_ifs, seekg, sentry, set_failbit.
      cbn [ifs_ failbit content gpos].
      destruct (Z.ltb_spec (off - 16) 0); [|lia].
      eexists. split; reflexivity.
    - destruct Hoff as [Hoff|Hoff]; [lia|].
      erewrite bind_ok by (apply on_ifs_run, seekg_at; lia).
      unfold bind at 1.
      erewrite on_ifs_run
        by (apply (read_beyond (mk_istream file (off - 16) false));
            [ reflexivity | lia | unfold size; cbn [gpos content]; lia ]).
      eexists. split; reflexivity. }
  destruct E as (si' & -> & F). split; [reflexivity | exact F].
Qed.

(** The theorem at the empty zip archive, whose offset is 0. *)
Lemma parse_offset_out_of_range_witness :
  fst (parse ample 1 (new_siginfo empty_zip)) = Throw ios_failure
  /\ failbit (ifs_ (snd (parse ample 1 (new_siginfo empty_zip)))) = true.
Proof.
  apply (parse_offset_out_of_range (heap := ample) 1 [] (repeat x00 12)
           [x00; x00] 0).
  - vm_compute. reflexivity.
  - left. lia.
Defined.

(** X16: a v2 pair whose block does not decode.  When the decoder of the
    first pair of the signing block, a v2 pair, throws, [parse] throws the
    same exception; the position of the pair has been recorded before the
    decoder ran, so that [has_v2_block] answers true afterwards, while
    [get_v2_block] is still the empty block. *)
Theorem parse_failed_v2_decode {heap : allocator} (fuel : nat)
    (pre more cdir fields comment : list byte) (pair_len v2_block_len : Z)
    (e : exn) :
  let pairs :=
    le_bytes 8 pair_len ++ le_bytes 4 v2_id ++ le_bytes 4 v2_block_len
    ++ more in
  let file := archive pre pairs cdir fields comment in
  0 <= pair_len < 2 ^ 64 ->
  0 <= v2_block_len < 2 ^ 32 ->
  record_found fields comment
    (Z.of_nat (length pre) + Z.of_nat (length pairs) + 24) = true ->
  fst (parse_v2_block heap (S fuel) v2_block_len
         (mk_istream file (Z.of_nat (length pre) + 16) false)) = Throw e ->
  fst (parse heap (S fuel) (new_siginfo file)) = Throw e
  /\ has_v2_block (snd (parse heap (S fuel) (new_siginfo file))) = true
  /\ get_v2_block (snd (parse heap (S fuel) (new_siginfo file)))
     = mk_v2_block [].
Proof.
  intros pairs file Hl Hbl Hrec Hdec.
  pose proof (parse_reaches_walk (heap := heap) (S fuel) pre pairs cdir
                fields comment Hrec) as H.
  cbv zeta in H. fold file in H. rewrite H. clear H.
  assert (Hlen : (16 <= length pairs)%nat)
    by (unfold pairs; rewrite !length_app, !le_bytes_length; lia).
  cbn [walk_pairs].
  destruct (Z.ltb_spec (Z.of_nat (length pre))
              (Z.of_nat (length pre) + Z.of_nat (length pairs))); [|lia].
  pose proof (walk_pair_v2 (heap := heap) (S fuel)
                (mk_siginfo
                   (mk_istream file
                      (Z.of_nat (length pre) + Z.of_nat (length pairs) + 8)
                      false) (-1) (-1) (-1) (mk_v2_block []))
                pre
                (more ++ le_bytes 8 (Z.of_nat (length pairs) + 24)
                 ++ apk_magic ++ cdir ++ eocd_magic ++ fields
                 ++ le_bytes 4 (Z.of_nat (length pre)
                                + Z.of_nat (length pairs) + 24)
                 ++ comment)
                pair_len v2_block_len eq_refl
                ltac:(unfold file, archive, pairs; cbn [ifs_ content];
                      rewrite <- !app_assoc; reflexivity)
                Hl Hbl) as Hw.
  cbv zeta in Hw.
  cbn [ifs_ content v3_block_pos_ v3_1_block_pos_ v2_block_] in Hw.
  destruct (parse_v2_block heap (S fuel) v2_block_len
              (mk_istream file (Z.of_nat (length pre) + 16) false))
    as [[blk|e'|] s'] eqn:Erun; cbn [fst] in Hdec; try discriminate Hdec.
  inversion Hdec; subst e'.
  match goal with
  | |- fst ?run = _ /\ _ =>
      assert (E : run =
                  (Throw e,
                   mk_siginfo s' (Z.of_nat (length pre) + 12) (-1) (-1)
                     (mk_v2_block [])))
        by (unfold bind at 1; rewrite Hw; reflexivity);
      rewrite E
  end.
  unfold has_v2_block, get_v2_block.
  cbn [fst snd v2_block_pos_ v2_block_].
  replace (Z.of_nat (length pre) + 12 =? -1) with false
    by (symmetry; apply Z.eqb_neq; lia).
  repeat split.
Qed.

(** The theorem at a v2 pair that declares a sequence shorter than its
    signer. *)
Lemma parse_failed_v2_decode_witness :
  fst (parse ample 4 (new_siginfo overrun_v2_file)) = Throw incomplete_sequence
  /\ has_v2_block (snd (parse ample 4 (new_siginfo overrun_v2_file))) = true
  /\ get_v2_block (snd (parse ample 4 (new_siginfo overrun_v2_file)))
     = mk_v2_block [].
Proof.
  apply (parse_failed_v2_decode (heap := ample) 3 []
           (encode_v2_block zero_trailer one_signer_block) []
           (repeat x00 12) [x00; x00] 40 1 incomplete_sequence).
  - lia.
  - lia.
  - vm_compute. reflexivity.
  - vm_compute. reflexivity.
Defined.

Lemma occurs_elsewhere_false (pat bytes : list byte) (k j : nat) :
  occurs_elsewhere pat bytes k = false ->
  (j < length bytes)%nat -> j <> k ->
  equal_at pat bytes j = false.
Proof.
  unfold occurs_elsewhere. intros H Hj Hk.
  destruct (equal_at pat bytes j) eqn:E; [|reflexivity].
  rewrite <- H. symmetry. apply existsb_exists.
  exists j. split; [apply in_seq; lia|].
  rewrite E, andb_true_r. apply negb_true_iff, Nat.eqb_neq. exact Hk.
Qed.

(** X17: an archive can be refused for the length of its comment.  The
    scanner never tests the last position of a window of 4096 bytes; so
    when the end-of-central-directory record starts [1 + 4096 k] bytes
    before the end of the file, and its magic stands nowhere else, [parse]
    does not find the record and throws the [parse_error] "Not a zip file,
    could not find EOCD Magic", whatever the record holds. *)
Theorem parse_misses_record_at_window_edge {heap : allocator} (fuel : nat)
    (front record : list byte) :
  (Z.of_nat (length record) - 1) mod 4096 = 0 ->
  occurs_elsewhere eocd_magic ((front ++ record) ++ repeat x00 3)
    (length front) = false ->
  fst (parse heap fuel (new_siginfo (front ++ record))) = Throw not_a_zip_file.
Proof.
  intros Hedge Hno.
  destruct (reverse_find_bytes_scan eocd_magic (front ++ record) (-1)
              ltac:(discriminate) (or_introl eq_refl))
    as (r & s' & Hrun & Hr & _).
  assert (r = -1) as ->.
  { destruct Hr as [Hr | [Ht He]]; [exact Hr|].
    apply tested_spec in Ht. destruct Ht as [Hrange Hmod].
    unfold scan_start, scanned_bytes in *.
    change (-1 =? -1) with true in *. cbv iota in *.
    rewrite Nat2Z.id, firstn_all in He.
    change (length eocd_magic - 1)%nat with 3%nat in He.
    change (Z.max default_window_size (Z.of_nat (length eocd_magic)))
      with 4096 in Hmod.
    destruct (Nat.eq_dec (Z.to_nat r) (length front)) as [Eq|Hne].
    - exfalso. apply Hmod.
      replace (Z.of_nat (length (front ++ record)) - 1 - r)
        with (Z.of_nat (length record) - 1)
        by (rewrite length_app; lia).
      exact Hedge.
    - rewrite (occurs_elsewhere_false _ _ _ _ Hno) in He
        by (rewrite ?length_app in *; cbn [length repeat]; lia).
      discriminate He. }
  unfold parse, new_siginfo.
  erewrite bind_ok by (apply on_ifs_run; exact Hrun).
  reflexivity.
Qed.

(** The theorem at an archive that is its end-of-central-directory record
    alone, with a comment of 4075 bytes. *)
Lemma parse_misses_record_at_window_edge_witness :
  fst (parse ample 2 (new_siginfo ([] ++ long_comment_zip)))
  = Throw not_a_zip_file.
Proof.
  apply (parse_misses_record_at_window_edge (heap := ample) 2 []
           long_comment_zip).
  - vm_compute. reflexivity.
  - vm_compute. reflexivity.
Defined.

(** ** Lengths that [parse] does not check *)

(** X18: the size of the signing block is not checked against the block.
    With a size field below 24 - less than the field and the magic take -
    the pair region is computed to start at or behind its own end, the
    walk takes no pair, and [parse] succeeds with every flag false,
    whatever stands in front of the size field. *)
Theorem parse_accepts_small_block_size {heap : allocator} (fuel : nat)
    (pre cdir fields comment : list byte) (sz : Z) :
  let off := Z.of_nat (length pre) + 24 in
  let file :=
    (pre ++ le_bytes 8 sz ++ apk_magic ++ cdir)
    ++ eocd_record fields comment off in
  0 <= sz <= 24 ->
  record_found fields comment off = true ->
  fst (parse heap fuel (new_siginfo file)) = Ok tt
  /\ has_v2_block (snd (parse heap fuel (new_siginfo file))) = false
  /\ has_v3_block (snd (parse heap fuel (new_siginfo file))) = false
  /\ has_v3_1_block (snd (parse heap fuel (new_siginfo file))) = false.
Proof.
  intros off file Hsz Hrec.
  destruct (record_found_true _ _ _ Hrec) as (_ & Hoff & _).
  pose proof (parse_finds_record (heap := heap) fuel
                (pre ++ le_bytes 8 sz ++ apk_magic ++ cdir)
                fields comment off Hrec) as H.
  cbv zeta in H. fold file in H. rewrite H. clear H.
  erewrite bind_ok by (apply on_ifs_run, seekg_at; unfold off; lia).
  erewrite bind_ok
    by (apply on_ifs_run;
        apply (decodes_run _ _ _ file (pre ++ le_bytes 8 sz)
                 (cdir ++ eocd_record fields comment off) _
                 (decodes_read apk_magic));
        [ unfold file; rewrite <- !app_assoc; reflexivity
        | rewrite !length_app, !le_bytes_length, !Nat2Z.inj_add;
          unfold off; lia ]).
  replace (bytes_eqb apk_magic apk_magic) with true by reflexivity.
  cbn [negb].
  erewrite bind_ok by (apply on_ifs_run, seekg_at; unfold off; lia).
  erewrite bind_ok
    by (apply on_ifs_run;
        apply (decodes_run _ _ _ file pre
                 (apk_magic ++ cdir ++ eocd_record fields comment off) _
                 (decodes_read_le_8 sz ltac:(lia)));
        [ unfold file; rewrite <- !app_assoc; reflexivity
        | unfold off; lia ]).
  rewrite (to_streamoff_small sz) by lia.
  rewrite to_streamoff_small by (unfold off in *; lia).
  rewrite walk_pairs_done by lia.
  repeat split.
Qed.

(** The theorem at an archive with a v3 pair and the size 0: the pair is
    not seen. *)
Lemma parse_accepts_small_block_size_witness :
  fst (parse ample 1 (new_siginfo zero_size_file)) = Ok tt
  /\ has_v2_block (snd (parse ample 1 (new_siginfo zero_size_file))) = false
  /\ has_v3_block (snd (parse ample 1 (new_siginfo zero_size_file))) = false
  /\ has_v3_1_block (snd (parse ample 1 (new_siginfo zero_size_file))) = false.
Proof.
  apply (parse_accepts_small_block_size (heap := ample) 1
           ([xee] ++ encode_pair 8 v3_id [x01; x02; x03; x04])
           [x50; x4b; x01; x02] (repeat x00 12) [x00; x00] 0).
  - lia.
  - vm_compute. reflexivity.
Defined.

(** X19: the length of a pair is not checked against the pair region.  A
    pair with an id other than [0x7109871a] whose length field exceeds
    what is left of the region is taken as any other pair: the walk leaves
    the region with it and [parse] succeeds, the flag of the id set. *)
Theorem parse_accepts_overlong_pair {heap : allocator} (fuel : nat)
    (value : list byte)
    (pair_len id : Z) (pre cdir fields comment : list byte) :
  let pairs := encode_pair pair_len id value in
  let file := archive pre pairs cdir fields comment in
  4 + Z.of_nat (length value) <= pair_len < 2 ^ 62 ->
  is_u32 id = true ->
  id <> v2_id ->
  record_found fields comment
    (Z.of_nat (length pre) + Z.of_nat (length pairs) + 24) = true ->
  fst (parse heap (S fuel) (new_siginfo file)) = Ok tt
  /\ has_v2_block (snd (parse heap (S fuel) (new_siginfo file))) = false
  /\ has_v3_block (snd (parse heap (S fuel) (new_siginfo file)))
     = (id =? v3_id)
  /\ has_v3_1_block (snd (parse heap (S fuel) (new_siginfo file)))
     = (id =? v3_1_id).
Proof.
  intros pairs file Hl Hid H2 Hrec.
  apply is_u32_true in Hid.
  destruct (record_found_true _ _ _ Hrec) as (_ & Hoff & _).
  pose proof (parse_reaches_walk (heap := heap) (S fuel) pre pairs cdir
                fields comment Hrec) as H.
  cbv zeta in H. fold file in H. rewrite H. clear H.
  assert (Hlen : Z.of_nat (length pairs) = 12 + Z.of_nat (length value))
    by (unfold pairs, encode_pair; rewrite !length_app, !le_bytes_length;
        lia).
  cbn [walk_pairs].
  destruct (Z.ltb_spec (Z.of_nat (length pre))
              (Z.of_nat (length pre) + Z.of_nat (length pairs))); [|lia].
  pose proof (walk_pair_other (heap := heap) (S fuel)
                (mk_siginfo
                   (mk_istream file
                      (Z.of_nat (length pre) + Z.of_nat (length pairs) + 8)
                      false) (-1) (-1) (-1) (mk_v2_block []))
                pre
                (value ++ le_bytes 8 (Z.of_nat (length pairs) + 24)
                 ++ apk_magic ++ cdir ++ eocd_magic ++ fields
                 ++ le_bytes 4 (Z.of_nat (length pre)
                                + Z.of_nat (length pairs) + 24)
                 ++ comment)
                pair_len id eq_refl
                ltac:(unfold file, archive, pairs, encode_pair;
                      cbn [ifs_ content]; rewrite <- !app_assoc;
                      reflexivity)
                ltac:(lia) Hid H2) as Hw.
  cbv zeta in Hw.
  cbn [ifs_ content v2_block_pos_ v3_block_pos_ v3_1_block_pos_ v2_block_]
    in Hw.
  erewrite bind_ok by exact Hw.
  rewrite next_pair_no_wrap by lia.
  rewrite walk_pairs_done by lia.
  unfold has_v2_block, has_v3_block, has_v3_1_block.
  cbn [fst snd v2_block_pos_ v3_block_pos_ v3_1_block_pos_].
  assert (E12 : (Z.of_nat (length pre) + 12 =? -1) = false)
    by (apply Z.eqb_neq; lia).
  assert (Hdiff : v3_id <> v3_1_id) by discriminate.
  destruct (Z.eqb_spec id v3_id) as [->|];
    [destruct (Z.eqb_spec v3_id v3_1_id); [contradiction|]
    | destruct (Z.eqb_spec id v3_1_id)];
    rewrite ?E12; repeat split.
Qed.

(** The theorem at a v3 pair of sixteen bytes that declares [2^40]. *)
Lemma parse_accepts_overlong_pair_witness :
  fst (parse ample 1 (new_siginfo long_pair_file)) = Ok tt
  /\ has_v2_block (snd (parse ample 1 (new_siginfo long_pair_file))) = false
  /\ has_v3_block (snd (parse ample 1 (new_siginfo long_pair_file))) = true
  /\ has_v3_1_block (snd (parse ample 1 (new_siginfo long_pair_file))) = false.
Proof.
  apply (parse_accepts_overlong_pair (heap := ample) 0 [x01; x02; x03; x04]
           (2 ^ 40) v3_id [] [] (repeat x00 12) [x00; x00]).
  - vm_compute. split; [discriminate | reflexivity].
  - reflexivity.
  - discriminate.
  - vm_compute. reflexivity.
Defined.

(** ** The earlier sequence splitter, in full *)

Lemma legacy_seq_loop_tiles (mem : list byte) (last : Z) :
  forall (fuel : nat) (first : Z) (out : list Legacy.span),
    first <= last ->
    (Z.to_nat (last - first) <= fuel)%nat ->
    match Legacy.parse_len_prefix_seq_loop fuel mem first last out with
    | Ok spans =>
        exists new, spans = out ++ new /\ spans_tile first last new
    | Throw e => e = truncated_sequence \/ e = truncated_value
    | OutOfFuel => False
    end.
Proof.
  induction fuel as [|fuel IH]; intros first out Hle Hfuel;
    cbn [Legacy.parse_len_prefix_seq_loop];
    destruct (Z.ltb_spec first last) as [Hlt|Hge];
    try lia;
    try (exists []; split; [symmetry; apply app_nil_r | cbn; lia]).
  destruct (Z.ltb_spec (last - first) 4); [left; reflexivity|].
  cbv zeta.
  set (s := Legacy.parse_len_prefix_value mem first).
  assert (Hdata : Legacy.data s = first + 4) by reflexivity.
  assert (Hlen : 0 <= Legacy.len s) by apply le_to_host_nonneg.
  destruct (Z.ltb_spec last (Legacy.data s + Legacy.len s));
    [right; reflexivity|].
  specialize (IH (Legacy.data s + Legacy.len s) (out ++ [s])
                ltac:(lia) ltac:(lia)).
  destruct (Legacy.parse_len_prefix_seq_loop fuel mem
              (Legacy.data s + Legacy.len s) last (out ++ [s]))
    as [spans|e|]; [|exact IH|exact IH].
  destruct IH as (new & -> & Htile).
  exists (s :: new). split; [rewrite <- app_assoc; reflexivity|].
  cbn [spans_tile]. auto.
Qed.

(** X20: the earlier, pointer-based splitter [parse_len_prefix_seq] ends
    on every range, and when it returns, its spans tile the range: the
    first lies behind the four bytes at [first], each next one behind the
    four bytes that follow the one before, and the last ends at [last]
    exactly.  Otherwise it throws "truncated sequence" or "truncated value
    in sequence". *)
Theorem legacy_seq_tiles_range (mem : list byte) (first last : Z) :
  first <= last ->
  match Legacy.parse_len_prefix_seq mem first last with
  | Ok spans => spans_tile first last spans
  | Throw e => e = truncated_sequence \/ e = truncated_value
  | OutOfFuel => False
  end.
Proof.
  intros Hle. unfold Legacy.parse_len_prefix_seq.
  pose proof (legacy_seq_loop_tiles mem last (Z.to_nat (last - first))
                first [] Hle (Nat.le_refl _)) as H.
  destruct (Legacy.parse_len_prefix_seq_loop (Z.to_nat (last - first)) mem
              first last []) as [spans|e|]; [|exact H|exact H].
  destruct H as (new & -> & Htile). exact Htile.
Qed.

(** The theorem at a buffer of two records, of one and of no byte. *)
Lemma legacy_seq_tiles_range_witness :
  spans_tile 0 9 [Legacy.mk_span 1 4; Legacy.mk_span 0 9].
Proof.
  exact (legacy_seq_tiles_range
           [x01; x00; x00; x00; xaa; x00; x00; x00; x00] 0 9
           ltac:(lia)).
Defined.

Lemma legacy_value_at (pre rest : list byte) (n : Z) :
  0 <= n < 2 ^ 32 ->
  Legacy.parse_len_prefix_value (pre ++ le_bytes 4 n ++ rest)
    (Z.of_nat (length pre))
  = Legacy.mk_span n (Z.of_nat (length pre) + 4).
Proof.
  intros Hn. unfold Legacy.parse_len_prefix_value.
  rewrite Nat2Z.id, skipn_length_app.
  replace (firstn 4 (le_bytes 4 n ++ rest)) with (le_bytes 4 n)
    by (symmetry; apply (firstn_length_app (le_bytes 4 n))).
  rewrite le_to_host_le_bytes_4 by exact Hn. reflexivity.
Qed.

Lemma legacy_seq_loop_records (rest : list byte) (xs : list (list byte)) :
  forall (fuel : nat) (pre : list byte) (out : list Legacy.span),
    Z.of_nat (length (encode_seq encode_certificate xs)) < 2 ^ 32 ->
    (length xs <= fuel)%nat ->
    exists new,
      Legacy.parse_len_prefix_seq_loop fuel
        (pre ++ encode_seq encode_certificate xs ++ rest)
        (Z.of_nat (length pre))
        (Z.of_nat (length pre)
         + Z.of_nat (length (encode_seq encode_certificate xs)))
        out
      = Ok (out ++ new)
      /\ map (span_bytes (pre ++ encode_seq encode_certificate xs ++ rest))
           new = xs.
Proof.
  induction xs as [|x xs IH]; intros fuel pre out Hb Hfuel.
  - cbn [encode_seq flat_map length]. exists [].
    rewrite Z.add_0_r, app_nil_r.
    destruct fuel; cbn [Legacy.parse_len_prefix_seq_loop];
      rewrite Z.ltb_irrefl; split; reflexivity.
  - destruct fuel as [|fuel]; [cbn [length] in Hfuel; lia|].
    rewrite encode_seq_length_cons in *.
    rewrite encode_seq_cons. unfold len_prefixed.
    change (encode_certificate x) with x in *.
    rewrite <- !app_assoc.
    set (mem := pre ++ le_bytes 4 (Z.of_nat (length x)) ++ x
                ++ encode_seq encode_certificate xs ++ rest).
    assert (Hval : Legacy.parse_len_prefix_value mem (Z.of_nat (length pre))
                   = Legacy.mk_span (Z.of_nat (length x))
                       (Z.of_nat (length pre) + 4))
      by (unfold mem; apply legacy_value_at; lia).
    cbn [Legacy.parse_len_prefix_seq_loop]. rewrite !Hval.
    cbn [Legacy.data Legacy.len].
    destruct (Z.ltb_spec (Z.of_nat (length pre))
                (Z.of_nat (length pre)
                 + Z.of_nat (4 + length x
                             + length (encode_seq encode_certificate xs))));
      [|lia].
    destruct (Z.ltb_spec
                (Z.of_nat (length pre)
                 + Z.of_nat (4 + length x
                             + length (encode_seq encode_certificate xs))
                 - Z.of_nat (length pre)) 4); [lia|].
    cbv zeta.
    destruct (Z.ltb_spec
                (Z.of_nat (length pre)
                 + Z.of_nat (4 + length x
                             + length (encode_seq encode_certificate xs)))
                (Z.of_nat (length pre) + 4 + Z.of_nat (length x))); [lia|].
    specialize (IH fuel (pre ++ le_bytes 4 (Z.of_nat (length x)) ++ x)
                  (out ++ [Legacy.mk_span (Z.of_nat (length x))
                             (Z.of_nat (length pre) + 4)])
                  ltac:(lia) ltac:(cbn [length] in Hfuel; lia)).
    rewrite <- !app_assoc in IH. fold mem in IH.
    rewrite !length_app, le_bytes_length, !Nat2Z.inj_add in IH.
    destruct IH as (new & Hrun & Hbytes).
    exists (Legacy.mk_span (Z.of_nat (length x)) (Z.of_nat (length pre) + 4)
            :: new).
    split.
    + replace (Z.of_nat (length pre) + 4 + Z.of_nat (length x))
        with (Z.of_nat (length pre)
              + (Z.of_nat 4 + Z.of_nat (length x))) by lia.
      replace (Z.of_nat (length pre)
               + Z.of_nat (4 + length x
                           + length (encode_seq encode_certificate xs)))
        with (Z.of_nat (length pre)
              + (Z.of_nat 4 + Z.of_nat (length x))
              + Z.of_nat (length (encode_seq encode_certificate xs)))
        by lia.
      rewrite Hrun, <- app_assoc. reflexivity.
    + cbn [map]. rewrite Hbytes. f_equal.
      unfold span_bytes, mem. cbn [Legacy.len Legacy.data].
      replace (Z.to_nat (Z.of_nat (length pre) + 4))
        with (length (pre ++ le_bytes 4 (Z.of_nat (length x))))
        by (rewrite length_app, le_bytes_length; lia).
      rewrite Nat2Z.id, (app_assoc pre), skipn_length_app.
      apply firstn_length_app.
Qed.

(** X21: the two revisions of the sequence decoder agree on a well-formed
    sequence.  For records [xs] laid out back to back, each behind its
    [u32] length, in less than [2^32] bytes, the stream decoder
    [parse_len_prefixed_seq] with [parse_certificate] returns [xs], and the
    earlier splitter [parse_len_prefix_seq] returns spans whose bytes are
    the records [xs].  The stream decoder copies the records, and its
    allocator is one that grants the memory they ask for; the splitter
    copies nothing. *)
Theorem sequence_decoders_agree {heap : allocator} (fuel : nat)
    (xs : list (list byte)) (pre rest : list byte) :
  let bytes := encode_seq encode_certificate xs in
  let mem := pre ++ bytes ++ rest in
  let first := Z.of_nat (length pre) in
  let last := first + Z.of_nat (length bytes) in
  (forall n : Z, heap n = true) ->
  Z.of_nat (length bytes) < 2 ^ 32 ->
  (length xs <= fuel)%nat ->
  fst (parse_len_prefixed_seq fuel (Z.of_nat (length bytes))
         (parse_certificate heap) (mk_istream mem first false))
  = Ok xs
  /\ exists spans,
       Legacy.parse_len_prefix_seq mem first last = Ok spans
       /\ map (span_bytes mem) spans = xs.
Proof.
  intros bytes mem first last Hheap Hb Hfuel. subst last first mem bytes.
  split.
  - rewrite (decodes_seq encode_certificate (parse_certificate heap) fuel xs
               (fun c _ => decodes_parse_certificate Hheap c) Hb Hfuel pre
               rest).
    reflexivity.
  - unfold Legacy.parse_len_prefix_seq.
    assert (Hcount : (length xs
                      <= length (encode_seq encode_certificate xs))%nat)
      by exact (encode_seq_count encode_certificate xs).
    destruct (legacy_seq_loop_records rest xs
                (Z.to_nat
                   (Z.of_nat (length pre)
                    + Z.of_nat (length (encode_seq encode_certificate xs))
                    - Z.of_nat (length pre)))
                pre [] Hb ltac:(lia))
      as (new & Hrun & Hbytes).
    exists new. split; [exact Hrun | exact Hbytes].
Qed.

(** The theorem at two records, of three bytes and of one. *)
Lemma sequence_decoders_agree_witness :
  let xs := [[x30; x82; x01]; [x21]] in
  let mem := [xee] ++ encode_seq encode_certificate xs ++ [xff] in
  fst (parse_len_prefixed_seq 2 12 (parse_certificate ample)
         (mk_istream mem 1 false)) = Ok xs
  /\ exists spans,
       Legacy.parse_len_prefix_seq mem 1 13 = Ok spans
       /\ map (span_bytes mem) spans = xs.
Proof.
  apply (sequence_decoders_agree (heap := ample) 2 [[x30; x82; x01]; [x21]]
           [xee] [xff]).
  - reflexivity.
  - vm_compute. reflexivity.
  - apply Nat.le_refl.
Defined.

(** ** The hexadecimal printer *)

Lemma string_append_assoc (a b c : String.string) :
  String.append (String.append a b) c = String.append a (String.append b c).
Proof.
  induction a as [|x a IH]; [reflexivity|].
  cbn [String.append]. rewrite IH. reflexivity.
Qed.

Lemma hexstr_fold (p : list byte) :
  forall acc : String.string,
    fold_left (fun out b => String.append out (format_02x b)) p acc
    = String.append acc (hexstr p).
Proof.
  unfold hexstr. induction p as [|b p IH]; intros acc; cbn [fold_left].
  - induction acc as [|x acc IHa]; [reflexivity|].
    cbn [String.append]. rewrite <- IHa. reflexivity.
  - rewrite (IH (String.append acc (format_02x b))).
    rewrite (IH (String.append String.EmptyString (format_02x b))).
    cbn [String.append]. apply string_append_assoc.
Qed.

Lemma hexstr_cons (b : byte) (p : list byte) :
  hexstr (b :: p) =
  String.String (hex_digit (byte_val b / 16))
    (String.String (hex_digit (byte_val b mod 16)) (hexstr p)).
Proof.
  unfold hexstr at 1. cbn [fold_left]. rewrite hexstr_fold. reflexivity.
Qed.

Lemma format_02x_inj (a b : byte) : format_02x a = format_02x b -> a = b.
Proof.
  set (value := fun c : Ascii.ascii =>
                  let n := Z.of_nat (Ascii.nat_of_ascii c) in
                  if n <? 58 then n - 48 else n - 87).
  set (dec := fun s : String.string =>
                match s with
                | String.String c1 (String.String c2 _) =>
                    byte_of_Z (16 * value c1 + value c2)
                | _ => x00
                end).
  assert (D : forall x : byte, dec (format_02x x) = x)
    by (intros x; destruct x; vm_compute; reflexivity).
  intros H. rewrite <- (D a), <- (D b), H. reflexivity.
Qed.

(** X22: [hexstr] prints two characters for each byte and loses nothing:
    the string has twice the length of the input, and two inputs that
    print the same string are the same bytes. *)
Theorem hexstr_faithful (p q : list byte) :
  String.length (hexstr p) = (2 * length p)%nat
  /\ (hexstr p = hexstr q -> p = q).
Proof.
  split.
  - induction p as [|b p IH]; [reflexivity|].
    rewrite hexstr_cons. cbn [String.length length]. rewrite IH. lia.
  - revert q. induction p as [|a p IH]; intros [|b q] H.
    + reflexivity.
    + rewrite hexstr_cons in H. discriminate H.
    + rewrite hexstr_cons in H. discriminate H.
    + rewrite !hexstr_cons in H. inversion H as [[H1 H2 H3]].
      f_equal; [|apply IH; exact H3].
      apply format_02x_inj. unfold format_02x. rewrite H1, H2. reflexivity.
Qed.

Section HexstrExample.

Import Stdlib.Strings.String.

(** Two bytes, as [main] prints them. *)
Lemma hexstr_example : hexstr [x0a; xff] = "0aff"%string.
Proof. reflexivity. Qed.

End HexstrExample.

(** ** Calling [parse] again *)

Lemma members_follow_kept (si1 si2 t1 t2 : siginfo) :
  v2_block_pos_ t1 = v2_block_pos_ si1 ->
  v2_block_pos_ t2 = v2_block_pos_ si2 ->
  v3_block_pos_ t1 = v3_block_pos_ si1 ->
  v3_block_pos_ t2 = v3_block_pos_ si2 ->
  v3_1_block_pos_ t1 = v3_1_block_pos_ si1 ->
  v3_1_block_pos_ t2 = v3_1_block_pos_ si2 ->
  v2_block_ t1 = v2_block_ si1 ->
  v2_block_ t2 = v2_block_ si2 ->
  members_follow si1 si2 t1 t2.
Proof. unfold members_follow. intuition. Qed.

Lemma members_follow_trans (si1 si2 t1 t2 u1 u2 : siginfo) :
  members_follow si1 si2 t1 t2 -> members_follow t1 t2 u1 u2 ->
  members_follow si1 si2 u1 u2.
Proof.
  unfold members_follow.
  intros (A1 & A2 & A3 & A4) (B1 & B2 & B3 & B4).
  repeat split;
    match goal with
    | H : ?f u1 = ?f u2 \/ _ |- ?f u1 = ?f u2 \/ _ =>
        destruct H as [H | [H H']]; [left; exact H|];
        match goal with
        | G : f t1 = f t2 \/ _ |- _ =>
            destruct G as [G | [G G']];
            [left; congruence | right; split; congruence]
        end
    end.
Qed.

Lemma stream_driven_ret {A} (a : A) : stream_driven (@ret siginfo A a).
Proof.
  intros si1 si2 E. cbn [ret fst snd].
  split; [reflexivity | split; [exact E|]].
  apply members_follow_kept; reflexivity.
Qed.

Lemma stream_driven_throw {A} (e : exn) : stream_driven (@throw siginfo A e).
Proof.
  intros si1 si2 E. cbn [throw fst snd].
  split; [reflexivity | split; [exact E|]].
  apply members_follow_kept; reflexivity.
Qed.

Lemma stream_driven_out_of_fuel {A} : stream_driven (@out_of_fuel siginfo A).
Proof.
  intros si1 si2 E. cbn [out_of_fuel fst snd].
  split; [reflexivity | split; [exact E|]].
  apply members_follow_kept; reflexivity.
Qed.

Lemma stream_driven_on_ifs {A} (m : M istream A) : stream_driven (on_ifs m).
Proof.
  intros si1 si2 E. unfold on_ifs. rewrite E.
  destruct (m (ifs_ si2)) as [r s']. cbn [fst snd ifs_].
  split; [reflexivity | split; [reflexivity|]].
  apply members_follow_kept; reflexivity.
Qed.

Lemma stream_driven_set_v2_block_pos (p : Z) :
  stream_driven (set_v2_block_pos p).
Proof.
  intros si1 si2 E. unfold set_v2_block_pos, members_follow.
  cbn [fst snd ifs_ v2_block_pos_ v3_block_pos_ v3_1_block_pos_ v2_block_].
  intuition.
Qed.

Lemma stream_driven_set_v3_block_pos (p : Z) :
  stream_driven (set_v3_block_pos p).
Proof.
  intros si1 si2 E. unfold set_v3_block_pos, members_follow.
  cbn [fst snd ifs_ v2_block_pos_ v3_block_pos_ v3_1_block_pos_ v2_block_].
  intuition.
Qed.

Lemma stream_driven_set_v3_1_block_pos (p : Z) :
  stream_driven (set_v3_1_block_pos p).
Proof.
  intros si1 si2 E. unfold set_v3_1_block_pos, members_follow.
  cbn [fst snd ifs_ v2_block_pos_ v3_block_pos_ v3_1_block_pos_ v2_block_].
  intuition.
Qed.

Lemma stream_driven_set_v2_block (b : v2_block) :
  stream_driven (set_v2_block b).
Proof.
  intros si1 si2 E. unfold set_v2_block, members_follow.
  cbn [fst snd ifs_ v2_block_pos_ v3_block_pos_ v3_1_block_pos_ v2_block_].
  intuition.
Qed.

Lemma stream_driven_bind {A B} (m : M siginfo A) (k : A -> M siginfo B) :
  stream_driven m -> (forall a, stream_driven (k a)) ->
  stream_driven (bind m k).
Proof.
  intros Hm Hk si1 si2 E.
  destruct (Hm si1 si2 E) as (R & S & F).
  unfold bind.
  destruct (m si1) as [r1 t1]. destruct (m si2) as [r2 t2].
  cbn [fst snd] in R, S, F. subst r2.
  destruct r1 as [a|e|].
  - destruct (Hk a t1 t2 S) as (R' & S' & F').
    split; [exact R' | split; [exact S'|]].
    eapply members_follow_trans; eassumption.
  - cbn [fst snd]. auto.
  - cbn [fst snd]. auto.
Qed.

Create HintDb driven.

#[local] Hint Resolve stream_driven_ret stream_driven_throw
  stream_driven_out_of_fuel stream_driven_on_ifs
  stream_driven_set_v2_block_pos stream_driven_set_v3_block_pos
  stream_driven_set_v3_1_block_pos stream_driven_set_v2_block : driven.

Ltac stream_driven_steps :=
  repeat first
    [ solve [auto with driven]
    | apply stream_driven_bind; [|intros ?] ].

Lemma stream_driven_classify_pair {heap : allocator} (fuel : nat) (id : Z) :
  stream_driven (classify_pair heap fuel id).
Proof.
  unfold classify_pair.
  destruct (id =? v2_id); [|destruct (id =? v3_id);
                             [|destruct (id =? v3_1_id)]];
    stream_driven_steps.
Qed.

Lemma stream_driven_walk_pair {heap : allocator} (fuel : nat) (i : Z) :
  stream_driven (walk_pair heap fuel i).
Proof.
  unfold walk_pair.
  repeat first [ solve [auto with driven]
               | apply stream_driven_classify_pair
               | apply stream_driven_bind; [|intros ?] ].
Qed.

Lemma stream_driven_walk_pairs {heap : allocator}
    (apk_sig_size_of_block_pos : Z) :
  forall (fuel : nat) (i : Z),
    stream_driven (walk_pairs heap fuel apk_sig_size_of_block_pos i).
Proof.
  induction fuel as [|fuel IH]; intros i; cbn [walk_pairs];
    destruct (i <? apk_sig_size_of_block_pos); auto with driven.
  apply stream_driven_bind; [apply stream_driven_walk_pair | intros i'].
  apply IH.
Qed.

Lemma stream_driven_parse {heap : allocator} (fuel : nat) :
  stream_driven (parse heap fuel).
Proof.
  unfold parse.
  apply stream_driven_bind; [auto with driven | intros p].
  destruct (p =? -1); [apply stream_driven_throw|]. cbv zeta.
  do 6 (apply stream_driven_bind; [auto with driven | intros ?]).
  match goal with |- context [negb ?c] => destruct c end; cbn [negb];
    [|apply stream_driven_throw].
  do 2 (apply stream_driven_bind; [auto with driven | intros ?]).
  apply stream_driven_walk_pairs.
Qed.

(** [parse] starts with a seek to the end: where the get position was
    does not matter. *)
Lemma parse_from_any_position {heap : allocator} (fuel : nat) (c : list byte)
    (g g' : Z)
    (p2 p3 p31 : Z) (b : v2_block) :
  parse heap fuel (mk_siginfo (mk_istream c g false) p2 p3 p31 b) =
  parse heap fuel (mk_siginfo (mk_istream c g' false) p2 p3 p31 b).
Proof.
  assert (E : reverse_find_bytes eocd_magic (-1) (mk_istream c g false)
              = reverse_find_bytes eocd_magic (-1) (mk_istream c g' false)).
  { unfold reverse_find_bytes. change (-1 =? -1) with true. cbv iota.
    unfold bind at 1 3, seekg_end, sentry. reflexivity. }
  unfold parse. unfold bind at 1 14. unfold on_ifs at 1 10.
  cbn [ifs_ v2_block_pos_ v3_block_pos_ v3_1_block_pos_ v2_block_].
  rewrite E. reflexivity.
Qed.

(** X23: [parse] can be called again.  A second call on the same object
    has the outcome of the first - it returns, or throws the same
    exception - and leaves the object exactly as the first call left it:
    the same recorded positions, the same block, the same state of the
    stream.  The allocator answers the second call as it did the first. *)
Theorem parse_again {heap : allocator} (fuel : nat) (si si' : siginfo)
    (r : outcome unit) :
  parse heap fuel si = (r, si') -> parse heap fuel si' = (r, si').
Proof.
  intros H.
  destruct (failbit (ifs_ si)) eqn:F0.
  { rewrite (parse_on_failed_stream fuel si F0) in H.
    inversion H; subst. apply parse_on_failed_stream. exact F0. }
  pose proof (failbit_op_parse (heap := heap) fuel _ _ _ H) as F.
  destruct (locator_op_parse (heap := heap) fuel _ _ _ H) as [C _].
  assert (Hios : r = Throw ios_failure \/ failbit (ifs_ si') = false).
  { destruct r as [u|e|]; [right; congruence | | right; congruence].
    destruct e; first [left; reflexivity | right; congruence]. }
  destruct Hios as [-> | F'].
  { apply parse_on_failed_stream. exact F. }
  destruct si as [[c g f] p2 p3 p31 b].
  destruct si' as [[c' g' f'] p2' p3' p31' b'].
  cbn [ifs_ content failbit] in *. subst c' f f'.
  rewrite (parse_from_any_position fuel c g' g).
  destruct (stream_driven_parse (heap := heap) fuel
              (mk_siginfo (mk_istream c g false) p2 p3 p31 b)
              (mk_siginfo (mk_istream c g false) p2' p3' p31' b')
              eq_refl) as (R & S & M2 & M3 & M31 & Mb).
  rewrite H in R, S, M2, M3, M31, Mb.
  destruct (parse heap fuel (mk_siginfo (mk_istream c g false) p2' p3' p31' b'))
    as [r2 [s2 q2 q3 q31 d]].
  cbn [fst snd ifs_ v2_block_pos_ v3_block_pos_ v3_1_block_pos_ v2_block_]
    in *.
  subst r2 s2. f_equal. f_equal.
  - destruct M2 as [M2 | [_ M2]]; congruence.
  - destruct M3 as [M3 | [_ M3]]; congruence.
  - destruct M31 as [M31 | [_ M31]]; congruence.
  - destruct Mb as [Mb | [_ Mb]]; congruence.
Qed.

(** The theorem at a parse that succeeds and at one that throws
    "Incomplete sequence". *)
Lemma parse_again_witness :
  parse ample 8 (snd (parse ample 8 (new_siginfo one_signer_file))) =
  (Ok tt, snd (parse ample 8 (new_siginfo one_signer_file)))
  /\ parse ample 4 (snd (parse ample 4 (new_siginfo overrun_v2_file))) =
     (Throw incomplete_sequence,
      snd (parse ample 4 (new_siginfo overrun_v2_file))).
Proof.
  split.
  - apply (parse_again (heap := ample) 8 (new_siginfo one_signer_file)).
    vm_compute. reflexivity.
  - apply (parse_again (heap := ample) 4 (new_siginfo overrun_v2_file)).
    vm_compute. reflexivity.
Defined.
